(** * email-mcp: watcher, event bus, triage hooks and notifier

    A shallow embedding of the stateful core of the repository:
    - [services/event-bus.ts]      the process-wide [EmailEventBus] and the
                                   [NotifierService];
    - [services/watcher.service.ts] the IMAP IDLE [WatcherService];
    - [services/hooks.service.ts]   the batching [HooksService] with its
                                   triage-response parser and sanitizer.

    JavaScript strings are sequences of UTF-16 code units, JavaScript values
    are an inductive type, objects that the code mutates in place are
    records threaded through the functions, and every [await] of the source
    is a point where the embedding hands control back to the event loop. *)

From Stdlib Require Import Ascii String.
From stdpp Require Import base numbers option list gmap pretty.

Set Default Proof Using "Type".
Open Scope N_scope.

(* ===================================================================== *)
(** * JavaScript strings and values *)
(* ===================================================================== *)

Module JS.

(** A JavaScript string is a sequence of 16-bit code units; [length] and
    [slice] count code units.  A code unit is kept as an [N]. *)
Abbreviation jsstring := (list N).

(** The code units of an ASCII literal of the source. *)
Definition js (s : string) : jsstring :=
  N_of_ascii <$> list_ascii_of_string s.

Definition cu (a : ascii) : N := N_of_ascii a.
Arguments cu : simpl never.
Arguments js : simpl never.

(** The double quote and the backslash. *)
Definition quote : N := 34.
Definition backslash : N := 92.

(** [String.prototype.slice(0, n)] for [n >= 0]. *)
Definition slice0 {A} (n : nat) (l : list A) : list A := take n l.

Fixpoint starts_with (p s : jsstring) : bool :=
  match p, s with
  | [], _ => true
  | _ :: _, [] => false
  | a :: p', b :: s' => (a =? b) && starts_with p' s'
  end.

(** Values that reach the code under study: the results of [JSON.parse]
    plus [undefined].  A number keeps the text of its literal: no code
    path modelled here inspects the numeric value, only [typeof]. *)
#[warnings="-register-all"]
Inductive JSValue :=
  | JUndefined
  | JNull
  | JBool (b : bool)
  | JNumber (literal : jsstring)
  | JString (s : jsstring)
  | JArray (xs : list JSValue)
  | JObject (props : list (jsstring * JSValue)).

Definition jsstring_eqb (a b : jsstring) : bool := bool_decide (a = b).

(** Property read [obj.name].  [JSON.parse] keeps the last of several
    members with one name; arrays and objects inherit none of the four
    names the sanitizer reads, and a read of a missing property gives
    [undefined]. *)
Fixpoint lookup_last (name : jsstring) (props : list (jsstring * JSValue))
    (found : JSValue) : JSValue :=
  match props with
  | [] => found
  | (k, v) :: rest =>
      lookup_last name rest (if jsstring_eqb k name then v else found)
  end.

Definition get (o : JSValue) (name : jsstring) : JSValue :=
  match o with
  | JObject props => lookup_last name props JUndefined
  | _ => JUndefined
  end.

(** [typeof v === 'object'] *)
Definition typeof_object (v : JSValue) : bool :=
  match v with
  | JNull | JArray _ | JObject _ => true
  | _ => false
  end.

Definition typeof_string (v : JSValue) : bool :=
  match v with JString _ => true | _ => false end.

Definition typeof_boolean (v : JSValue) : bool :=
  match v with JBool _ => true | _ => false end.

Definition is_null (v : JSValue) : bool :=
  match v with JNull => true | _ => false end.

Definition isArray (v : JSValue) : bool :=
  match v with JArray _ => true | _ => false end.

(** [Array.prototype.includes] on an array of string literals
    (SameValueZero: only a string equals a string). *)
Definition includes (xs : list jsstring) (v : JSValue) : bool :=
  match v with
  | JString s => bool_decide (s ∈ xs)
  | _ => false
  end.

End JS.

Import JS.

(* ===================================================================== *)
(** * [JSON.parse] *)
(* ===================================================================== *)

(** The grammar of ECMA-262 section 25.5.1 ([JSON.parse] without reviver),
    as a recursive-descent parser.  [JSON.parse] throws [SyntaxError] on a
    text outside the grammar; the parser then answers [PSyntaxError]. *)
Module Json.

Inductive presult (A : Type) :=
  | POk (a : A) (rest : jsstring)
  | PSyntaxError
  | POutOfFuel.
Arguments POk {A} a rest.
Arguments PSyntaxError {A}.
Arguments POutOfFuel {A}.

(** JSONWhiteSpace: tab, line feed, carriage return, space. *)
Definition is_json_ws (c : N) : bool :=
  (c =? 9) || (c =? 10) || (c =? 13) || (c =? 32).

Fixpoint skip_ws (s : jsstring) : jsstring :=
  match s with
  | c :: s' => if is_json_ws c then skip_ws s' else s
  | [] => []
  end.

Definition is_digit (c : N) : bool := (48 <=? c) && (c <=? 57).

Definition hex_value (c : N) : option N :=
  if is_digit c then Some (c - 48)
  else if (65 <=? c) && (c <=? 70) then Some (c - 55)
  else if (97 <=? c) && (c <=? 102) then Some (c - 87)
  else None.

Definition hex4 (s : jsstring) : option (N * jsstring) :=
  match s with
  | a :: b :: c :: d :: rest =>
      match hex_value a, hex_value b, hex_value c, hex_value d with
      | Some a, Some b, Some c, Some d =>
          Some (((a * 16 + b) * 16 + c) * 16 + d, rest)
      | _, _, _, _ => None
      end
  | _ => None
  end.

(** The escapes of JSONString after a backslash, [u] apart. *)
Definition single_escape (c : N) : option N :=
  if c =? quote then Some (quote)
  else if c =? backslash then Some (backslash)
  else if c =? cu "/" then Some (cu "/")
  else if c =? cu "b" then Some 8
  else if c =? cu "f" then Some 12
  else if c =? cu "n" then Some 10
  else if c =? cu "r" then Some 13
  else if c =? cu "t" then Some 9
  else None.

(** The characters of a string after its opening quote.  [skip] counts
    code units already consumed by an escape. *)
Fixpoint parse_chars (skip : nat) (s : jsstring) (acc : jsstring)
    : presult jsstring :=
  match s with
  | [] => PSyntaxError
  | c :: s' =>
      match skip with
      | S k => parse_chars k s' acc
      | O =>
          if c =? quote then POk (reverse acc) s'
          else if c <? 32 then PSyntaxError
          else if c =? backslash then
            match s' with
            | [] => PSyntaxError
            | e :: s'' =>
                if e =? cu "u" then
                  match hex4 s'' with
                  | Some (u, _) => parse_chars 5 s' (u :: acc)
                  | None => PSyntaxError
                  end
                else
                  match single_escape e with
                  | Some u => parse_chars 1 s' (u :: acc)
                  | None => PSyntaxError
                  end
            end
          else parse_chars 0 s' (c :: acc)
      end
  end.

Fixpoint take_digits (s : jsstring) (acc : jsstring) : jsstring * jsstring :=
  match s with
  | c :: s' => if is_digit c then take_digits s' (c :: acc) else (acc, s)
  | [] => (acc, [])
  end.

(** JSONNumber: an optional minus, then 0 or a digit 1-9 followed by
    digits, then an optional fraction (a dot and one digit or more) and an
    optional exponent (e or E, an optional sign, one digit or more);
    longest match.  The result is the literal, reversed in [acc]. *)
Definition parse_int (s acc : jsstring) : option (jsstring * jsstring) :=
  match s with
  | c :: s' =>
      if c =? cu "0" then Some (c :: acc, s')
      else if is_digit c then Some (take_digits s' (c :: acc))
      else None
  | [] => None
  end.

Definition parse_frac (s acc : jsstring) : jsstring * jsstring :=
  match s with
  | dot :: d :: s' =>
      if (dot =? cu ".") && is_digit d
      then take_digits s' (d :: dot :: acc)
      else (acc, s)
  | _ => (acc, s)
  end.

Definition parse_exp (s acc : jsstring) : jsstring * jsstring :=
  match s with
  | e :: s1 =>
      if (e =? cu "e") || (e =? cu "E") then
        match s1 with
        | d :: s2 =>
            if is_digit d then take_digits s2 (d :: e :: acc)
            else if (d =? cu "+") || (d =? cu "-") then
              match s2 with
              | d' :: s3 =>
                  if is_digit d' then take_digits s3 (d' :: d :: e :: acc)
                  else (acc, s)
              | [] => (acc, s)
              end
            else (acc, s)
        | [] => (acc, s)
        end
      else (acc, s)
  | [] => (acc, s)
  end.

Definition parse_number (s : jsstring) : presult JSValue :=
  let '(acc, s1) :=
    match s with
    | c :: s' => if c =? cu "-" then ([c], s') else ([], s)
    | [] => ([], s)
    end in
  match parse_int s1 acc with
  | None => PSyntaxError
  | Some (acc, s2) =>
      let '(acc, s3) := parse_frac s2 acc in
      let '(acc, s4) := parse_exp s3 acc in
      POk (JNumber (reverse acc)) s4
  end.

Definition parse_literal (lit : jsstring) (v : JSValue) (s : jsstring)
    : presult JSValue :=
  if starts_with lit s then POk v (drop (length lit) s) else PSyntaxError.

(** JSONValue, the elements of an array after a first [[] and the members
    of an object after a first [{].  A value and its element list take a
    unit of fuel each and consume a code unit at least, so a fuel above
    twice the length of the text is never used up (lemma
    [JSON_parse_fuel_suffices] below). *)
Fixpoint parse_value (fuel : nat) (s : jsstring) : presult JSValue :=
  match fuel with
  | O => POutOfFuel
  | S fuel =>
      match skip_ws s with
      | [] => PSyntaxError
      | c :: s' =>
          if c =? cu "[" then
            match skip_ws s' with
            | c' :: s'' =>
                if c' =? cu "]" then POk (JArray []) s''
                else parse_elements fuel s' []
            | [] => PSyntaxError
            end
          else if c =? cu "{" then
            match skip_ws s' with
            | c' :: s'' =>
                if c' =? cu "}" then POk (JObject []) s''
                else parse_members fuel s' []
            | [] => PSyntaxError
            end
          else if c =? quote then
            match parse_chars 0 s' [] with
            | POk str rest => POk (JString str) rest
            | PSyntaxError => PSyntaxError
            | POutOfFuel => POutOfFuel
            end
          else if c =? cu "t" then parse_literal (js "true") (JBool true) (c :: s')
          else if c =? cu "f" then parse_literal (js "false") (JBool false) (c :: s')
          else if c =? cu "n" then parse_literal (js "null") JNull (c :: s')
          else parse_number (c :: s')
      end
  end
with parse_elements (fuel : nat) (s : jsstring) (acc : list JSValue)
    : presult JSValue :=
  match fuel with
  | O => POutOfFuel
  | S fuel =>
      match parse_value fuel s with
      | POk v rest =>
          match skip_ws rest with
          | c :: rest' =>
              if c =? cu "," then parse_elements fuel rest' (v :: acc)
              else if c =? cu "]" then POk (JArray (reverse (v :: acc))) rest'
              else PSyntaxError
          | [] => PSyntaxError
          end
      | PSyntaxError => PSyntaxError
      | POutOfFuel => POutOfFuel
      end
  end
with parse_members (fuel : nat) (s : jsstring)
    (acc : list (jsstring * JSValue)) : presult JSValue :=
  match fuel with
  | O => POutOfFuel
  | S fuel =>
      match skip_ws s with
      | q :: s1 =>
          if q =? quote then
            match parse_chars 0 s1 [] with
            | POk key s2 =>
                match skip_ws s2 with
                | colon :: s3 =>
                    if colon =? cu ":" then
                      match parse_value fuel s3 with
                      | POk v rest =>
                          match skip_ws rest with
                          | c :: rest' =>
                              if c =? cu "," then
                                parse_members fuel rest' ((key, v) :: acc)
                              else if c =? cu "}" then
                                POk (JObject (reverse ((key, v) :: acc))) rest'
                              else PSyntaxError
                          | [] => PSyntaxError
                          end
                      | PSyntaxError => PSyntaxError
                      | POutOfFuel => POutOfFuel
                      end
                    else PSyntaxError
                | [] => PSyntaxError
                end
            | PSyntaxError => PSyntaxError
            | POutOfFuel => POutOfFuel
            end
          else PSyntaxError
      | [] => PSyntaxError
      end
  end.

(** [JSON.parse(text)]: one value between optional white space.  [None]
    stands for the [SyntaxError] thrown. *)
Definition JSON_parse (text : jsstring) : option JSValue :=
  match parse_value (S (2 * length text)) text with
  | POk v rest =>
      match skip_ws rest with
      | [] => Some v
      | _ :: _ => None
      end
  | _ => None
  end.

(** A result that is not a shortage of fuel and, when it is a value,
    leaves strictly less text than [s]. *)
Definition consumes {A} (s : jsstring) (r : presult A) : Prop :=
  match r with
  | POk _ rest => (length rest < length s)%nat
  | PSyntaxError => True
  | POutOfFuel => False
  end.

End Json.

Import Json.

(* ===================================================================== *)
(** * Triage results: [parseTriageResponse] and [sanitizeTriageResult] *)
(* ===================================================================== *)

Module Triage.

(** [interface TriageResult]: four optional properties.  A property that
    is absent and a property that holds [undefined] are one and the same
    here ([JUndefined]): every reader of a result in the source is a
    property read, which yields [undefined] in both cases.  The record
    keeps the JavaScript values the sanitizer stores; that they have the
    declared types is a theorem, not a typing assumption. *)
Record TriageResult := mkTriageResult {
  priority : JSValue;
  labels : JSValue;
  flag : JSValue;
  action : JSValue;
}.

(** The object literal [{}]. *)
Definition empty_result : TriageResult :=
  mkTriageResult JUndefined JUndefined JUndefined JUndefined.

(** A result passed where an [unknown] is expected. *)
Definition as_value (r : TriageResult) : JSValue :=
  JObject [ (js "priority", priority r); (js "labels", labels r);
            (js "flag", flag r); (js "action", action r) ].

Definition PRIORITIES : list jsstring :=
  [js "urgent"; js "high"; js "normal"; js "low"].

(** hooks.service.ts, lines 300-313. *)
Definition sanitizeTriageResult (raw : JSValue) : TriageResult :=
  if negb (typeof_object raw) || is_null raw then empty_result
  else
    let obj := raw in
    {| priority :=
         if includes PRIORITIES (get obj (js "priority"))
         then get obj (js "priority") else JUndefined;
       labels :=
         match get obj (js "labels") with
         | JArray ls => JArray (slice0 5 (filter typeof_string ls))
         | _ => JUndefined
         end;
       flag :=
         if typeof_boolean (get obj (js "flag"))
         then get obj (js "flag") else JUndefined;
       action :=
         match get obj (js "action") with
         | JString a => JString (slice0 200 a)
         | _ => JUndefined
         end |}.

(** The regular expression [/```(?:json)?\n?/g]: three backquotes, then
    [json] if it is there, then a line feed if it is there.  The length of
    the match that starts at the head of [s], if there is one. *)
Definition fence : jsstring := [96; 96; 96].

Definition fence_match (s : jsstring) : option nat :=
  if starts_with fence s then
    let r := drop 3 s in
    let j := if starts_with (js "json") r then 4%nat else 0%nat in
    let r := drop j r in
    let n := if starts_with [10] r then 1%nat else 0%nat in
    Some (3 + j + n)%nat
  else None.

(** [text.replace(re, '')] with the global flag: matches are found left to
    right and do not overlap.  [skip] counts the code units of a match
    still to be dropped. *)
Fixpoint replace_fences (skip : nat) (s : jsstring) : jsstring :=
  match s with
  | [] => []
  | c :: s' =>
      match skip with
      | S k => replace_fences k s'
      | O =>
          match fence_match s with
          | Some n => replace_fences (n - 1) s'
          | None => c :: replace_fences 0 s'
          end
      end
  end.

(** WhiteSpace and LineTerminator of ECMA-262, which [trim] removes. *)
Definition is_js_space (c : N) : bool :=
  bool_decide (c ∈ [9; 10; 11; 12; 13; 32; 160; 5760; 8232; 8233; 8239;
                    8287; 12288; 65279])
  || ((8192 <=? c) && (c <=? 8202)).

Fixpoint trim_start (s : jsstring) : jsstring :=
  match s with
  | c :: s' => if is_js_space c then trim_start s' else s
  | [] => []
  end.

Definition trim (s : jsstring) : jsstring :=
  reverse (trim_start (reverse (trim_start s))).

Definition cleaned (text : jsstring) : jsstring :=
  trim (replace_fences 0 text).

(** hooks.service.ts, lines 283-298.  The [try] block ends in [catch {}]
    and both a [SyntaxError] and a parsed value that is neither an array
    nor an object fall through to the last [return]. *)
Definition parseTriageResponse (text : jsstring) (expectedCount : nat)
    : list TriageResult :=
  match JSON_parse (cleaned text) with
  | Some (JArray parsed) =>
      sanitizeTriageResult <$> slice0 expectedCount parsed
  | Some (JObject props) => [sanitizeTriageResult (JObject props)]
  | _ => replicate expectedCount empty_result
  end.

(** [results[i] ?? {}] of [applyTriageResults] (line 237). *)
Definition result_at (results : list TriageResult) (i : nat) : TriageResult :=
  default empty_result (results !! i).

(** What the interface and the sanitizer's comment ask of a result. *)
Definition valid_priority (v : JSValue) : Prop :=
  v = JUndefined ∨ ∃ s, v = JString s ∧ s ∈ PRIORITIES.

Definition is_string (v : JSValue) : Prop := ∃ s, v = JString s.

Definition valid_labels (v : JSValue) : Prop :=
  v = JUndefined ∨
  ∃ ls, v = JArray ls ∧ (length ls ≤ 5)%nat ∧ Forall is_string ls.

Definition valid_flag (v : JSValue) : Prop :=
  v = JUndefined ∨ ∃ b, v = JBool b.

Definition valid_action (v : JSValue) : Prop :=
  v = JUndefined ∨ ∃ a, v = JString a ∧ (length a ≤ 200)%nat.

Definition valid_result (r : TriageResult) : Prop :=
  valid_priority (priority r) ∧ valid_labels (labels r) ∧
  valid_flag (flag r) ∧ valid_action (action r).

End Triage.

(* ===================================================================== *)
(** * Shared types and the protocol log *)
(* ===================================================================== *)

Module Types.

(** An address of an envelope: [{ name?: string; address: string }]. *)
Record Address := mkAddress {
  name : option jsstring;
  address : jsstring;
}.

(** [EmailMeta], with the fields [buildEmailMeta] fills in. *)
Record EmailMeta := mkEmailMeta {
  id : jsstring;
  subject : jsstring;
  from : Address;
  to : list Address;
  date : jsstring;
  seen : bool;
  flagged : bool;
  answered : bool;
  hasAttachments : bool;
  labels : list jsstring;
}.

End Types.

Module Log.

Inductive Level := Debug | Info | Warning | Alert.

#[global] Instance Level_eq_dec : EqDecision Level.
Proof. solve_decision. Defined.

(** One call [mcpLog(level, logger, data)]. *)
Record Entry := mkEntry {
  level : Level;
  logger : jsstring;
  data : jsstring;
}.

(** Modelled from the spec: [mcpLog] of logging.ts, which is not among the
    sources.  The spec has it as the protocol-log channel that "cannot be
    disabled" and has nothing in the core throw across a component
    boundary, so a call adds one line to the log and settles without an
    exception. *)
Definition mcpLog (level : Level) (logger data : jsstring) : list Entry :=
  [mkEntry level logger data].

End Log.

(** Literal code units of the source outside ASCII. *)
Module Glyph.
Definition mailbox_with_mail : jsstring := [0xD83D; 0xDCEC].  (* U+1F4EC *)
Definition e_mail : jsstring := [0xD83D; 0xDCE7].             (* U+1F4E7 *)
Definition police_light : jsstring := [0xD83D; 0xDEA8].       (* U+1F6A8 *)
Definition star : jsstring := [0x2B50].                       (* U+2B50 *)
Definition eye : jsstring := [0xD83D; 0xDC41; 0xFE0F].        (* U+1F441 U+FE0F *)
Definition new_button : jsstring := [0xD83C; 0xDD95].         (* U+1F195 *)
Definition paperclip : jsstring := [0xD83D; 0xDCCE].          (* U+1F4CE *)
Definition em_dash : jsstring := [0x2014].
Definition arrow : jsstring := [0x2192].
End Glyph.

(** A template literal's [${n}] for an integer [n]. *)
Definition num (z : Z) : jsstring := js (pretty z).

(* ===================================================================== *)
(** * The event bus *)
(* ===================================================================== *)

(** [class EmailEventBus extends EventEmitter<EmailEventMap> {}] adds
    nothing to Node's [EventEmitter], whose documented behaviour is
    embedded here: [on] appends a listener to the array of its event,
    [removeAllListeners(name)] empties that array, and [emit] calls the
    listeners registered at the time of the call, synchronously and in
    the order of registration; an exception thrown by a listener is not
    caught by [emit]. *)
Module EventBus.

Record NewEmailEvent := mkNewEmailEvent {
  account : jsstring;
  mailbox : jsstring;
  emails : list Types.EmailMeta;
}.

Record ExpungeEvent := mkExpungeEvent {
  expunge_account : jsstring;
  expunge_mailbox : jsstring;
  count : Z;
}.

(** The keys of [EmailEventMap]. *)
Inductive EventName := email_new | email_expunge.

#[global] Instance EventName_eq_dec : EqDecision EventName.
Proof. solve_decision. Defined.

(** How a call ends: with the world it leaves behind, and the exception
    when it throws. *)
Inductive completion (W E : Type) :=
  | Normal (w : W)
  | Throw (e : E) (w : W).
Arguments Normal {W E} w.
Arguments Throw {W E} e w.

Section Emitter.
(** [L]: the listener functions; [P]: the payload of the event emitted;
    [W]: the state listeners act on; [E]: what they throw. *)
Context {L P W E : Type}.
Variable call : L → P → W → completion W E.

Record EventEmitter := mkEmitter {
  new_listeners : list L;
  expunge_listeners : list L;
}.

Definition listeners (bus : EventEmitter) (name : EventName) : list L :=
  match name with
  | email_new => new_listeners bus
  | email_expunge => expunge_listeners bus
  end.

Definition on (name : EventName) (listener : L) (bus : EventEmitter)
    : EventEmitter :=
  match name with
  | email_new => mkEmitter (new_listeners bus ++ [listener]) (expunge_listeners bus)
  | email_expunge => mkEmitter (new_listeners bus) (expunge_listeners bus ++ [listener])
  end.

Definition removeAllListeners (name : EventName) (bus : EventEmitter)
    : EventEmitter :=
  match name with
  | email_new => mkEmitter [] (expunge_listeners bus)
  | email_expunge => mkEmitter (new_listeners bus) []
  end.

(** The loop of [emit] over the listeners: the listeners called, in
    order, and how the loop ended. *)
Fixpoint deliver (ls : list L) (payload : P) (w : W)
    : list L * completion W E :=
  match ls with
  | [] => ([], Normal w)
  | l :: rest =>
      match call l payload w with
      | Normal w' =>
          let '(called, c) := deliver rest payload w' in (l :: called, c)
      | Throw e w' => ([l], Throw e w')
      end
  end.

Definition emit (bus : EventEmitter) (name : EventName) (payload : P)
    (w : W) : list L * completion W E :=
  deliver (listeners bus name) payload w.

End Emitter.

Arguments EventEmitter L : clear implicits.

End EventBus.

(* ===================================================================== *)
(** * The IMAP IDLE watcher *)
(* ===================================================================== *)

(** watcher.service.ts.  UIDs and milliseconds are integers of JavaScript's
    number type, far below 2^53, and are kept as [Z].  The ImapFlow client
    is an external collaborator: what it answers ([connect], the mailbox
    after [getMailboxLock], the messages of [fetch]) is an argument of the
    function that consumes the answer. *)
Module Watcher.

Definition MAX_BACKOFF_MS : Z := 60000.
Definition INITIAL_BACKOFF_MS : Z := 1000.

Definition SYSTEM_FLAGS : list jsstring :=
  [js "\Seen"; js "\Answered"; js "\Flagged"; js "\Deleted"; js "\Draft";
   js "\Recent"; js "\*"].

(** Of [AccountConfig] the watcher's state keeps the name; the other
    fields are parameters of the connection it opens. *)
Record AccountConfig := mkAccount {
  name : jsstring;
}.

(** The closure given to [setTimeout] by [scheduleReconnect]: it fires
    after [delay] milliseconds and holds the [backoffMs] read when it was
    made. *)
Record ReconnectTimer := mkTimer {
  delay : Z;
  captured_backoffMs : Z;
}.

(** [interface IdleState]; [client] and [lock] are handles. *)
Record IdleState := mkIdleState {
  client : option nat;
  account : AccountConfig;
  folder : jsstring;
  lastSeenUid : Z;
  lock : option nat;
  reconnectTimer : option ReconnectTimer;
  backoffMs : Z;
  stopped : bool;
}.

Definition set_connected (c l : option nat) (uid : Z) (b : Z) (s : IdleState)
    : IdleState :=
  mkIdleState c (account s) (folder s) uid l (reconnectTimer s) b (stopped s).

Definition set_lastSeenUid (uid : Z) (s : IdleState) : IdleState :=
  mkIdleState (client s) (account s) (folder s) uid (lock s)
    (reconnectTimer s) (backoffMs s) (stopped s).

Definition set_backoffMs (b : Z) (s : IdleState) : IdleState :=
  mkIdleState (client s) (account s) (folder s) (lastSeenUid s) (lock s)
    (reconnectTimer s) b (stopped s).

Definition set_reconnectTimer (t : option ReconnectTimer) (s : IdleState)
    : IdleState :=
  mkIdleState (client s) (account s) (folder s) (lastSeenUid s) (lock s)
    t (backoffMs s) (stopped s).

Definition set_disconnected (s : IdleState) : IdleState :=
  mkIdleState None (account s) (folder s) (lastSeenUid s) None
    (reconnectTimer s) (backoffMs s) (stopped s).

Definition set_stopped (s : IdleState) : IdleState :=
  mkIdleState (client s) (account s) (folder s) (lastSeenUid s) (lock s)
    (reconnectTimer s) (backoffMs s) true.

(** [private idleStates = new Map<string, IdleState>()] *)
Abbreviation IdleStates := (gmap jsstring IdleState).

Definition key_of (account_name folder_name : jsstring) : jsstring :=
  account_name ++ js ":" ++ folder_name.

Definition stateKey (state : IdleState) : jsstring :=
  key_of (name (account state)) (folder state).

(** [updateState(key, updates)]: [Object.assign] on the state stored under
    [key], nothing when there is none. *)
Definition updateState (key : jsstring) (updates : IdleState → IdleState)
    (m : IdleStates) : IdleStates :=
  alter updates key m.

(** [client.mailbox] once the lock is held: [false], or an object whose
    [uidNext] the server may not have reported. *)
Inductive Mailbox :=
  | NoMailbox
  | MailboxObject (uidNext : option Z).

Inductive ConnectOutcome :=
  | Connected (client lock : nat) (mailbox : Mailbox)
  | ConnectFailed (errMsg : jsstring).

(** Lines 165-168. *)
Definition resolve_uidNext (mailbox : Mailbox) : Z :=
  match mailbox with
  | MailboxObject (Some n) => n
  | MailboxObject None => 1
  | NoMailbox => 1
  end.

(** What a watcher routine leaves behind: the map, the lines logged and
    the reconnect timer it armed, if any. *)
Record Outcome := mkOutcome {
  states : IdleStates;
  logs : list Log.Entry;
  armed : option ReconnectTimer;
}.

Definition path_of (state : IdleState) : jsstring :=
  name (account state) ++ js "/" ++ folder state.

(** Lines 213-230. *)
Definition scheduleReconnect (key : jsstring) (m : IdleStates) : Outcome :=
  match m !! key with
  | None => mkOutcome m [] None
  | Some state =>
      if stopped state then mkOutcome m [] None
      else
        let backoffMs := backoffMs state in
        let line :=
          Log.mcpLog Log.Info (js "watcher")
            (js "Reconnecting " ++ path_of state ++ js " in " ++
             num backoffMs ++ js "ms") in
        let timer := mkTimer backoffMs backoffMs in
        mkOutcome (updateState key (set_reconnectTimer (Some timer)) m)
          line (Some timer)
  end.

(** Lines 146-210, from the point where [connect] and [getMailboxLock]
    have settled: the [try] block on success, the [catch] block on
    failure.  [state] is the object read at line 143. *)
Definition connectIdle_settled (key : jsstring) (state : IdleState)
    (outcome : ConnectOutcome) (m : IdleStates) : Outcome :=
  match outcome with
  | Connected client lock mailbox =>
      let uidNext := resolve_uidNext mailbox in
      let m' :=
        updateState key
          (set_connected (Some client) (Some lock) (uidNext - 1)
             INITIAL_BACKOFF_MS) m in
      mkOutcome m'
        (Log.mcpLog Log.Info (js "watcher")
           (js "IDLE started: " ++ path_of state ++ js " (uid > " ++
            num (uidNext - 1) ++ js ")"))
        None
  | ConnectFailed errMsg =>
      let line :=
        Log.mcpLog Log.Warning (js "watcher")
          (js "IDLE connect failed for " ++ path_of state ++ js ": " ++
           errMsg) in
      let r := scheduleReconnect key m in
      mkOutcome (states r) (line ++ logs r) (armed r)
  end.

(** Lines 142-211. *)
Definition connectIdle (key : jsstring) (outcome : ConnectOutcome)
    (m : IdleStates) : Outcome :=
  match m !! key with
  | None => mkOutcome m [] None
  | Some state =>
      if stopped state then mkOutcome m [] None
      else connectIdle_settled key state outcome m
  end.

(** Lines 127-140. *)
Definition startIdle (account : AccountConfig) (folder : jsstring)
    (outcome : ConnectOutcome) (m : IdleStates) : Outcome :=
  let key := key_of (name account) folder in
  connectIdle key outcome
    (<[key := mkIdleState None account folder 0 None None
                INITIAL_BACKOFF_MS false]> m).

(** The callback of the reconnect timer, lines 224-227. *)
Definition reconnect_timer_fires (key : jsstring) (timer : ReconnectTimer)
    (outcome : ConnectOutcome) (m : IdleStates) : Outcome :=
  connectIdle key outcome
    (updateState key
       (set_backoffMs (Z.min (captured_backoffMs timer * 2) MAX_BACKOFF_MS))
       m).

(** The handler of the client's [close] event, lines 185-191. *)
Definition on_close (key : jsstring) (m : IdleStates) : Outcome :=
  let m' := updateState key set_disconnected m in
  match m' !! key with
  | Some current =>
      if stopped current then mkOutcome m' [] None
      else scheduleReconnect key m'
  | None => mkOutcome m' [] None
  end.

(** A run of reconnect attempts: the timer [timer] is armed; each outcome
    in turn is what the attempt made when the armed timer fires comes
    to.  The result lists the delay of every timer armed, in order. *)
Fixpoint reconnect_run (key : jsstring) (timer : ReconnectTimer)
    (outcomes : list ConnectOutcome) (m : IdleStates) : list Z * IdleStates :=
  match outcomes with
  | [] => ([delay timer], m)
  | outcome :: rest =>
      let r := reconnect_timer_fires key timer outcome m in
      match armed r with
      | Some timer' =>
          let '(delays, m') := reconnect_run key timer' rest (states r) in
          (delay timer :: delays, m')
      | None => ([delay timer], states r)
      end
  end.

(** The delays as the spec words them: an initial delay, doubled at
    each consecutive failure, capped at the maximum; [n] failures after
    a first delay [d]. *)
Fixpoint backoff_sequence (n : nat) (d : Z) : list Z :=
  match n with
  | O => [d]
  | S n => d :: backoff_sequence n (Z.min (d * 2) MAX_BACKOFF_MS)
  end.

(** Every target's backoff lies between the initial value and the
    maximum. *)
Definition backoff_bounded (m : IdleStates) : Prop :=
  map_Forall (λ _ state,
    (INITIAL_BACKOFF_MS ≤ backoffMs state ≤ MAX_BACKOFF_MS)%Z) m.

Definition timer_bounded (timer : option ReconnectTimer) : Prop :=
  match timer with
  | Some t =>
      (INITIAL_BACKOFF_MS ≤ captured_backoffMs t ≤ MAX_BACKOFF_MS)%Z
      ∧ delay t = captured_backoffMs t
  | None => True
  end.

(** ** New-email detection *)

Record EnvelopeAddress := mkEnvelopeAddress {
  addr_name : option jsstring;
  addr_address : option jsstring;
}.

(** The [date] of an envelope, by what [date.toISOString()] does on it:
    it returns the text [iso], or it throws.  It throws a [RangeError]
    on a [Date] that is invalid and a [TypeError] on a value that is no
    [Date] (the library hands over the text of a header it could not
    read as a date); [message] is the message of the error thrown. *)
Inductive EnvelopeDate :=
  | PrintableDate (iso : jsstring)
  | UnprintableDate (message : jsstring).

Record Envelope := mkEnvelope {
  env_subject : option jsstring;
  env_from : option (list EnvelopeAddress);
  env_to : option (list EnvelopeAddress);
  env_date : option EnvelopeDate;
}.

#[warnings="-register-all"]
Inductive BodyStructure :=
  | BodyNode (disposition : option jsstring)
             (childNodes : option (list BodyStructure)).

(** A message yielded by [client.fetch]. *)
Record FetchedMessage := mkFetched {
  uid : Z;
  flags : option (list jsstring);
  envelope : option Envelope;
  bodyStructure : option BodyStructure;
}.

(** Lines 316-321, on a body structure that is an object. *)
Fixpoint hasAttachments_node (bs : BodyStructure) : bool :=
  match bs with
  | BodyNode disposition childNodes =>
      if bool_decide (disposition = Some (js "attachment")) then true
      else
        match childNodes with
        | Some children => existsb hasAttachments_node children
        | None => false
        end
  end.

Definition hasAttachments (bodyStructure : option BodyStructure) : bool :=
  match bodyStructure with
  | Some bs => hasAttachments_node bs
  | None => false
  end.

Definition has (flag : jsstring) (flags : list jsstring) : bool :=
  bool_decide (flag ∈ flags).

(** [msg.envelope?.field] *)
Definition envelope_field {A} (field : Envelope → option A)
    (msg : FetchedMessage) : option A :=
  match envelope msg with
  | Some e => field e
  | None => None
  end.

(** How a call of [buildEmailMeta] ends: with the summary, or with an
    exception, of which [message] is the message. *)
Inductive Built :=
  | Summary (meta : Types.EmailMeta)
  | BuildThrows (message : jsstring).

(** Lines 285-314; [now] is [new Date().toISOString()].  The one call
    that can throw is [toISOString] at line 307; nothing before it in
    the object literal has an effect. *)
Definition buildEmailMeta (now : jsstring) (msg : FetchedMessage) : Built :=
  let flags : list jsstring := default [] (flags msg) in
  let labels := filter (λ f, f ∉ SYSTEM_FLAGS) flags in
  let from : option EnvelopeAddress :=
    match envelope_field env_from msg with
    | Some (a :: _) => Some a
    | _ => None
    end in
  let to : list EnvelopeAddress := default [] (envelope_field env_to msg) in
  let summary (date : jsstring) : Types.EmailMeta :=
    {| Types.id := num (uid msg);
       Types.subject :=
         default (js "(no subject)") (envelope_field env_subject msg);
       Types.from :=
         match from with
         | Some a => Types.mkAddress (addr_name a) (default [] (addr_address a))
         | None => Types.mkAddress None []
         end;
       Types.to :=
         (λ a, Types.mkAddress (addr_name a) (default [] (addr_address a)))
           <$> to;
       Types.date := date;
       Types.seen := has (js "\Seen") flags;
       Types.flagged := has (js "\Flagged") flags;
       Types.answered := has (js "\Answered") flags;
       Types.hasAttachments := hasAttachments (bodyStructure msg);
       Types.labels := labels |} in
  match envelope_field env_date msg with
  | None => Summary (summary now)
  | Some (PrintableDate iso) => Summary (summary iso)
  | Some (UnprintableDate message) => BuildThrows message
  end.

(** What [client.fetch] yields before it ends, and the message of the
    error it ends with when it fails. *)
Record FetchResult := mkFetch {
  yielded : list FetchedMessage;
  failure : option jsstring;
}.

(** The locals of the [for await] loop, [maxUid] and [emails], or the
    message of the exception that has ended it. *)
Inductive Scan :=
  | Scanning (maxUid : Z) (emails : list Types.EmailMeta)
  | Thrown (message : jsstring).

(** The body of the [for await] loop, lines 252-255; [state] is the
    watch target's state object, read at every iteration.  An exception
    of [buildEmailMeta] leaves the loop for the [catch] of line 275. *)
Definition scan (now : jsstring) (state : IdleState)
    (acc : Scan) (msg : FetchedMessage) : Scan :=
  match acc with
  | Thrown message => Thrown message
  | Scanning maxUid emails =>
      if bool_decide (uid msg > lastSeenUid state)%Z
      then
        match buildEmailMeta now msg with
        | Summary meta => Scanning (Z.max maxUid (uid msg)) (emails ++ [meta])
        | BuildThrows message => Thrown message
        end
      else Scanning maxUid emails
  end.

(** The messages of a list that are above the last UID seen. *)
Definition above (state : IdleState) (msgs : list FetchedMessage)
    : list FetchedMessage :=
  filter (λ msg, (uid msg > lastSeenUid state)%Z) msgs.

(** The message of the first exception [buildEmailMeta] throws on the
    messages of a list, if it throws on any. *)
Fixpoint first_throw (now : jsstring) (msgs : list FetchedMessage)
    : option jsstring :=
  match msgs with
  | [] => None
  | msg :: rest =>
      match buildEmailMeta now msg with
      | BuildThrows message => Some message
      | Summary _ => first_throw now rest
      end
  end.

(** The summaries of the messages of a list on which [buildEmailMeta]
    returns. *)
Definition summaries (now : jsstring) (msgs : list FetchedMessage)
    : list Types.EmailMeta :=
  omap (λ msg, match buildEmailMeta now msg with
               | Summary meta => Some meta
               | BuildThrows _ => None
               end) msgs.

(** The largest of [start] and the UIDs of a list. *)
Definition max_uid (start : Z) (msgs : list FetchedMessage) : Z :=
  foldl (λ acc msg, Z.max acc (uid msg)) start msgs.

(** Lines 258-260. *)
Definition commit (key : jsstring) (state : IdleState) (maxUid : Z)
    (m : IdleStates) : IdleStates :=
  if bool_decide (maxUid > lastSeenUid state)%Z
  then updateState key (set_lastSeenUid maxUid) m
  else m.

Section HandleNewEmails.
(** The bus as the watcher sees it: [emit] applied to the singleton, on
    the world [W] its listeners act on, with exceptions [E] whose
    message is [errMsg]. *)
Context {W E : Type}.
Variable emit : EventBus.NewEmailEvent → W → EventBus.completion W E.
Variable errMsg : E → jsstring.

(** Lines 236-279. *)
Definition handleNewEmails (key : jsstring) (now : jsstring)
    (fetched : FetchResult) (m : IdleStates) (w : W)
    : IdleStates * W * list Log.Entry :=
  match m !! key with
  | None => (m, w, [])
  | Some state =>
      match client state with
      | None => (m, w, [])
      | Some _ =>
          match
            foldl (scan now state) (Scanning (lastSeenUid state) [])
              (yielded fetched)
          with
          | Thrown message =>
              (m, w,
               Log.mcpLog Log.Warning (js "watcher")
                 (js "Failed to fetch new emails: " ++ message))
          | Scanning maxUid emails =>
              match failure fetched with
              | Some err =>
                  (m, w,
                   Log.mcpLog Log.Warning (js "watcher")
                     (js "Failed to fetch new emails: " ++ err))
              | None =>
                  let m' := commit key state maxUid m in
                  if bool_decide (0 < length emails)%nat then
                    match emit (EventBus.mkNewEmailEvent
                                  (name (account state)) (folder state)
                                  emails) w with
                    | EventBus.Normal w' =>
                        (m', w',
                         Log.mcpLog Log.Info (js "watcher")
                           (Glyph.mailbox_with_mail ++ js " " ++
                            num (Z.of_nat (length emails)) ++
                            js " new email(s) in " ++
                            path_of state))
                    | EventBus.Throw e w' =>
                        (m', w',
                         Log.mcpLog Log.Warning (js "watcher")
                           (js "Failed to fetch new emails: " ++ errMsg e))
                    end
                  else (m', w, [])
              end
          end
      end
  end.


(** The handler of the client's [exists] event, lines 178-182. *)
Definition on_exists (key : jsstring) (count prevCount : Z)
    (now : jsstring) (fetched : FetchResult) (m : IdleStates) (w : W)
    : IdleStates * W * list Log.Entry :=
  if bool_decide (count > prevCount)%Z
  then handleNewEmails key now fetched m w
  else (m, w, []).

End HandleNewEmails.

(** The [lastSeenUid] that [getStatus] (lines 101-108) reports for the
    target under [key]. *)
Definition lastSeen (key : jsstring) (m : IdleStates) : option Z :=
  lastSeenUid <$> m !! key.

End Watcher.

(* ===================================================================== *)
(** * The notifier *)
(* ===================================================================== *)

(** event-bus.ts, from line 45 on ([NotifierService]). *)
Module Notifier.

Inductive UrgencyLevel := urgent | high | normal | low.

#[global] Instance UrgencyLevel_eq_dec : EqDecision UrgencyLevel.
Proof. solve_decision. Defined.

Definition URGENCY_ORDER (u : UrgencyLevel) : Z :=
  match u with
  | urgent => 4
  | high => 3
  | normal => 2
  | low => 1
  end.

Definition MCP_LOG_LEVEL_MAP (u : UrgencyLevel) : Log.Level :=
  match u with
  | urgent => Log.Alert
  | high => Log.Warning
  | normal => Log.Info
  | low => Log.Debug
  end.

(** The string a level is at run time. *)
Definition text_of (u : UrgencyLevel) : jsstring :=
  match u with
  | urgent => js "urgent"
  | high => js "high"
  | normal => js "normal"
  | low => js "low"
  end.

(** [toUpperCase] on the letters a-z, all there is in a level. *)
Definition toUpperCase (s : jsstring) : jsstring :=
  (λ c, if (97 <=? c) && (c <=? 122) then c - 32 else c) <$> s.

(** Of [AlertsConfig], the fields read here; [webhookUrl] is [None] when
    not set. *)
Record AlertsConfig := mkAlertsConfig {
  desktop : bool;
  sound : bool;
  urgencyThreshold : UrgencyLevel;
  webhookUrl : option jsstring;
  webhookEvents : list UrgencyLevel;
}.

Record AlertPayload := mkAlertPayload {
  account : jsstring;
  sender : Types.Address;
  subject : jsstring;
  priority : UrgencyLevel;
  labels : option (list jsstring);
  ruleName : option jsstring;
}.

(** [process.platform] *)
Inductive Platform := darwin | linux | win32 | other_platform.

(** What [alert] does to the outside.  [Desktop command] is one run of
    [sendDesktopNotification] past its rate limit, with the command it
    hands to [exec]; no command is built on a platform other than the
    three it knows.  [Webhook url payload] is the request [sendWebhook]
    makes; [alert] does not wait for it, and what [sendWebhook] logs
    when the request has settled comes after [alert] has returned (see
    [Dispatch.settles]). *)
Inductive Effect :=
  | LogLine (entry : Log.Entry)
  | Desktop (command : option jsstring)
  | Webhook (url : jsstring) (payload : AlertPayload).

Record NotifierService := mkNotifier {
  config : AlertsConfig;
  desktopCount : nat;
  desktopResetTimer : option Z;
}.

Definition MAX_DESKTOP_PER_MIN : nat := 5.

(** The constructor, lines 120-127: the counter at zero and an interval
    of 60 s that resets it. *)
Definition new (config : AlertsConfig) : NotifierService :=
  mkNotifier config 0 (Some 60000%Z).

(** The callback of the interval, line 125. *)
Definition reset_fires (s : NotifierService) : NotifierService :=
  mkNotifier (config s) 0 (desktopResetTimer s).

Definition stop (s : NotifierService) : NotifierService :=
  mkNotifier (config s) (desktopCount s) None.

(** Lines 99-105; the regular expressions work on code units. *)
Definition sanitizeForShell (text : jsstring) : jsstring :=
  let step1 := filter (λ c, c ∉ [backslash; quote; 39; 96; 36]) text in
  let step2 := (λ c, if bool_decide (c ∈ [10; 13; 9]) then 32 else c) <$> step1 in
  let step3 :=
    filter (λ c, (32 ≤ c ∧ c ≤ 126) ∨ (160 ≤ c ∧ c ≤ 65535)) step2 in
  slice0 200 step3.

Definition join (sep : jsstring) (parts : list jsstring) : jsstring :=
  match parts with
  | [] => []
  | p :: ps => p ++ concat ((λ x, sep ++ x) <$> ps)
  end.

Definition dq (s : jsstring) : jsstring := [quote] ++ s ++ [quote].

(** Lines 196-200. *)
Definition execDarwin (title body : jsstring) (sound : bool) : jsstring :=
  let soundClause := if sound then js " sound name " ++ dq (js "Glass") else [] in
  let script :=
    js "display notification " ++ dq body ++ js " with title " ++ dq title ++
    soundClause in
  js "osascript -e '" ++ script ++ js "'".

(** Lines 202-211. *)
Definition execLinux (title body : jsstring) (sound : bool) : jsstring :=
  let urgency := if sound then js "critical" else js "normal" in
  let cmds :=
    [js "notify-send -u " ++ urgency ++ js " " ++ dq title ++ js " " ++ dq body]
    ++ (if sound
        then [js "paplay /usr/share/sounds/freedesktop/stereo/message-new-instant.oga 2>/dev/null || true"]
        else []) in
  join (js " && ") cmds.

(** Lines 213-220. *)
Definition execWindows (title body : jsstring) : jsstring :=
  let ps :=
    js "[System.Reflection.Assembly]::LoadWithPartialName('System.Windows.Forms'); " ++
    js "$n = New-Object System.Windows.Forms.NotifyIcon; " ++
    js "$n.Icon = [System.Drawing.SystemIcons]::Information; " ++
    js "$n.Visible = $true; " ++
    js "$n.ShowBalloonTip(5000, '" ++ title ++ js "', '" ++ body ++
    js "', 'Info')" in
  js "powershell -Command " ++ dq ps.

Definition display_name (a : Types.Address) : jsstring :=
  default (Types.address a) (Types.name a).

(** Lines 167-194.  A failure of the command is caught at line 191 and
    changes nothing. *)
Definition sendDesktopNotification (platform : Platform)
    (payload : AlertPayload) (s : NotifierService)
    : NotifierService * list Effect :=
  if bool_decide (MAX_DESKTOP_PER_MIN ≤ desktopCount s)%nat then (s, [])
  else
    let s' := mkNotifier (config s) (desktopCount s + 1) (desktopResetTimer s) in
    let title :=
      sanitizeForShell
        (Glyph.e_mail ++ js " Email MCP " ++ Glyph.em_dash ++ js " " ++
         (if bool_decide (priority payload = urgent)
          then js "Urgent" else js "Important")) in
    let senderDisplay := sanitizeForShell (display_name (sender payload)) in
    let subject := sanitizeForShell (subject payload) in
    let body := js "From: " ++ senderDisplay ++ [10] ++ subject in
    let playSound :=
      sound (config s) && bool_decide (priority payload = urgent) in
    let command :=
      match platform with
      | darwin => Some (execDarwin title body playSound)
      | linux => Some (execLinux title body playSound)
      | win32 => Some (execWindows title body)
      | other_platform => None
      end in
    (s', [Desktop command]).

Definition truthy (s : option jsstring) : bool :=
  match s with
  | Some (_ :: _) => true
  | _ => false
  end.

Definition meetsThreshold (s : NotifierService) (payload : AlertPayload)
    : bool :=
  (URGENCY_ORDER (priority payload) >=?
   URGENCY_ORDER (urgencyThreshold (config s)))%Z.

(** Lines 140-161. *)
Definition alert (platform : Platform) (payload : AlertPayload)
    (forceDesktop : bool) (s : NotifierService)
    : NotifierService * list Effect :=
  let meets := meetsThreshold s payload in
  let logLevel := MCP_LOG_LEVEL_MAP (priority payload) in
  let icon :=
    if bool_decide (priority payload = urgent)
    then Glyph.police_light else Glyph.e_mail in
  let logMsg :=
    icon ++ js " [" ++ toUpperCase (text_of (priority payload)) ++ js "] " ++
    display_name (sender payload) ++ js ": " ++ dq (subject payload) ++
    (match labels payload with
     | Some (l :: ls) => js " [" ++ join (js ", ") (l :: ls) ++ js "]"
     | _ => []
     end) ++
    (if truthy (ruleName payload)
     then js " (rule: " ++ default [] (ruleName payload) ++ js ")"
     else []) in
  let log := LogLine <$> Log.mcpLog logLevel (js "notifier") logMsg in
  let '(s1, shown) :=
    if desktop (config s) && (meets || forceDesktop)
    then sendDesktopNotification platform payload s
    else (s, []) in
  let posted :=
    if truthy (webhookUrl (config s)) &&
       bool_decide (priority payload ∈ webhookEvents (config s))
    then [Webhook (default [] (webhookUrl (config s))) payload]
    else [] in
  (s1, log ++ shown ++ posted).

(** What happens to a notifier over time: alerts, and firings of its
    reset interval. *)
Inductive Input :=
  | Alerted (payload : AlertPayload) (forceDesktop : bool)
  | ResetFired.

(** The trace of a run: every effect, and a mark where the interval
    fired. *)
Inductive Mark :=
  | Did (e : Effect)
  | WindowStart.

Definition step (platform : Platform) (acc : NotifierService * list Mark)
    (i : Input) : NotifierService * list Mark :=
  let '(s, trace) := acc in
  match i with
  | Alerted payload forceDesktop =>
      let '(s', effects) := alert platform payload forceDesktop s in
      (s', trace ++ (Did <$> effects))
  | ResetFired => (reset_fires s, trace ++ [WindowStart])
  end.

Definition run (platform : Platform) (config : AlertsConfig)
    (history : list Input) : NotifierService * list Mark :=
  foldl (step platform) (new config, []) history.

(** The desktop sends of the current window: those of the trace after
    the last firing of the interval. *)
Fixpoint sends_in_window (trace : list Mark) (sofar : nat) : nat :=
  match trace with
  | [] => sofar
  | WindowStart :: rest => sends_in_window rest 0
  | Did (Desktop _) :: rest => sends_in_window rest (S sofar)
  | Did _ :: rest => sends_in_window rest sofar
  end.

Definition is_desktop (e : Effect) : bool :=
  match e with Desktop _ => true | _ => false end.

(** The desktop channel is invoked by a call when a [Desktop] effect is
    among its effects. *)
Definition desktop_invoked (effects : list Effect) : bool :=
  existsb is_desktop effects.

(** The three conditions of the desktop channel together: line 153 and
    line 168. *)
Definition desktop_allowed (s : NotifierService) (payload : AlertPayload)
    (forceDesktop : bool) : bool :=
  desktop (config s) && (meetsThreshold s payload || forceDesktop)
  && bool_decide (desktopCount s < MAX_DESKTOP_PER_MIN)%nat.

End Notifier.

(* ===================================================================== *)
(** * The hooks service *)
(* ===================================================================== *)

(** hooks.service.ts.  An [async] method is cut at its [await]s: the part
    that runs when it is called, and one part for every point where it is
    resumed; between two parts the event loop may run anything else. *)
Module Hooks.

(** [config.onNewEmail]: ['none'], ['triage'], or the log-only mode. *)
Inductive Mode := mode_none | mode_notify | mode_triage.

#[global] Instance Mode_eq_dec : EqDecision Mode.
Proof. solve_decision. Defined.

Record HooksConfig := mkHooksConfig {
  onNewEmail_mode : Mode;
  batchDelay : Z;
  autoLabel : bool;
  autoFlag : bool;
}.

Record BatchEmail := mkBatchEmail {
  account : jsstring;
  mailbox : jsstring;
  meta : Types.EmailMeta;
}.

(** What the service does to the outside: a line of the protocol log, a
    resource-updated notification, the sampling request, and the two
    mutations through [imapService]. *)
Inductive Effect :=
  | LogLine (entry : Log.Entry)
  | ResourceUpdated (uri : jsstring)
  | CreateMessage (prompt : jsstring)
  | AddLabel (account mailbox id label : jsstring)
  | SetFlags (account mailbox id : jsstring).

Definition log (level : Log.Level) (data : jsstring) : list Effect :=
  LogLine <$> Log.mcpLog level (js "hooks") data.

(** The fields of the class; a timer is kept as its delay in
    milliseconds, the server as a handle. *)
Record HooksService := mkHooks {
  config : HooksConfig;
  lowLevelServer : option nat;
  samplingSupported : bool;
  pendingEmails : list BatchEmail;
  batchTimer : option Z;
  rateCounter : nat;
  rateResetTimer : option Z;
}.

Definition MAX_SAMPLING_PER_MIN : nat := 10.

Definition new (config : HooksConfig) : HooksService :=
  mkHooks config None false [] None 0 None.

Section Bus.
Context {L : Type}.

(** Lines 67-87; [listener] is the arrow function of line 73. *)
Definition start (listener : L) (server : nat) (sampling : bool)
    (s : HooksService) (bus : EventBus.EventEmitter L)
    : HooksService * EventBus.EventEmitter L * list Effect :=
  let s1 :=
    mkHooks (config s) (Some server) sampling (pendingEmails s)
      (batchTimer s) (rateCounter s) (rateResetTimer s) in
  if bool_decide (onNewEmail_mode (config s) = mode_none) then (s1, bus, [])
  else
    let bus' := EventBus.on EventBus.email_new listener bus in
    let s2 :=
      mkHooks (config s1) (lowLevelServer s1) (samplingSupported s1)
        (pendingEmails s1) (batchTimer s1) (rateCounter s1)
        (Some 60000%Z) in
    (s2, bus',
     log Log.Info
       (js "Hooks active: mode=" ++
        (match onNewEmail_mode (config s) with
         | mode_none => js "none"
         | mode_notify => js "notify"
         | mode_triage => js "triage"
         end) ++
        js ", sampling=" ++ (if sampling then js "yes" else js "no"))).

(** Lines 89-100. *)
Definition stop (s : HooksService) (bus : EventBus.EventEmitter L)
    : HooksService * EventBus.EventEmitter L :=
  (mkHooks (config s) (lowLevelServer s) (samplingSupported s) []
     None (rateCounter s) None,
   EventBus.removeAllListeners EventBus.email_new bus).

End Bus.

(** The callback of the interval of line 78. *)
Definition rate_reset_fires (s : HooksService) : HooksService :=
  mkHooks (config s) (lowLevelServer s) (samplingSupported s)
    (pendingEmails s) (batchTimer s) 0 (rateResetTimer s).

(** Lines 106-117. *)
Definition onNewEmail (event : EventBus.NewEmailEvent) (s : HooksService)
    : HooksService :=
  let items :=
    (λ meta, mkBatchEmail (EventBus.account event) (EventBus.mailbox event) meta)
      <$> EventBus.emails event in
  mkHooks (config s) (lowLevelServer s) (samplingSupported s)
    (pendingEmails s ++ items)
    (match batchTimer s with
     | Some t => Some t
     | None => Some (batchDelay (config s) * 1000)%Z
     end)
    (rateCounter s) (rateResetTimer s).

(** [[...new Set(xs)]]: the distinct elements, in order of first
    appearance. *)
Fixpoint distinct (seen xs : list jsstring) : list jsstring :=
  match xs with
  | [] => []
  | x :: rest =>
      if bool_decide (x ∈ seen) then distinct seen rest
      else x :: distinct (x :: seen) rest
  end.

(** Lines 138-149, up to the [await]. *)
Definition sendResourceUpdates (emails : list BatchEmail) (s : HooksService)
    : list Effect :=
  match lowLevelServer s with
  | None => []
  | Some _ =>
      let accounts := distinct [] (account <$> emails) in
      accounts ≫= (λ account,
        [ResourceUpdated (js "email://" ++ account ++ js "/unread");
         ResourceUpdated (js "email://" ++ account ++ js "/mailboxes")])
  end.

(** The message of line 157. *)
Definition notification (e : BatchEmail) : jsstring :=
  Glyph.mailbox_with_mail ++ js " New email in " ++ account e ++
  js "/" ++ mailbox e ++ js ": " ++
  Notifier.dq (Types.subject (meta e)) ++ js " from " ++
  Types.address (Types.from (meta e)).

(** Lines 155-161: one call of [mcpLog] for every message. *)
Definition notifyBatch (emails : list BatchEmail) : list Effect :=
  emails ≫= (λ e, log Log.Info (notification e)).

(** Lines 205-217. *)
Definition formatEmailSummary (e : BatchEmail) (index : nat) : jsstring :=
  let flagIcons :=
    (if Types.flagged (meta e) then Glyph.star else []) ++
    (if Types.seen (meta e) then Glyph.eye else Glyph.new_button) ++
    (if Types.hasAttachments (meta e) then Glyph.paperclip else []) in
  js "[" ++ num (Z.of_nat index + 1) ++ js "] From: " ++
  Notifier.display_name (Types.from (meta e)) ++ [10] ++
  js "    Subject: " ++ Types.subject (meta e) ++ [10] ++
  js "    Date: " ++ Types.date (meta e) ++ [10] ++
  js "    Flags: " ++ flagIcons.

(** Lines 219-230. *)
Definition buildTriagePrompt (count : nat) (summaries : jsstring) : jsstring :=
  let dq := Notifier.dq in
  js "You are an email triage assistant. Analyze these " ++
  num (Z.of_nat count) ++
  js " new email(s) and respond with a JSON array " ++
  js "(one object per email, in order). Each object should have:" ++ [10] ++
  js "- " ++ dq (js "priority") ++ js ": " ++ dq (js "urgent") ++ js " | " ++
    dq (js "high") ++ js " | " ++ dq (js "normal") ++ js " | " ++
    dq (js "low") ++ [10] ++
  js "- " ++ dq (js "labels") ++ js ": string[] (suggested labels, e.g. [" ++
    dq (js "Meeting") ++ js ", " ++ dq (js "Finance") ++ js "])" ++ [10] ++
  js "- " ++ dq (js "flag") ++ js ": boolean (true if urgent/important)" ++ [10] ++
  js "- " ++ dq (js "action") ++
    js ": string (brief description of suggested action)" ++ [10; 10] ++
  js "Emails:" ++ [10] ++ summaries ++ [10; 10] ++
  js "Respond ONLY with the JSON array, no markdown or extra text.".

(** What [srv.createMessage] settles to: a rejection, or a result with
    its [model] and, when the content is of type ['text'], its text. *)
Inductive Sampling :=
  | Rejected (message : jsstring)
  | Resolved (model : jsstring) (text_content : option jsstring).

(** Line 194. *)
Definition text_of_result (model : jsstring) (text_content : option jsstring)
    : jsstring :=
  match model, text_content with
  | _ :: _, Some text => text
  | _, _ => []
  end.

(** The strings of a result's [labels].  A result reaches
    [applySingleTriage] from [sanitizeTriageResult] or as [{}], so its
    labels are strings (theorem [sanitizeTriageResult_valid]). *)
Definition label_strings (labels : JSValue) : list jsstring :=
  match labels with
  | JArray ls => ls ≫= (λ v, match v with JString l => [l] | _ => [] end)
  | _ => []
  end.

(** The truth value of a result's [flag], a boolean or [undefined]. *)
Definition flag_set (flag : JSValue) : bool :=
  match flag with
  | JBool true => true
  | _ => false
  end.

Definition string_or (v : JSValue) (otherwise : jsstring) : jsstring :=
  match v with
  | JString s => s
  | _ => otherwise
  end.

(** Lines 241-277 for one message.  [fails] tells which of the calls to
    [imapService] reject.  The effects are listed as the run issues
    them, the warnings of its label calls in the order of the labels. *)
Definition applySingleTriage (fails : Effect → bool) (s : HooksService)
    (email : BatchEmail) (triage : Triage.TriageResult) : list Effect :=
  let id := Types.id (meta email) in
  let labels := label_strings (Triage.labels triage) in
  let labelOps :=
    if autoLabel (config s) && bool_decide (labels ≠ []) then
      let calls := AddLabel (account email) (mailbox email) id <$> labels in
      calls ++
      (labels ≫= (λ label,
         if fails (AddLabel (account email) (mailbox email) id label)
         then log Log.Warning
                (js "Could not add label " ++ Notifier.dq label ++
                 js " to email " ++ id)
         else []))
    else [] in
  let flagged := flag_set (Triage.flag triage) in
  let flagOps :=
    if autoFlag (config s) && flagged then
      let call := SetFlags (account email) (mailbox email) id in
      call ::
      (if fails call then log Log.Warning (js "Could not flag email " ++ id)
       else [])
    else [] in
  let labelStr :=
    if bool_decide (labels ≠ [])
    then js " " ++ Glyph.arrow ++ js " labels: " ++ Notifier.join (js ", ") labels
    else [] in
  let flagStr := if flagged then js " " ++ Glyph.star else [] in
  let summary :=
    log Log.Info
      (Glyph.mailbox_with_mail ++ js " [" ++
       string_or (Triage.priority triage) (js "normal") ++ js "] " ++
       Notifier.dq (Types.subject (meta email)) ++ js " from " ++
       Types.address (Types.from (meta email)) ++ flagStr ++ labelStr) in
  let action :=
    match Triage.action triage with
    | JString (c :: a) => log Log.Info (js "   Action: " ++ c :: a)
    | _ => []
    end in
  labelOps ++ flagOps ++ summary ++ action.

(** Lines 236-239: one run of [applySingleTriage] for every message.
    The runs are started together and the event loop interleaves them
    as the calls to the mail store settle, so the list below, run after
    run, holds the effects of the program but not in an order of the
    program: what is stated of it is stated of each run, or does not
    change when the list is permuted. *)
Definition applyTriageResults (fails : Effect → bool) (s : HooksService)
    (emails : list BatchEmail) (results : list Triage.TriageResult)
    : list Effect :=
  concat (imap (λ i email,
            applySingleTriage fails s email (Triage.result_at results i))
          emails).

(** Where a flush is suspended, with the batch it holds in its local
    variable. *)
Inductive Suspended :=
  | AwaitResourceUpdates (batch : list BatchEmail)   (* line 125 *)
  | AwaitFallbackLog (emails : list BatchEmail)      (* lines 169, 200 *)
  | AwaitSampling (emails : list BatchEmail).        (* line 184 *)

Definition batch_of (t : Suspended) : list BatchEmail :=
  match t with
  | AwaitResourceUpdates b | AwaitFallbackLog b | AwaitSampling b => b
  end.

Definition fallback (reason : jsstring) : list Effect :=
  log Log.Warning reason.

(** Lines 167-192, up to the first [await]. *)
Definition triageBatch (emails : list BatchEmail) (s : HooksService)
    : HooksService * list Effect * option Suspended :=
  if bool_decide (MAX_SAMPLING_PER_MIN ≤ rateCounter s)%nat then
    (s,
     fallback (js "Sampling rate limit reached " ++ Glyph.em_dash ++
               js " falling back to notify"),
     Some (AwaitFallbackLog emails))
  else
    let s' :=
      mkHooks (config s) (lowLevelServer s) (samplingSupported s)
        (pendingEmails s) (batchTimer s) (rateCounter s + 1)
        (rateResetTimer s) in
    let emailSummaries :=
      Notifier.join [10; 10] (imap (λ i e, formatEmailSummary e i) emails) in
    let prompt := buildTriagePrompt (length emails) emailSummaries in
    match lowLevelServer s with
    | None =>
        (s',
         fallback (js "Sampling failed: Server not available " ++
                   Glyph.em_dash ++ js " falling back to notify"),
         Some (AwaitFallbackLog emails))
    | Some _ => (s', [CreateMessage prompt], Some (AwaitSampling emails))
    end.

(** Lines 119-125: [flushBatch] up to its first [await].  The second
    component is the local [batch]. *)
Definition flushBatch (s : HooksService)
    : HooksService * list BatchEmail * list Effect * option Suspended :=
  let batch := pendingEmails s in
  let s' :=
    mkHooks (config s) (lowLevelServer s) (samplingSupported s) []
      None (rateCounter s) (rateResetTimer s) in
  if bool_decide (length batch = 0)%nat then (s', batch, [], None)
  else (s', batch, sendResourceUpdates batch s', Some (AwaitResourceUpdates batch)).

(** A suspended flush is resumed: lines 127-131 after the resource
    updates, [notifyBatch] after the fallback warning, lines 194-202 when
    the sampling call has settled to [answer]. *)
Definition resume (fails : Effect → bool) (answer : Sampling)
    (t : Suspended) (s : HooksService)
    : HooksService * list Effect * option Suspended :=
  match t with
  | AwaitResourceUpdates batch =>
      if bool_decide (onNewEmail_mode (config s) = mode_triage)
         && samplingSupported s
      then triageBatch batch s
      else (s, notifyBatch batch, None)
  | AwaitFallbackLog emails => (s, notifyBatch emails, None)
  | AwaitSampling emails =>
      match answer with
      | Resolved model text_content =>
          let text := text_of_result model text_content in
          let triageResults :=
            Triage.parseTriageResponse text (length emails) in
          (s, applyTriageResults fails s emails triageResults, None)
      | Rejected errMsg =>
          (s,
           fallback (js "Sampling failed: " ++ errMsg ++ js " " ++
                     Glyph.em_dash ++ js " falling back to notify"),
           Some (AwaitFallbackLog emails))
      end
  end.

(** A flush run to its end with nothing in between: the effects of a
    suspended flush and of all its resumptions, [None] if [fuel]
    resumptions do not end it.  Three are enough from the start of a
    flush (lemma [flush_to_end_total]). *)
Fixpoint finish (fuel : nat) (fails : Effect → bool) (answer : Sampling)
    (t : option Suspended) (s : HooksService)
    : option (HooksService * list Effect) :=
  match t with
  | None => Some (s, [])
  | Some t =>
      match fuel with
      | O => None
      | S fuel =>
          let '(s1, effects, t') := resume fails answer t s in
          match finish fuel fails answer t' s1 with
          | Some (s2, more) => Some (s2, effects ++ more)
          | None => None
          end
      end
  end.

(** A flush from the firing of its timer to its end: the service after
    it, the batch it took and all its effects. *)
Definition flush_to_end (fails : Effect → bool) (answer : Sampling)
    (s : HooksService)
    : option (HooksService * list BatchEmail * list Effect) :=
  let '(s1, batch, effects, t) := flushBatch s in
  match finish 3 fails answer t s1 with
  | Some (s2, more) => Some (s2, batch, effects ++ more)
  | None => None
  end.

(** ** The event loop around one service *)

(** The service, the flushes that are suspended, everything output so
    far, and the local [batch] of every flush so far, oldest first. *)
Record Loop := mkLoop {
  service : HooksService;
  inflight : list Suspended;
  output : list Effect;
  flushed : list (list BatchEmail);
}.

Inductive Event :=
  | NewEmail (event : EventBus.NewEmailEvent)
  | BatchTimerFires
  | Settles (i : nat) (fails : Effect → bool) (answer : Sampling)
  | RateResetFires.

Definition put (t : option Suspended) (ts : list Suspended) : list Suspended :=
  match t with
  | Some t => ts ++ [t]
  | None => ts
  end.

(** One turn of the event loop.  The batch timer fires only while it is
    armed; [Settles i] resumes the [i]-th suspended flush. *)
Definition turn (l : Loop) (e : Event) : Loop :=
  match e with
  | NewEmail event =>
      mkLoop (onNewEmail event (service l)) (inflight l) (output l) (flushed l)
  | BatchTimerFires =>
      match batchTimer (service l) with
      | None => l
      | Some _ =>
          let '(s', batch, effects, t) := flushBatch (service l) in
          mkLoop s' (put t (inflight l)) (output l ++ effects)
            (flushed l ++ [batch])
      end
  | Settles i fails answer =>
      match inflight l !! i with
      | None => l
      | Some t =>
          let '(s', effects, t') := resume fails answer t (service l) in
          mkLoop s' (put t' (delete i (inflight l))) (output l ++ effects)
            (flushed l)
      end
  | RateResetFires =>
      mkLoop (rate_reset_fires (service l)) (inflight l) (output l) (flushed l)
  end.

Definition run (l : Loop) (events : list Event) : Loop := foldl turn l events.

(** The messages the events bring in, in order of arrival. *)
Definition arrivals (events : list Event) : list BatchEmail :=
  events ≫= (λ e,
    match e with
    | NewEmail event =>
        (λ meta, mkBatchEmail (EventBus.account event)
                   (EventBus.mailbox event) meta) <$> EventBus.emails event
    | _ => []
    end).

Definition idle (s : HooksService) : Loop := mkLoop s [] [] [].

(** What holds of a loop at all times: each suspended flush holds the
    batch of a flush, and while messages are pending the timer is armed. *)
Definition wellformed (l : Loop) : Prop :=
  Forall (λ t, batch_of t ∈ flushed l) (inflight l)
  ∧ (pendingEmails (service l) ≠ [] → is_Some (batchTimer (service l))).

Definition is_timer_firing (e : Event) : bool :=
  match e with BatchTimerFires => true | _ => false end.

Definition is_log (e : Effect) : bool :=
  match e with LogLine _ => true | _ => false end.
Definition is_info (e : Effect) : bool :=
  match e with LogLine entry => bool_decide (Log.level entry = Log.Info) | _ => false end.
Definition is_label_mutation (e : Effect) : bool :=
  match e with AddLabel _ _ _ _ => true | _ => false end.
Definition is_flag_mutation (e : Effect) : bool :=
  match e with SetFlags _ _ _ => true | _ => false end.
Definition is_ai_call (e : Effect) : bool :=
  match e with CreateMessage _ => true | _ => false end.

Definition count (p : Effect → bool) (effects : list Effect) : nat :=
  length (filter p effects).

End Hooks.

(* ===================================================================== *)
(** * Concrete instances *)
(* ===================================================================== *)

(** Small closed systems on which the definitions above are run. *)
Module Sample.

(** A text of the source with ['] standing for the double quote. *)
Definition q (s : string) : jsstring :=
  (λ c, if c =? 39 then quote else c) <$> js s.

(** Listeners known by a number, acting on the list of the numbers of
    the listeners called so far; listener 0 throws. *)
Definition faulty_call (l : nat) (payload : EventBus.NewEmailEvent)
    (w : list nat) : EventBus.completion (list nat) jsstring :=
  if bool_decide (l = 0%nat) then EventBus.Throw (js "boom") (w ++ [l])
  else EventBus.Normal (w ++ [l]).

Definition two_listeners : EventBus.EventEmitter nat :=
  EventBus.on EventBus.email_new 1%nat
    (EventBus.on EventBus.email_new 0%nat (EventBus.mkEmitter [] [])).

Definition meta_of (id subject address : string) : Types.EmailMeta :=
  Types.mkEmailMeta (js id) (js subject) (Types.mkAddress None (js address))
    [] (js "2024-01-01T00:00:00.000Z") false false false false [].

Definition one_email : EventBus.NewEmailEvent :=
  EventBus.mkNewEmailEvent (js "work") (js "INBOX")
    [meta_of "7" "Hello" "a@example.org"].

(** A watch target that is connected and has seen UID 41. *)
Definition work_inbox : Watcher.IdleState :=
  Watcher.mkIdleState (Some 1%nat) (Watcher.mkAccount (js "work"))
    (js "INBOX") 41 (Some 1%nat) None Watcher.INITIAL_BACKOFF_MS false.

Definition work_key : jsstring := Watcher.stateKey work_inbox.

Definition watching : Watcher.IdleStates := {[ work_key := work_inbox ]}.

Definition message (uid : Z) : Watcher.FetchedMessage :=
  Watcher.mkFetched uid None None None.

(** The range [42:*] answers with the last message of the folder even
    when it is older, then with two new ones. *)
Definition three_fetched : Watcher.FetchResult :=
  Watcher.mkFetch [message 41; message 42; message 45] None.

Definition now : jsstring := js "2024-01-01T00:00:00.000Z".

(** A bus whose listeners record the events and never throw. *)
Definition recording_emit (event : EventBus.NewEmailEvent)
    (w : list EventBus.NewEmailEvent)
    : EventBus.completion (list EventBus.NewEmailEvent) jsstring :=
  EventBus.Normal (w ++ [event]).

(** The bus of [two_listeners] as the watcher calls it. *)
Definition faulty_emit (event : EventBus.NewEmailEvent) (w : list nat)
    : EventBus.completion (list nat) jsstring :=
  (EventBus.emit faulty_call two_listeners EventBus.email_new event w).2.

(** A service in triage mode, sampling negotiated, with four messages
    pending and its ten AI calls of the window used up. *)
Definition triage_config : Hooks.HooksConfig :=
  Hooks.mkHooksConfig Hooks.mode_triage 5 true true.

Definition four_pending : list Hooks.BatchEmail :=
  [ Hooks.mkBatchEmail (js "work") (js "INBOX") (meta_of "7" "Hello" "a@example.org");
    Hooks.mkBatchEmail (js "work") (js "INBOX") (meta_of "8" "Invoice" "b@example.org");
    Hooks.mkBatchEmail (js "home") (js "INBOX") (meta_of "3" "Dinner" "c@example.org");
    Hooks.mkBatchEmail (js "work") (js "INBOX") (meta_of "9" "Re: Hello" "a@example.org") ].

Definition exhausted : Hooks.HooksService :=
  Hooks.mkHooks triage_config (Some 0%nat) true four_pending (Some 5000%Z)
    10 (Some 60000%Z).

Definition never_fails (e : Hooks.Effect) : bool := false.

(** The same service with calls left in the window. *)
Definition ready : Hooks.HooksService :=
  Hooks.mkHooks triage_config (Some 0%nat) true four_pending (Some 5000%Z)
    0 (Some 60000%Z).

Definition alerts_high : Notifier.AlertsConfig :=
  Notifier.mkAlertsConfig true true Notifier.high None [].

Definition payload_of (p : Notifier.UrgencyLevel) : Notifier.AlertPayload :=
  Notifier.mkAlertPayload (js "work") (Types.mkAddress None (js "a@example.org"))
    (js "Hello") p None None.

End Sample.

(* ===================================================================== *)
(** * Observations on effects and texts *)
(* ===================================================================== *)

(** Ways of looking at the effects and the texts the services produce;
    nothing here is code of the repository. *)
Module Observe.

(** How often the code unit [c] occurs in [s]. *)
Definition occurrences (c : N) (s : jsstring) : nat :=
  length (filter (λ x, x = c) s).

(** The code units [sanitizeForShell] exists to keep out of a command:
    backslash, double quote, single quote, backquote and dollar. *)
Definition shell_specials : list N := [backslash; quote; 39; 96; 36].

(** What [sanitizeForShell] lets through: a printable code unit that is
    not one of the shell specials. *)
Definition shell_safe (c : N) : Prop :=
  (c ∉ shell_specials) ∧ ((32 ≤ c ∧ c ≤ 126) ∨ (160 ≤ c ∧ c ≤ 65535)).



Definition is_warning (e : Hooks.Effect) : bool :=
  match e with
  | Hooks.LogLine entry => bool_decide (Log.level entry = Log.Warning)
  | _ => false
  end.

Definition is_resource_update (e : Hooks.Effect) : bool :=
  match e with Hooks.ResourceUpdated _ => true | _ => false end.

End Observe.

(* ===================================================================== *)
(** * The webhook request *)
(* ===================================================================== *)

Module Dispatch.







End Dispatch.

(* ===================================================================== *)
(** * Kinds of events and fenced answers *)
(* ===================================================================== *)

Module Wiring.

Definition is_new_email (e : Hooks.Event) : bool :=
  match e with Hooks.NewEmail _ => true | _ => false end.

Definition is_rate_reset (e : Hooks.Event) : bool :=
  match e with Hooks.RateResetFires => true | _ => false end.

(** How many events of a kind a run of the loop has. *)
Definition events_of (kind : Hooks.Event → bool) (events : list Hooks.Event)
    : nat :=
  length (filter kind events).

(** An answer wrapped in a Markdown code fence, with and without the
    language tag. *)
Definition fenced_json (t : jsstring) : jsstring :=
  Triage.fence ++ js "json" ++ [10] ++ t ++ [10] ++ Triage.fence.

Definition fenced_plain (t : jsstring) : jsstring :=
  Triage.fence ++ [10] ++ t ++ [10] ++ Triage.fence.

End Wiring.

(* ===================================================================== *)
(** * More concrete instances *)
(* ===================================================================== *)

Module Probe.

(** A subject written to break out of a quoted shell argument. *)
Definition injected_payload : Notifier.AlertPayload :=
  Notifier.mkAlertPayload (js "work")
    (Types.mkAddress None (js "a@example.org"))
    (Sample.q "x'; rm -rf ~; echo '$(id)`id`") Notifier.high None None.

(** The command [sendDesktopNotification] builds for it on Linux. *)
Definition injected_command : jsstring :=
  Eval vm_compute in
    match (Notifier.sendDesktopNotification Notifier.linux injected_payload
             (Notifier.new Sample.alerts_high)).2 with
    | [Notifier.Desktop (Some command)] => command
    | _ => []
    end.

End Probe.

(** The message a mutation of the mail store is aimed at. *)
Module Target.

Definition of_email (email : Hooks.BatchEmail) : jsstring * jsstring * jsstring :=
  (Hooks.account email, Hooks.mailbox email, Types.id (Hooks.meta email)).

Definition aimed_at (e : Hooks.Effect) : option (jsstring * jsstring * jsstring) :=
  match e with
  | Hooks.AddLabel account mailbox id _ => Some (account, mailbox, id)
  | Hooks.SetFlags account mailbox id => Some (account, mailbox, id)
  | _ => None
  end.

(** The calls to the mail store that the run of [applySingleTriage]
    for [email] makes on [result]: lines 243-255 and 259-265. *)
Definition label_calls (config : Hooks.HooksConfig)
    (result : Triage.TriageResult) (email : Hooks.BatchEmail)
    : list Hooks.Effect :=
  if Hooks.autoLabel config
  then Hooks.AddLabel (Hooks.account email) (Hooks.mailbox email)
         (Types.id (Hooks.meta email))
         <$> Hooks.label_strings (Triage.labels result)
  else [].

(** The results a flush of the service [s] applies when its sampling
    request, if it makes one, settles to [answer]: those read from the
    answer when the flush gets as far as line 196 of hooks.service.ts,
    none otherwise. *)
Definition results_applied (s : Hooks.HooksService) (answer : Hooks.Sampling)
    : list Triage.TriageResult :=
  if bool_decide (Hooks.onNewEmail_mode (Hooks.config s) = Hooks.mode_triage)
     && Hooks.samplingSupported s
  then
    if bool_decide (Hooks.MAX_SAMPLING_PER_MIN ≤ Hooks.rateCounter s)%nat
    then []
    else
      match Hooks.lowLevelServer s, answer with
      | Some _, Hooks.Resolved model content =>
          Triage.parseTriageResponse (Hooks.text_of_result model content)
            (length (Hooks.pendingEmails s))
      | _, _ => []
      end
  else [].

Definition flag_calls (config : Hooks.HooksConfig)
    (result : Triage.TriageResult) (email : Hooks.BatchEmail)
    : list Hooks.Effect :=
  if Hooks.autoFlag config && Hooks.flag_set (Triage.flag result)
  then [Hooks.SetFlags (Hooks.account email) (Hooks.mailbox email)
          (Types.id (Hooks.meta email))]
  else [].

End Target.

Module Clock.

(** The batch timers that are armed: one or none. *)
Definition armed (s : Hooks.HooksService) : nat :=
  match Hooks.batchTimer s with Some _ => 1 | None => 0 end.

(** The sampling calls left in the current window. *)
Definition calls_left (s : Hooks.HooksService) : nat :=
  Hooks.MAX_SAMPLING_PER_MIN - Hooks.rateCounter s.

End Clock.

Module Relay.

(** The world a call leaves behind, however it ends. *)
Definition world_of {W E : Type} (c : EventBus.completion W E) : W :=
  match c with
  | EventBus.Normal w => w
  | EventBus.Throw _ w => w
  end.

(** Who listens on the bus: the arrow function the hooks service
    registers at line 73 of hooks.service.ts, or a listener of some other
    component, known by a number. *)
Inductive Subscriber :=
  | OfHooks
  | Foreign (n : nat).

(** A call of a subscriber.  The world is the hooks service together
    with the state [X] the other listeners act on, which end as
    [foreign] says; the fields of the service are private to it. *)
Definition call {X E : Type}
    (foreign : nat → EventBus.NewEmailEvent → X → EventBus.completion X E)
    (l : Subscriber) (event : EventBus.NewEmailEvent)
    (w : Hooks.HooksService * X)
    : EventBus.completion (Hooks.HooksService * X) E :=
  match l with
  | OfHooks => EventBus.Normal (Hooks.onNewEmail event w.1, w.2)
  | Foreign n =>
      match foreign n event w.2 with
      | EventBus.Normal x => EventBus.Normal (w.1, x)
      | EventBus.Throw e x => EventBus.Throw e (w.1, x)
      end
  end.

(** [eventBus.emit('email:new', event)] as the watcher calls it. *)
Definition emit {X E : Type}
    (foreign : nat → EventBus.NewEmailEvent → X → EventBus.completion X E)
    (bus : EventBus.EventEmitter Subscriber)
    (event : EventBus.NewEmailEvent) (w : Hooks.HooksService * X)
    : EventBus.completion (Hooks.HooksService * X) E :=
  (EventBus.emit (call foreign) bus EventBus.email_new event w).2.

(** A bus on which only other components listen. *)
Definition foreign_bus (ns : list nat) : EventBus.EventEmitter Subscriber :=
  EventBus.mkEmitter (Foreign <$> ns) [].

(** The messages of a fetch that are newer than the last one seen. *)
Definition fresh (state : Watcher.IdleState) (fetched : Watcher.FetchResult)
    : list Watcher.FetchedMessage :=
  Watcher.above state (Watcher.yielded fetched).

(** The exception that ends a run of [handleNewEmails] on an answer,
    if one does: the first [buildEmailMeta] throws on a new message or,
    when none does, the failure of the fetch itself. *)
Definition failing (now : jsstring) (state : Watcher.IdleState)
    (fetched : Watcher.FetchResult) : option jsstring :=
  match Watcher.first_throw now (fresh state fetched) with
  | Some message => Some message
  | None => Watcher.failure fetched
  end.

(** The event the watcher emits for the new messages. *)
Definition event_of (now : jsstring) (state : Watcher.IdleState)
    (fetched : Watcher.FetchResult) : EventBus.NewEmailEvent :=
  EventBus.mkNewEmailEvent (Watcher.name (Watcher.account state))
    (Watcher.folder state) (Watcher.summaries now (fresh state fetched)).

(** The loop of a service from which [stop] has been called. *)
Definition stopped {L : Type} (bus : EventBus.EventEmitter L)
    (l : Hooks.Loop) : Hooks.Loop :=
  Hooks.mkLoop (Hooks.stop (Hooks.service l) bus).1 (Hooks.inflight l)
    (Hooks.output l) (Hooks.flushed l).

End Relay.

(** The watcher under the event loop: the state map, the reconnect
    timers that are armed, each with the key its callback closes over,
    and the lines logged. *)
Module Supervisor.

Record System := mkSystem {
  targets : Watcher.IdleStates;
  timers : list (jsstring * Watcher.ReconnectTimer);
  lines : list Log.Entry;
}.

(** What the loop runs: [startIdle] with the outcome of its connection
    attempt, the callback of the [i]-th armed timer with the outcome of
    the attempt it makes, the [close] handler of a target's client. *)
Inductive Signal :=
  | Starts (account : Watcher.AccountConfig) (folder : jsstring)
           (outcome : Watcher.ConnectOutcome)
  | Fires (i : nat) (outcome : Watcher.ConnectOutcome)
  | Closes (key : jsstring).

Definition absorb (key : jsstring)
    (armed : list (jsstring * Watcher.ReconnectTimer)) (logged : list Log.Entry)
    (r : Watcher.Outcome) : System :=
  mkSystem (Watcher.states r)
    (armed ++ match Watcher.armed r with
              | Some timer => [(key, timer)]
              | None => []
              end)
    (logged ++ Watcher.logs r).

Definition step (sys : System) (signal : Signal) : System :=
  match signal with
  | Starts account folder outcome =>
      absorb (Watcher.key_of (Watcher.name account) folder) (timers sys)
        (lines sys) (Watcher.startIdle account folder outcome (targets sys))
  | Fires i outcome =>
      match timers sys !! i with
      | None => sys
      | Some (key, timer) =>
          absorb key (delete i (timers sys)) (lines sys)
            (Watcher.reconnect_timer_fires key timer outcome (targets sys))
      end
  | Closes key =>
      absorb key (timers sys) (lines sys) (Watcher.on_close key (targets sys))
  end.

Definition run (sys : System) (signals : list Signal) : System :=
  foldl step sys signals.

(** A watcher just constructed. *)
Definition initial : System := mkSystem ∅ [] [].

End Supervisor.

(** The nodes of a body structure, the root first. *)
Module Body.

Fixpoint nodes (bs : Watcher.BodyStructure) : list Watcher.BodyStructure :=
  match bs with
  | Watcher.BodyNode _ childNodes =>
      bs :: match childNodes with
            | Some children => flat_map nodes children
            | None => []
            end
  end.

Definition is_attachment (bs : Watcher.BodyStructure) : bool :=
  match bs with
  | Watcher.BodyNode disposition _ =>
      bool_decide (disposition = Some (js "attachment"))
  end.

End Body.

(** More instances for the properties of the second part. *)
Module Scene.

(** The service of [Sample.ready] when the client has not negotiated
    sampling. *)
Definition unsupported : Hooks.HooksService :=
  Hooks.mkHooks Sample.triage_config (Some 0%nat) false Sample.four_pending
    (Some 5000%Z) 0 (Some 60000%Z).

(** A watch target that [stop] has marked. *)
Definition halted : Watcher.IdleStates :=
  {[ Sample.work_key := Watcher.set_stopped Sample.work_inbox ]}.

Definition home_key : jsstring := Watcher.key_of (js "home") (js "INBOX").

(** A message whose Date header the library could not read: the call
    [date.toISOString()] throws on what the envelope holds. *)
Definition undated (uid : Z) : Watcher.FetchedMessage :=
  Watcher.mkFetched uid None
    (Some (Watcher.mkEnvelope None None None
             (Some (Watcher.UnprintableDate (js "Invalid time value")))))
    None.



(** Two other listeners on the bus, none of which throws, recording
    the events they get. *)
Definition recorders (n : nat) (event : EventBus.NewEmailEvent)
    (x : list (nat * EventBus.NewEmailEvent))
    : EventBus.completion (list (nat * EventBus.NewEmailEvent)) jsstring :=
  EventBus.Normal (x ++ [(n, event)]).

End Scene.

(* ===================================================================== *)
(** * Part II: properties *)
(* ===================================================================== *)

(* ===================================================================== *)
(** * Properties of the JSON parser *)
(* ===================================================================== *)

Section JsonFacts.
Import Json.
Local Open Scope nat_scope.

Lemma skip_ws_length s : length (skip_ws s) ≤ length s.
Proof.
  induction s as [|c s IH]; simpl; [lia|].
  destruct (is_json_ws c); simpl; lia.
Qed.

Lemma skip_ws_cons s c s' : skip_ws s = c :: s' → length s' < length s.
Proof.
  intros H. pose proof (skip_ws_length s) as Hl.
  rewrite H in Hl. simpl in Hl. lia.
Qed.

Lemma consumes_weaken {A} (s s' : jsstring) (r : presult A) :
  length s' ≤ length s → consumes s' r → consumes s r.
Proof. destruct r; simpl; [lia|done|done]. Qed.

Lemma parse_chars_consumes_le n : ∀ s, length s ≤ n → ∀ skip acc,
  consumes s (parse_chars skip s acc).
Proof.
  induction n as [|n IH]; intros s Hn skip acc.
  { destruct s; [done | simpl in Hn; lia]. }
  destruct s as [|c s]; [done|]. simpl in Hn.
  cbn [parse_chars].
  repeat case_match; subst; try done;
    first [ by (simpl; lia)
          | eapply consumes_weaken; [|apply IH]; simpl in *; lia ].
Qed.

Lemma parse_chars_consumes s skip acc :
  consumes s (parse_chars skip s acc).
Proof. by apply (parse_chars_consumes_le (length s)). Qed.

Lemma take_digits_length s : ∀ acc,
  length (take_digits s acc).2 ≤ length s.
Proof.
  induction s as [|c s IH]; intros acc; simpl; [lia|].
  destruct (is_digit c); simpl; [|lia].
  specialize (IH (c :: acc)). lia.
Qed.

Lemma parse_frac_length s acc : length (parse_frac s acc).2 ≤ length s.
Proof.
  unfold parse_frac. repeat case_match; simpl; try lia.
  match goal with
  | |- context [take_digits ?x ?a] =>
      pose proof (take_digits_length x a); lia
  end.
Qed.

Lemma parse_exp_length s acc : length (parse_exp s acc).2 ≤ length s.
Proof.
  unfold parse_exp. repeat case_match; simpl; try lia;
  match goal with
  | |- context [take_digits ?x ?a] =>
      pose proof (take_digits_length x a); lia
  end.
Qed.

Lemma parse_number_consumes s : consumes s (parse_number s).
Proof.
  unfold parse_number.
  destruct (match s with
            | [] => ([], s)
            | c :: s' => if (c =? cu "-")%N then ([c], s') else ([], s)
            end) as [acc s1] eqn:Hsign.
  assert (length s1 ≤ length s) as Hs1.
  { destruct s as [|c s']; [by inversion Hsign|].
    destruct (c =? cu "-")%N; inversion Hsign; subst; simpl; lia. }
  unfold parse_int.
  destruct s1 as [|d s2]; [done|].
  destruct (d =? cu "0")%N.
  - destruct (parse_frac s2 (d :: acc)) as [acc3 s3] eqn:Hf.
    destruct (parse_exp s3 acc3) as [acc4 s4] eqn:He. simpl.
    pose proof (parse_frac_length s2 (d :: acc)) as H1.
    pose proof (parse_exp_length s3 acc3) as H2.
    rewrite Hf in H1. rewrite He in H2. simpl in *. lia.
  - destruct (is_digit d); [|done].
    destruct (take_digits s2 (d :: acc)) as [acc2 s2'] eqn:Hd.
    destruct (parse_frac s2' acc2) as [acc3 s3] eqn:Hf.
    destruct (parse_exp s3 acc3) as [acc4 s4] eqn:He. simpl.
    pose proof (take_digits_length s2 (d :: acc)) as H0.
    pose proof (parse_frac_length s2' acc2) as H1.
    pose proof (parse_exp_length s3 acc3) as H2.
    rewrite Hd in H0. rewrite Hf in H1. rewrite He in H2. simpl in *. lia.
Qed.

Lemma parse_literal_consumes lit v s :
  0 < length lit → consumes s (parse_literal lit v s).
Proof.
  intros Hlit. unfold parse_literal.
  destruct (starts_with lit s) eqn:Hp; simpl; [|done].
  destruct s as [|c s]; [by destruct lit|].
  rewrite length_drop. simpl. lia.
Qed.

(** With fuel above twice the length of the text, the parser never
    answers [POutOfFuel]. *)
Lemma parse_fuel fuel :
  (∀ s, 2 * length s + 1 ≤ fuel → consumes s (parse_value fuel s)) ∧
  (∀ s acc, 2 * length s + 2 ≤ fuel →
            consumes s (parse_elements fuel s acc)) ∧
  (∀ s acc, 2 * length s + 2 ≤ fuel →
            consumes s (parse_members fuel s acc)).
Proof.
  induction fuel as [|fuel (IHv & IHe & IHm)].
  { repeat split; intros; lia. }
  repeat split.
  - intros s Hf. simpl.
    destruct (skip_ws s) as [|c s'] eqn:Hs; [by simpl|].
    apply skip_ws_cons in Hs.
    destruct (c =? cu "[")%N.
    { destruct (skip_ws s') as [|c' s''] eqn:Hs'; [by simpl|].
      apply skip_ws_cons in Hs'.
      destruct (c' =? cu "]")%N; simpl; [lia|].
      specialize (IHe s' []).
      destruct (parse_elements fuel s' []); simpl in *; lia. }
    destruct (c =? cu "{")%N.
    { destruct (skip_ws s') as [|c' s''] eqn:Hs'; [by simpl|].
      apply skip_ws_cons in Hs'.
      destruct (c' =? cu "}")%N; simpl; [lia|].
      specialize (IHm s' []).
      destruct (parse_members fuel s' []); simpl in *; lia. }
    destruct (c =? quote)%N.
    { pose proof (parse_chars_consumes s' 0 []) as Hc.
      destruct (parse_chars 0 s' []); simpl in *; lia. }
    assert (∀ r : presult JSValue, consumes (c :: s') r → consumes s r) as Hw.
    { intros [v rest| |]; simpl; lia. }
    repeat case_match; apply Hw;
      first [ apply parse_literal_consumes; simpl; lia
            | apply parse_number_consumes ].
  - intros s acc Hf. simpl.
    specialize (IHv s).
    destruct (parse_value fuel s) as [v rest| |]; simpl in *; [|by simpl|lia].
    destruct (skip_ws rest) as [|c rest'] eqn:Hr; [by simpl|].
    apply skip_ws_cons in Hr.
    destruct (c =? cu ",")%N.
    { specialize (IHe rest' (v :: acc)).
      destruct (parse_elements fuel rest' (v :: acc)); simpl in *; lia. }
    destruct (c =? cu "]")%N; simpl; lia.
  - intros s acc Hf. simpl.
    destruct (skip_ws s) as [|q s1] eqn:Hs; [by simpl|].
    apply skip_ws_cons in Hs.
    destruct (q =? quote)%N; [|by simpl].
    pose proof (parse_chars_consumes s1 0 []) as Hc.
    destruct (parse_chars 0 s1 []) as [k s2| |]; simpl in *; [|by simpl|by simpl].
    destruct (skip_ws s2) as [|colon s3] eqn:Hs2; [by simpl|].
    apply skip_ws_cons in Hs2.
    destruct (colon =? cu ":")%N; [|by simpl].
    specialize (IHv s3).
    destruct (parse_value fuel s3) as [v rest| |]; simpl in *; [|by simpl|lia].
    destruct (skip_ws rest) as [|c rest'] eqn:Hr; [by simpl|].
    apply skip_ws_cons in Hr.
    destruct (c =? cu ",")%N.
    { specialize (IHm rest' ((k, v) :: acc)).
      destruct (parse_members fuel rest' ((k, v) :: acc)); simpl in *; lia. }
    destruct (c =? cu "}")%N; simpl; lia.
Qed.

(** The fuel [JSON_parse] starts with is never used up: [None] is a
    syntax error, never a shortage of fuel. *)
Lemma JSON_parse_fuel_suffices text :
  parse_value (S (2 * length text)) text ≠ POutOfFuel.
Proof.
  pose proof (proj1 (parse_fuel (S (2 * length text))) text) as H.
  intros Heq. rewrite Heq in H. simpl in H. apply H. lia.
Qed.

End JsonFacts.

(* ===================================================================== *)
(** * Triage results: sanitizing and parsing *)
(* ===================================================================== *)

Section TriageFacts.
Import Triage.
Local Open Scope nat_scope.

Lemma filter_strings_all (ls : list JSValue) :
  Forall is_string (filter typeof_string ls).
Proof.
  induction ls as [|v ls IH]; [constructor|].
  rewrite filter_cons. destruct (decide (typeof_string v)) as [Hv|Hv]; [|done].
  constructor; [|done]. destruct v; try done. by eexists.
Qed.

Lemma filter_strings_id (ls : list JSValue) :
  Forall is_string ls → filter typeof_string ls = ls.
Proof.
  induction 1 as [|v ls [s ->] _ IH]; [done|].
  rewrite filter_cons. simpl. by rewrite IH.
Qed.

(** Reading back the four properties of a result. *)
Lemma get_as_value (r : TriageResult) :
  get (as_value r) (js "priority") = priority r ∧
  get (as_value r) (js "labels") = labels r ∧
  get (as_value r) (js "flag") = flag r ∧
  get (as_value r) (js "action") = action r.
Proof. by repeat split. Qed.

Lemma includes_PRIORITIES v :
  includes PRIORITIES v = true → ∃ s, v = JString s ∧ s ∈ PRIORITIES.
Proof.
  destruct v; simpl; try done.
  intros H%bool_decide_eq_true. eauto.
Qed.

Lemma empty_result_valid : valid_result empty_result.
Proof. repeat split; by left. Qed.

Lemma sanitizeTriageResult_valid raw :
  valid_result (sanitizeTriageResult raw).
Proof.
  unfold sanitizeTriageResult.
  destruct (negb (typeof_object raw) || is_null raw);
    [apply empty_result_valid|].
  repeat split; cbn [priority labels flag action].
  - destruct (includes PRIORITIES (get raw (js "priority"))) eqn:Hi;
      [right; by apply includes_PRIORITIES | by left].
  - destruct (get raw (js "labels")); try by left.
    right. eexists. split; [done|]. split.
    + unfold slice0. rewrite length_take. lia.
    + apply Forall_take, filter_strings_all.
  - destruct (get raw (js "flag")); cbn [typeof_boolean]; try by left.
    right. by eexists.
  - destruct (get raw (js "action")); try by left.
    right. eexists. split; [done|].
    unfold slice0. rewrite length_take. lia.
Qed.

(** Sanitizing a valid result changes nothing. *)
Lemma sanitizeTriageResult_fixes_valid r :
  valid_result r → sanitizeTriageResult (as_value r) = r.
Proof.
  intros (Hp & Hl & Hf & Ha).
  destruct (get_as_value r) as (Gp & Gl & Gf & Ga).
  unfold sanitizeTriageResult.
  change (negb (typeof_object (as_value r)) || is_null (as_value r))
    with false. cbv iota.
  rewrite Gp, Gl, Gf, Ga.
  destruct r as [p l f a]; cbn [priority labels flag action] in *. f_equal.
  - destruct Hp as [->|(s & -> & Hs)]; [done|].
    cbn [includes]. by rewrite bool_decide_eq_true_2.
  - destruct Hl as [->|(ls & -> & Hlen & Hall)]; [done|].
    rewrite filter_strings_id by done.
    unfold slice0. by rewrite take_ge.
  - by destruct Hf as [->|(b & ->)].
  - destruct Ha as [->|(s & -> & Hlen)]; [done|].
    unfold slice0. by rewrite take_ge.
Qed.

(** C9.  [sanitizeTriageResult] is idempotent: applied to its own
    output (passed back as the object it is) it yields that output; and
    for every raw input its output has labels, when present, a list of
    at most 5 elements that are all strings, an action, when present, of
    at most 200 code units, a priority, when present, among the four
    known levels and a flag, when present, that is a boolean. *)
Theorem sanitizeTriageResult_idempotent_bounded (raw : JSValue) :
  sanitizeTriageResult (as_value (sanitizeTriageResult raw))
    = sanitizeTriageResult raw
  ∧ (labels (sanitizeTriageResult raw) = JUndefined ∨
     ∃ ls, labels (sanitizeTriageResult raw) = JArray ls ∧
           length ls ≤ 5 ∧ Forall is_string ls)
  ∧ (action (sanitizeTriageResult raw) = JUndefined ∨
     ∃ a, action (sanitizeTriageResult raw) = JString a ∧ length a ≤ 200)
  ∧ (priority (sanitizeTriageResult raw) = JUndefined ∨
     ∃ p, priority (sanitizeTriageResult raw) = JString p ∧
          p ∈ [js "urgent"; js "high"; js "normal"; js "low"])
  ∧ (flag (sanitizeTriageResult raw) = JUndefined ∨
     ∃ b, flag (sanitizeTriageResult raw) = JBool b).
Proof.
  pose proof (sanitizeTriageResult_valid raw) as Hv.
  split; [by apply sanitizeTriageResult_fixes_valid|].
  destruct Hv as (Hp & Hl & Hf & Ha). done.
Qed.

(** ** [parseTriageResponse] *)

Lemma result_at_valid rs i :
  Forall valid_result rs → valid_result (result_at rs i).
Proof.
  intros Hrs. unfold result_at.
  destruct (rs !! i) as [r|] eqn:Hi; simpl; [|apply empty_result_valid].
  by eapply Forall_lookup_1.
Qed.

Lemma parseTriageResponse_valid text n :
  Forall valid_result (parseTriageResponse text n).
Proof.
  unfold parseTriageResponse.
  destruct (JSON_parse (cleaned text)) as [[| | | | |parsed|props]|];
    try (apply Forall_replicate, empty_result_valid).
  - apply Forall_fmap, Forall_true. intros v. apply sanitizeTriageResult_valid.
  - constructor; [apply sanitizeTriageResult_valid | constructor].
Qed.

Example parse_fenced_array :
  parseTriageResponse
    (js "```json" ++ [10%N] ++
     Sample.q "[{'priority':'urgent','flag':true,'labels':['Finance',3]}, 7]"
     ++ [10%N] ++ js "```") 2
  = [ mkTriageResult (JString (js "urgent"))
        (JArray [JString (js "Finance")]) (JBool true) JUndefined;
      empty_result ].
Proof. vm_compute. reflexivity. Qed.

Example parse_garbage :
  parseTriageResponse (js "Sorry, I cannot do that.") 3
  = [empty_result; empty_result; empty_result].
Proof. vm_compute. reflexivity. Qed.

Example parse_empty_text :
  parseTriageResponse [] 2 = [empty_result; empty_result].
Proof. vm_compute. reflexivity. Qed.

Example parse_long_array_cut :
  length (parseTriageResponse (js "[{},{},{}]") 2) = 2.
Proof. vm_compute. reflexivity. Qed.

Example parse_single_object :
  parseTriageResponse (Sample.q "{'flag':true}") 3
  = [mkTriageResult JUndefined JUndefined (JBool true) JUndefined].
Proof. vm_compute. reflexivity. Qed.

(** C1, as stated, fails: a JSON array shorter than the batch comes
    back as it is, one result for a batch of two. *)
Lemma parseTriageResponse_short_list_not_padded :
  parseTriageResponse (js "[{}]") 2 = [empty_result] ∧
  length (parseTriageResponse (js "[{}]") 2) ≠ 2.
Proof. split; [by vm_compute | vm_compute; lia]. Qed.

(** C1, amended.  [parseTriageResponse] returns for every text and
    every expected count, and every result is a valid (possibly empty)
    TriageResult.  The number of results is the expected count when the
    text is not JSON or is JSON that is neither an array nor an object
    (all results empty then); for a JSON array it is the smaller of the
    array's length and the expected count; for a JSON object it is one.
    A list shorter than the batch is not padded by
    [parseTriageResponse]; [applyTriageResults] reads [results[i] ?? {}]
    and so works with a valid result at every position all the same. *)
Theorem parseTriageResponse_total (text : jsstring) (expectedCount : nat) :
  Forall valid_result (parseTriageResponse text expectedCount)
  ∧ match JSON_parse (cleaned text) with
    | Some (JArray parsed) =>
        length (parseTriageResponse text expectedCount)
          = min (length parsed) expectedCount
    | Some (JObject _) =>
        length (parseTriageResponse text expectedCount) = 1
    | _ =>
        parseTriageResponse text expectedCount
          = replicate expectedCount empty_result
    end
  ∧ length (parseTriageResponse text expectedCount) ≤ max expectedCount 1
  ∧ (∀ i, valid_result
            (result_at (parseTriageResponse text expectedCount) i)).
Proof.
  split; [apply parseTriageResponse_valid|]. split; [|split].
  - unfold parseTriageResponse.
    destruct (JSON_parse (cleaned text)) as [[| | | | |parsed|props]|];
      try done.
    rewrite length_fmap. unfold slice0. rewrite length_take. lia.
  - unfold parseTriageResponse.
    destruct (JSON_parse (cleaned text)) as [[| | | | |parsed|props]|];
      rewrite ?length_replicate, ?length_fmap; unfold slice0;
      rewrite ?length_take; simpl; lia.
  - intros i. apply result_at_valid, parseTriageResponse_valid.
Qed.

End TriageFacts.

(* ===================================================================== *)
(** * The event bus: delivery *)
(* ===================================================================== *)

Section EventBusFacts.
Import EventBus.
Context {L P W E : Type}.
Variable call : L → P → W → completion W E.

(** When no listener throws, all of them are called, in order. *)
Lemma deliver_all (ls : list L) (payload : P) (w : W) :
  (∀ l w0, l ∈ ls → ∃ w1, call l payload w0 = Normal w1) →
  ∃ w', deliver call ls payload w = (ls, Normal w').
Proof.
  revert w. induction ls as [|l ls IH]; intros w Hok; simpl; [by eexists|].
  destruct (Hok l w) as [w1 ->]; [by left|].
  destruct (IH w1) as [w' ->]; [|by eexists].
  intros l' w0 Hin. apply Hok. by right.
Qed.


(** Registration appends, so the order of delivery is the order of the
    calls of [on]. *)
Lemma on_appends (bus : EventEmitter L) (name : EventName) (l : L) :
  listeners (on name l bus) name = listeners bus name ++ [l].
Proof. by destruct name. Qed.

Lemma on_other (bus : EventEmitter L) (name name' : EventName) (l : L) :
  name ≠ name' → listeners (on name l bus) name' = listeners bus name'.
Proof. by destruct name, name'. Qed.

Lemma removeAllListeners_spec (bus : EventEmitter L) (name name' : EventName) :
  listeners (removeAllListeners name bus) name' =
    if decide (name = name') then [] else listeners bus name'.
Proof. by destruct name, name'. Qed.

End EventBusFacts.


(* ===================================================================== *)
(** * The hooks service and the bus *)
(* ===================================================================== *)

Section HooksBusFacts.
Context {L : Type}.

(** C10.  [stop] leaves no listener for ['email:new'] on the bus,
    whoever registered it: the listeners of other components go with
    the service's own.  The listeners for ['email:expunge'] stay. *)
Theorem stop_removes_every_email_new_listener
    (s : Hooks.HooksService) (bus : EventBus.EventEmitter L) :
  EventBus.listeners (Hooks.stop s bus).2 EventBus.email_new = []
  ∧ EventBus.listeners (Hooks.stop s bus).2 EventBus.email_expunge
      = EventBus.listeners bus EventBus.email_expunge
  ∧ (∀ (other own : L) (server : nat) (sampling : bool),
       let '(s', bus', _) :=
         Hooks.start own server sampling s
           (EventBus.on EventBus.email_new other bus) in
       other ∈ EventBus.listeners bus' EventBus.email_new ∧
       EventBus.listeners (Hooks.stop s' bus').2 EventBus.email_new = []).
Proof.
  repeat split.
  intros other own server sampling. unfold Hooks.start.
  case_bool_decide; (split; [|done]).
  - rewrite on_appends. set_solver.
  - rewrite !on_appends. set_solver.
Qed.

End HooksBusFacts.

(** A listener registered by another component is gone after [stop]. *)
Example stop_drops_foreign_listener :
  let bus := EventBus.on EventBus.email_new 7%nat (EventBus.mkEmitter [] []) in
  let '(s, bus', _) :=
    Hooks.start 1%nat 0%nat true
      (Hooks.new (Hooks.mkHooksConfig Hooks.mode_triage 5 true true)) bus in
  EventBus.listeners bus' EventBus.email_new = [7; 1]%nat ∧
  EventBus.listeners (Hooks.stop s bus').2 EventBus.email_new = [].
Proof. by split. Qed.

(* ===================================================================== *)
(** * The watcher: last-seen UID *)
(* ===================================================================== *)

Section WatcherUidFacts.
Import Watcher.
Local Open Scope Z_scope.

Lemma lookup_updateState (key : jsstring) (f : IdleState → IdleState)
    (m : IdleStates) :
  updateState key f m !! key = f <$> m !! key.
Proof. apply lookup_alter_eq. Qed.

Lemma lookup_updateState_ne (key key' : jsstring)
    (f : IdleState → IdleState) (m : IdleStates) :
  key ≠ key' → updateState key f m !! key' = m !! key'.
Proof. apply lookup_alter_ne. Qed.

Lemma scan_thrown (now : jsstring) (state : IdleState) (message : jsstring)
    (msgs : list FetchedMessage) :
  foldl (scan now state) (Thrown message) msgs = Thrown message.
Proof. by induction msgs. Qed.

(** The loop in closed form: it ends with the first exception of
    [buildEmailMeta] on a message above the last UID seen; when there is
    none it holds the largest UID and the summaries of those messages. *)
Lemma scan_spec (now : jsstring) (state : IdleState)
    (msgs : list FetchedMessage) :
  ∀ (maxUid : Z) (emails : list Types.EmailMeta),
  foldl (scan now state) (Scanning maxUid emails) msgs
  = match first_throw now (above state msgs) with
    | Some message => Thrown message
    | None =>
        Scanning (max_uid maxUid (above state msgs))
          (emails ++ summaries now (above state msgs))
    end.
Proof.
  induction msgs as [|msg msgs IH]; intros maxUid emails.
  { simpl. by rewrite app_nil_r. }
  cbn [foldl]. unfold above, scan at 2. rewrite filter_cons.
  case_bool_decide as Hnew.
  - rewrite decide_True by done. cbn [first_throw].
    unfold summaries, max_uid. cbn [omap list_omap foldl].
    destruct (buildEmailMeta now msg) as [meta|message].
    + rewrite IH. fold (above state msgs).
      destruct (first_throw now (above state msgs)); [done|].
      unfold summaries, max_uid. by rewrite <- app_assoc.
    + apply scan_thrown.
  - rewrite decide_False by done. apply IH.
Qed.



(** Without an exception there is a summary for every message. *)
Lemma summaries_length (now : jsstring) (msgs : list FetchedMessage) :
  first_throw now msgs = None → length (summaries now msgs) = length msgs.
Proof.
  unfold summaries.
  induction msgs as [|msg msgs IH]; intros Hnone; [done|].
  cbn [first_throw] in Hnone. cbn [omap list_omap].
  destruct (buildEmailMeta now msg); [|done]. simpl. by rewrite IH.
Qed.


Context {W E : Type}.
Variable emit : EventBus.NewEmailEvent → W → EventBus.completion W E.
Variable errMsg : E → jsstring.





End WatcherUidFacts.



Example handleNewEmails_three_fetched :
  Watcher.lastSeen Sample.work_key
    (Watcher.handleNewEmails Sample.recording_emit id Sample.work_key
       Sample.now Sample.three_fetched Sample.watching []).1.1 = Some 45%Z.
Proof. reflexivity. Qed.

(** A failing fetch leaves the last-seen UID where it was. *)
Example handleNewEmails_failed_fetch :
  Watcher.lastSeen Sample.work_key
    (Watcher.handleNewEmails Sample.recording_emit id Sample.work_key
       Sample.now
       (Watcher.mkFetch [Sample.message 42] (Some (js "Connection lost")))
       Sample.watching []).1.1 = Some 41%Z.
Proof. reflexivity. Qed.

(** A listener that throws: the exception ends in the [catch] of
    [handleNewEmails], which logs it as a fetch failure; the last-seen
    UID has advanced and the second listener was not called. *)
Example handleNewEmails_listener_throws :
  let '(m, w, logs) :=
    Watcher.handleNewEmails Sample.faulty_emit id Sample.work_key
      Sample.now Sample.three_fetched Sample.watching [] in
  Watcher.lastSeen Sample.work_key m = Some 45%Z ∧ w = [0%nat] ∧
  logs = Log.mcpLog Log.Warning (js "watcher")
           (js "Failed to fetch new emails: boom").
Proof. by vm_compute. Qed.

(* ===================================================================== *)
(** * The watcher: connecting and reconnecting *)
(* ===================================================================== *)

Section WatcherConnectFacts.
Import Watcher.
Local Open Scope Z_scope.

Lemma connectIdle_connected (key : jsstring) (m : IdleStates)
    (state : IdleState) (client lock : nat) (mailbox : Mailbox) :
  m !! key = Some state → stopped state = false →
  states (connectIdle key (Connected client lock mailbox) m) !! key
    = Some (set_connected (Some client) (Some lock)
              (resolve_uidNext mailbox - 1) INITIAL_BACKOFF_MS state)
  ∧ armed (connectIdle key (Connected client lock mailbox) m) = None.
Proof.
  intros Hm Hs. unfold connectIdle. rewrite Hm, Hs. simpl.
  by rewrite lookup_updateState, Hm.
Qed.

Lemma scheduleReconnect_armed (key : jsstring) (m : IdleStates)
    (state : IdleState) :
  m !! key = Some state → stopped state = false →
  armed (scheduleReconnect key m)
    = Some (mkTimer (backoffMs state) (backoffMs state))
  ∧ states (scheduleReconnect key m) !! key
    = Some (set_reconnectTimer
              (Some (mkTimer (backoffMs state) (backoffMs state))) state).
Proof.
  intros Hm Hs. unfold scheduleReconnect. rewrite Hm, Hs. simpl.
  by rewrite lookup_updateState, Hm.
Qed.

Lemma connectIdle_failed (key : jsstring) (m : IdleStates)
    (state : IdleState) (errMsg : jsstring) :
  m !! key = Some state → stopped state = false →
  armed (connectIdle key (ConnectFailed errMsg) m)
    = Some (mkTimer (backoffMs state) (backoffMs state))
  ∧ states (connectIdle key (ConnectFailed errMsg) m) !! key
    = Some (set_reconnectTimer
              (Some (mkTimer (backoffMs state) (backoffMs state))) state).
Proof.
  intros Hm Hs. unfold connectIdle. rewrite Hm, Hs. simpl.
  by apply scheduleReconnect_armed.
Qed.


(** ** Backoff *)

Lemma backoff_sequence_length n d : length (backoff_sequence n d) = S n.
Proof. revert d. induction n as [|n IH]; intros d; simpl; [done|]. by rewrite IH. Qed.

Lemma backoff_sequence_head n d : backoff_sequence n d !! 0%nat = Some d.
Proof. by destruct n. Qed.

Lemma backoff_sequence_step n : ∀ d i x y,
  backoff_sequence n d !! i = Some x →
  backoff_sequence n d !! S i = Some y →
  y = Z.min (x * 2) MAX_BACKOFF_MS.
Proof.
  induction n as [|n IH]; intros d i x y Hx Hy; [by destruct i|].
  destruct i as [|i]; simpl in *.
  - rewrite backoff_sequence_head in Hy. by simplify_eq.
  - by eapply IH.
Qed.

Lemma backoff_sequence_bounded n : ∀ d i x,
  0 ≤ d ≤ MAX_BACKOFF_MS →
  backoff_sequence n d !! i = Some x → 0 ≤ x ≤ MAX_BACKOFF_MS.
Proof.
  unfold MAX_BACKOFF_MS.
  induction n as [|n IH]; intros d i x Hd Hx.
  - destruct i; simpl in Hx; by simplify_eq.
  - destruct i as [|i]; simpl in Hx; [by simplify_eq|].
    refine (IH _ i x _ Hx). unfold MAX_BACKOFF_MS. lia.
Qed.

(** A run of failed attempts arms timers with the delays of
    [backoff_sequence], and leaves the target in the map, not stopped,
    its last-seen UID untouched. *)
Lemma reconnect_run_failures (key : jsstring) (errs : list jsstring) :
  ∀ (m : IdleStates) (timer : ReconnectTimer) (state : IdleState),
    m !! key = Some state → stopped state = false →
    captured_backoffMs timer = delay timer →
    (reconnect_run key timer (ConnectFailed <$> errs) m).1
      = backoff_sequence (length errs) (delay timer).
Proof.
  induction errs as [|e errs IH]; intros m timer state Hm Hs Hcap; [done|].
  cbn [fmap list_fmap reconnect_run length backoff_sequence].
  unfold reconnect_timer_fires.
  set (b := Z.min (captured_backoffMs timer * 2) MAX_BACKOFF_MS).
  set (m1 := updateState key (set_backoffMs b) m).
  assert (m1 !! key = Some (set_backoffMs b state)) as Hm1
    by (unfold m1; by rewrite lookup_updateState, Hm).
  destruct (connectIdle_failed key m1 _ e Hm1 Hs) as [Harmed Hstate].
  rewrite Harmed.
  change (backoffMs (set_backoffMs b state)) with b in *.
  specialize (IH _ (mkTimer b b) _ Hstate Hs eq_refl).
  destruct (reconnect_run key (mkTimer b b) (ConnectFailed <$> errs) _)
    as [delays m'].
  simpl in *. rewrite IH. unfold b. by rewrite Hcap.
Qed.

(** The same run ended by a success: no further timer, and the backoff
    is back at its initial value. *)
Lemma reconnect_run_success (key : jsstring) (errs : list jsstring)
    (client lock : nat) (mailbox : Mailbox) :
  ∀ (m : IdleStates) (timer : ReconnectTimer) (state : IdleState),
    m !! key = Some state → stopped state = false →
    captured_backoffMs timer = delay timer →
    let run :=
      reconnect_run key timer
        ((ConnectFailed <$> errs) ++ [Connected client lock mailbox]) m in
    run.1 = backoff_sequence (length errs) (delay timer)
    ∧ backoffMs <$> run.2 !! key = Some INITIAL_BACKOFF_MS.
Proof.
  induction errs as [|e errs IH]; intros m timer state Hm Hs Hcap.
  - cbn [fmap list_fmap app reconnect_run length backoff_sequence].
    unfold reconnect_timer_fires.
    set (m1 := updateState key _ m).
    assert (m1 !! key = Some (set_backoffMs
              (Z.min (captured_backoffMs timer * 2) MAX_BACKOFF_MS) state))
      as Hm1 by (unfold m1; by rewrite lookup_updateState, Hm).
    destruct (connectIdle_connected key m1 _ client lock mailbox Hm1 Hs)
      as [Hstate Harmed].
    rewrite Harmed. simpl. by rewrite Hstate.
  - cbn [fmap list_fmap app reconnect_run length backoff_sequence].
    unfold reconnect_timer_fires.
    set (b := Z.min (captured_backoffMs timer * 2) MAX_BACKOFF_MS).
    set (m1 := updateState key (set_backoffMs b) m).
    assert (m1 !! key = Some (set_backoffMs b state)) as Hm1
      by (unfold m1; by rewrite lookup_updateState, Hm).
    destruct (connectIdle_failed key m1 _ e Hm1 Hs) as [Harmed Hstate].
    rewrite Harmed.
    change (backoffMs (set_backoffMs b state)) with b in *.
    specialize (IH _ (mkTimer b b) _ Hstate Hs eq_refl).
    destruct (reconnect_run key (mkTimer b b) _ _) as [delays m'].
    simpl in *. destruct IH as [-> ->]. unfold b. by rewrite Hcap.
Qed.

(** The bounds on the backoff hold from the start and are kept by every
    routine that writes it, so they hold whenever a reconnect starts. *)
Lemma updateState_bounded (key : jsstring) (f : IdleState → IdleState)
    (m : IdleStates) :
  (∀ state, INITIAL_BACKOFF_MS ≤ backoffMs state ≤ MAX_BACKOFF_MS →
            INITIAL_BACKOFF_MS ≤ backoffMs (f state) ≤ MAX_BACKOFF_MS) →
  backoff_bounded m → backoff_bounded (updateState key f m).
Proof.
  intros Hf Hm k state Hlook. unfold updateState in Hlook.
  apply lookup_alter_Some in Hlook as [(-> & st & Hst & ->)|[_ Hst]].
  - apply Hf. by apply (Hm k).
  - by apply (Hm k).
Qed.

Lemma scheduleReconnect_bounded (key : jsstring) (m : IdleStates) :
  backoff_bounded m →
  backoff_bounded (states (scheduleReconnect key m))
  ∧ timer_bounded (armed (scheduleReconnect key m)).
Proof.
  intros Hm. unfold scheduleReconnect.
  destruct (m !! key) as [state|] eqn:Hk; [|done].
  destruct (stopped state); [done|]. simpl. split.
  - by apply updateState_bounded.
  - split; [|done]. by apply (Hm key).
Qed.

Lemma connectIdle_bounded (key : jsstring) (outcome : ConnectOutcome)
    (m : IdleStates) :
  backoff_bounded m →
  backoff_bounded (states (connectIdle key outcome m))
  ∧ timer_bounded (armed (connectIdle key outcome m)).
Proof.
  intros Hm. unfold connectIdle.
  destruct (m !! key) as [state|] eqn:Hk; [|done].
  destruct (stopped state); [done|].
  destruct outcome as [client lock mailbox|errMsg]; simpl.
  - split; [|done]. apply updateState_bounded; [|done].
    intros st _. simpl. unfold INITIAL_BACKOFF_MS, MAX_BACKOFF_MS. lia.
  - by apply scheduleReconnect_bounded.
Qed.

Lemma startIdle_bounded (account : AccountConfig) (folder : jsstring)
    (outcome : ConnectOutcome) (m : IdleStates) :
  backoff_bounded m →
  backoff_bounded (states (startIdle account folder outcome m))
  ∧ timer_bounded (armed (startIdle account folder outcome m)).
Proof.
  intros Hm. apply connectIdle_bounded. apply map_Forall_insert_2; [|done].
  simpl. unfold INITIAL_BACKOFF_MS, MAX_BACKOFF_MS. lia.
Qed.

Lemma reconnect_timer_fires_bounded (key : jsstring) (timer : ReconnectTimer)
    (outcome : ConnectOutcome) (m : IdleStates) :
  backoff_bounded m → timer_bounded (Some timer) →
  backoff_bounded (states (reconnect_timer_fires key timer outcome m))
  ∧ timer_bounded (armed (reconnect_timer_fires key timer outcome m)).
Proof.
  intros Hm [Ht _]. apply connectIdle_bounded.
  apply updateState_bounded; [|done].
  intros st _. simpl. unfold INITIAL_BACKOFF_MS, MAX_BACKOFF_MS in *. lia.
Qed.

Lemma on_close_bounded (key : jsstring) (m : IdleStates) :
  backoff_bounded m →
  backoff_bounded (states (on_close key m))
  ∧ timer_bounded (armed (on_close key m)).
Proof.
  intros Hm. unfold on_close.
  assert (backoff_bounded (updateState key set_disconnected m)) as Hm'
    by by apply updateState_bounded.
  destruct (updateState key set_disconnected m !! key) as [current|]; [|done].
  destruct (stopped current); [done|]. by apply scheduleReconnect_bounded.
Qed.

(** C4.  A target whose backoff is within the maximum starts to
    reconnect ([scheduleReconnect], after a close or a failed connect)
    and every attempt fails: the delays of the timers armed start at
    the target's backoff, each next one is twice the one before capped
    at 60000 ms, so the sequence never decreases and never exceeds
    60000 ms; and when an attempt succeeds, the backoff is 1000 ms
    again.  A new target starts at 1000 ms. *)
Theorem reconnect_backoff (key : jsstring) (m : IdleStates)
    (state : IdleState) (errs : list jsstring) :
  m !! key = Some state → stopped state = false →
  0 ≤ backoffMs state ≤ MAX_BACKOFF_MS →
  ∃ timer,
    armed (scheduleReconnect key m) = Some timer ∧
    let delays :=
      (reconnect_run key timer (ConnectFailed <$> errs)
         (states (scheduleReconnect key m))).1 in
    length delays = S (length errs)
    ∧ delays !! 0%nat = Some (backoffMs state)
    ∧ (∀ i d, delays !! i = Some d → d ≤ 60000)
    ∧ (∀ i d d', delays !! i = Some d → delays !! S i = Some d' →
                 d' = Z.min (d * 2) 60000 ∧ d ≤ d')
    ∧ (∀ client lock mailbox,
         let run :=
           reconnect_run key timer
             ((ConnectFailed <$> errs) ++ [Connected client lock mailbox])
             (states (scheduleReconnect key m)) in
         run.1 = delays ∧ backoffMs <$> run.2 !! key = Some 1000)
    ∧ (∀ account folder outcome (m0 : IdleStates) state0,
         states (startIdle account folder outcome m0)
           !! key_of (name account) folder = Some state0 →
         backoffMs state0 = 1000).
Proof.
  intros Hm Hs Hb.
  destruct (scheduleReconnect_armed key m state Hm Hs) as [Harmed Hstate].
  eexists. split; [exact Harmed|]. cbv zeta.
  rewrite (reconnect_run_failures key errs _
             (mkTimer (backoffMs state) (backoffMs state)) _
             Hstate Hs eq_refl).
  cbn [delay].
  split; [apply backoff_sequence_length|].
  split; [apply backoff_sequence_head|].
  split; [|split; [|split]].
  - intros i d Hd.
    by destruct (backoff_sequence_bounded _ _ _ _ Hb Hd).
  - intros i d d' Hd Hd'.
    pose proof (backoff_sequence_step _ _ _ _ _ Hd Hd') as Hstep.
    pose proof (backoff_sequence_bounded _ _ _ _ Hb Hd) as Hbd.
    unfold MAX_BACKOFF_MS in *. split; [done | lia].
  - intros client lock mailbox.
    apply (reconnect_run_success key errs client lock mailbox _
             (mkTimer (backoffMs state) (backoffMs state)) _
             Hstate Hs eq_refl).
  - intros account folder outcome m0 state0. unfold startIdle.
    set (k := key_of (name account) folder).
    set (fresh := mkIdleState None account folder 0 None None
                    INITIAL_BACKOFF_MS false).
    assert (<[k := fresh]> m0 !! k = Some fresh) as Hfresh
      by apply lookup_insert_eq.
    destruct outcome as [client lock mailbox|errMsg].
    + rewrite (proj1 (connectIdle_connected k _ _ client lock mailbox
                        Hfresh eq_refl)).
      by intros [= <-].
    + rewrite (proj2 (connectIdle_failed k _ _ errMsg Hfresh eq_refl)).
      by intros [= <-].
Qed.

End WatcherConnectFacts.



(** A mailbox that reports no next UID: the code takes 1 for it. *)
Example connect_without_uidNext :
  Watcher.lastSeen Sample.work_key
    (Watcher.states
       (Watcher.connectIdle Sample.work_key
          (Watcher.Connected 2 2 (Watcher.MailboxObject None))
          Sample.watching))
  = Some 0%Z.
Proof. reflexivity. Qed.

(** C4 at work: eight failed attempts in a row. *)
Lemma reconnect_backoff_witness :
  Sample.watching !! Sample.work_key = Some Sample.work_inbox ∧
  Watcher.stopped Sample.work_inbox = false ∧
  (0 ≤ Watcher.backoffMs Sample.work_inbox ≤ Watcher.MAX_BACKOFF_MS)%Z ∧
  ∃ timer,
    Watcher.armed (Watcher.scheduleReconnect Sample.work_key Sample.watching)
      = Some timer ∧
    length (Watcher.reconnect_run Sample.work_key timer
              (Watcher.ConnectFailed <$> replicate 8 (js "ECONNREFUSED"))
              (Watcher.states
                 (Watcher.scheduleReconnect Sample.work_key Sample.watching))).1
      = 9%nat.
Proof.
  split; [reflexivity|]. split; [reflexivity|].
  split; [split; by vm_compute|].
  destruct (reconnect_backoff Sample.work_key Sample.watching
              Sample.work_inbox (replicate 8 (js "ECONNREFUSED")))
    as (timer & Harmed & Hlen & _).
  - reflexivity.
  - reflexivity.
  - split; by vm_compute.
  - exists timer. split; [exact Harmed | exact Hlen].
Defined.

Example eight_failures_delays :
  (Watcher.reconnect_run Sample.work_key (Watcher.mkTimer 1000 1000)
     (Watcher.ConnectFailed <$> replicate 8 (js "ECONNREFUSED"))
     (Watcher.states
        (Watcher.scheduleReconnect Sample.work_key Sample.watching))).1
  = [1000; 2000; 4000; 8000; 16000; 32000; 60000; 60000; 60000]%Z.
Proof. vm_compute. reflexivity. Qed.

(* ===================================================================== *)
(** * The hooks service: batches and flushes *)
(* ===================================================================== *)

Section HooksFacts.
Import Hooks.
Local Open Scope nat_scope.

Lemma filter_none (p : Effect → bool) (l : list Effect) :
  Forall (λ e, p e = false) l → filter p l = [].
Proof.
  induction 1 as [|e l He _ IH]; [done|].
  rewrite filter_cons, IH. destruct (decide (p e)) as [Hp|]; [|done].
  by rewrite He in Hp.
Qed.

Lemma filter_all (p : Effect → bool) (l : list Effect) :
  Forall (λ e, p e = true) l → filter p l = l.
Proof.
  induction 1 as [|e l He _ IH]; [done|].
  rewrite filter_cons, IH. destruct (decide (p e)) as [|Hp]; [done|].
  by rewrite He in Hp.
Qed.

(** [notifyBatch] is one Info line for every message, in order. *)
Lemma notifyBatch_lines (emails : list BatchEmail) :
  notifyBatch emails =
    (λ e, LogLine (Log.mkEntry Log.Info (js "hooks") (notification e)))
      <$> emails.
Proof.
  induction emails as [|e emails IH]; [done|].
  unfold notifyBatch in *. rewrite bind_cons, IH. done.
Qed.

Lemma notifyBatch_no (p : Effect → bool) (emails : list BatchEmail) :
  (∀ entry, p (LogLine entry) = false) → filter p (notifyBatch emails) = [].
Proof.
  intros Hp. apply filter_none. rewrite notifyBatch_lines.
  apply Forall_fmap, Forall_true. intros e. apply Hp.
Qed.

Lemma notifyBatch_info (emails : list BatchEmail) :
  filter is_info (notifyBatch emails) = notifyBatch emails.
Proof.
  apply filter_all. rewrite notifyBatch_lines.
  by apply Forall_fmap, Forall_true.
Qed.

Lemma sendResourceUpdates_no (p : Effect → bool) (emails : list BatchEmail)
    (s : HooksService) :
  (∀ uri, p (ResourceUpdated uri) = false) →
  filter p (sendResourceUpdates emails s) = [].
Proof.
  intros Hp. apply filter_none. unfold sendResourceUpdates.
  destruct (lowLevelServer s); [|constructor].
  induction (distinct [] (account <$> emails)) as [|a l IH]; [constructor|].
  rewrite bind_cons. repeat constructor; try apply Hp. exact IH.
Qed.

(** Resuming a flush touches neither the pending batch nor its timer,
    and the flush keeps the batch it took. *)
Lemma resume_frame (fails : Effect → bool) (answer : Sampling)
    (t : Suspended) (s : HooksService) :
  pendingEmails (resume fails answer t s).1.1 = pendingEmails s
  ∧ batchTimer (resume fails answer t s).1.1 = batchTimer s
  ∧ match (resume fails answer t s).2 with
    | Some t' => batch_of t' = batch_of t
    | None => True
    end.
Proof.
  destruct t as [batch|emails|emails]; simpl.
  - destruct (bool_decide (onNewEmail_mode (config s) = mode_triage)
              && samplingSupported s); [|done].
    unfold triageBatch. case_bool_decide; [done|].
    by destruct (lowLevelServer s).
  - done.
  - by destruct answer.
Qed.

(** [flushBatch] up to its first [await]. *)
Lemma flushBatch_sync (s : HooksService) :
  pendingEmails (flushBatch s).1.1.1 = []
  ∧ batchTimer (flushBatch s).1.1.1 = None
  ∧ (flushBatch s).1.1.2 = pendingEmails s
  ∧ match (flushBatch s).2 with
    | Some t => batch_of t = pendingEmails s ∧ pendingEmails s ≠ []
    | None =>
        pendingEmails s = [] ∧ (flushBatch s).1.2 = []
        ∧ (flushBatch s).1.1.1
          = mkHooks (config s) (lowLevelServer s) (samplingSupported s) []
              None (rateCounter s) (rateResetTimer s)
    end.
Proof.
  unfold flushBatch. case_bool_decide as Hlen; simpl.
  - repeat split. by destruct (pendingEmails s).
  - repeat split. intros Heq. by rewrite Heq in Hlen.
Qed.

Lemma arrivals_cons (e : Event) (events : list Event) :
  arrivals (e :: events) = arrivals [e] ++ arrivals events.
Proof. unfold arrivals. by rewrite !bind_cons, app_nil_r. Qed.

(** Every message that arrives is in the pending batch or in the batch
    of exactly one flush: flushed batches and pending batch, end to end,
    are the arrivals in order. *)
Lemma run_conserves (events : list Event) : ∀ l : Loop,
  concat (flushed (run l events)) ++ pendingEmails (service (run l events))
  = concat (flushed l) ++ pendingEmails (service l) ++ arrivals events.
Proof.
  induction events as [|e events IH]; intros l.
  { simpl. by rewrite app_nil_r. }
  change (run l (e :: events)) with (run (turn l e) events).
  rewrite IH, arrivals_cons. clear IH.
  rewrite !app_assoc. f_equal.
  destruct e as [event| |i fails answer|]; simpl.
  - unfold arrivals. simpl. by rewrite !app_nil_r, app_assoc.
  - rewrite app_nil_r. destruct (batchTimer (service l)); [|done].
    pose proof (flushBatch_sync (service l)) as (Hp & _ & Hb & _).
    destruct (flushBatch (service l)) as [[[s' batch] effects] t].
    simpl in *. subst batch. rewrite Hp.
    by rewrite concat_app, app_nil_r; simpl; rewrite app_nil_r.
  - rewrite app_nil_r. destruct (inflight l !! i) as [t|]; [|done].
    pose proof (resume_frame fails answer t (service l)) as (Hp & _).
    destruct (resume fails answer t (service l)) as [[s' effects] t'].
    simpl in *. by rewrite Hp.
  - by rewrite app_nil_r.
Qed.

(** Without a firing of the batch timer, no batch is taken. *)
Lemma run_no_flush (events : list Event) : ∀ l : Loop,
  existsb is_timer_firing events = false →
  flushed (run l events) = flushed l.
Proof.
  induction events as [|e events IH]; intros l Hno; [done|].
  simpl in Hno. apply orb_false_iff in Hno as [He Hno].
  change (run l (e :: events)) with (run (turn l e) events).
  rewrite IH by done.
  destruct e as [event| |i fails answer|]; simpl; try done.
  destruct (inflight l !! i) as [t|]; [|done].
  by destruct (resume fails answer t (service l)) as [[s' effects] t'].
Qed.

Lemma turn_wellformed (l : Loop) (e : Event) :
  wellformed l → wellformed (turn l e).
Proof.
  intros Hl. pose proof Hl as [Hin Harmed].
  destruct e as [event| |i fails answer|]; simpl.
  - split; [done|]. simpl. intros _.
    destruct (batchTimer (service l)); by eexists.
  - destruct (batchTimer (service l)) as [d|] eqn:Ht; [|done].
    pose proof (flushBatch_sync (service l)) as (Hp & _ & Hb & Hsusp).
    destruct (flushBatch (service l)) as [[[s' batch] effects] t].
    simpl in *. split; simpl.
    + assert (Forall (λ t0, batch_of t0 ∈ flushed l ++ [batch]) (inflight l))
        as Hold.
      { eapply Forall_impl; [exact Hin|]. intros t0 Ht0. set_solver. }
      destruct t as [t|]; simpl; [|done].
      apply Forall_app. split; [done|]. constructor; [|constructor].
      destruct Hsusp as [-> _]. subst batch. set_solver.
    + by rewrite Hp.
  - destruct (inflight l !! i) as [t|] eqn:Hi; [|done].
    pose proof (resume_frame fails answer t (service l)) as (Hp & Hb & Hsame).
    destruct (resume fails answer t (service l)) as [[s' effects] t'].
    simpl in *. split; simpl.
    + assert (batch_of t ∈ flushed l) as Ht.
      { rewrite Forall_lookup in Hin. by eapply Hin. }
      destruct t' as [t'|]; simpl; [|by apply Forall_delete].
      apply Forall_app. split; [by apply Forall_delete|].
      constructor; [|constructor]. by rewrite Hsame.
    + by rewrite Hp, Hb.
  - done.
Qed.

Lemma run_wellformed (events : list Event) : ∀ l : Loop,
  wellformed l → wellformed (run l events).
Proof.
  induction events as [|e events IH]; intros l Hl; [done|].
  change (run l (e :: events)) with (run (turn l e) events).
  by apply IH, turn_wellformed.
Qed.

(** C5.  A flush empties the pending batch and clears the timer in the
    part that runs before its first [await], keeping the batch in a
    local; a flush of an empty batch stops there, with no effect and
    nothing suspended.  From then on, whatever the event loop runs while
    the flush is suspended (arrivals, resumptions of this or other
    flushes, resets of the rate counter, later flushes): the batches
    taken by flushes followed by the pending batch are, end to end, the
    flushed batch followed by the arrivals in order, so no message is
    lost and none is in two flushes; until the timer fires again the
    pending batch is exactly the arrivals since the flush; every
    suspended flush works on the batch a flush took; and messages are
    never pending without an armed timer. *)
Theorem flush_clears_batch_before_async (s : HooksService)
    (events : list Event) :
  let '(s1, batch, effects, t) := flushBatch s in
  pendingEmails s1 = [] ∧ batchTimer s1 = None ∧ batch = pendingEmails s
  ∧ match t with
    | Some t => batch_of t = batch ∧ batch ≠ []
    | None =>
        batch = [] ∧ effects = []
        ∧ s1 = mkHooks (config s) (lowLevelServer s) (samplingSupported s)
                 [] None (rateCounter s) (rateResetTimer s)
    end
  ∧ let l := run (mkLoop s1 (put t []) effects [batch]) events in
    concat (flushed l) ++ pendingEmails (service l) = batch ++ arrivals events
    ∧ (existsb is_timer_firing events = false →
       flushed l = [batch] ∧ pendingEmails (service l) = arrivals events)
    ∧ Forall (λ t', batch_of t' ∈ flushed l) (inflight l)
    ∧ (pendingEmails (service l) ≠ [] → is_Some (batchTimer (service l))).
Proof.
  pose proof (flushBatch_sync s) as (Hp & Ht & Hb & Hsusp).
  destruct (flushBatch s) as [[[s1 batch] effects] t]. simpl in *.
  split; [done|]. split; [done|]. split; [done|]. split.
  { destruct t as [t|]; [by rewrite Hb|]. by rewrite Hb. }
  set (l0 := mkLoop s1 (put t []) effects [batch]).
  pose proof (run_conserves events l0) as Hcons.
  simpl in Hcons. rewrite Hp, app_nil_r in Hcons. simpl in Hcons.
  split; [done|]. split.
  - intros Hno. rewrite (run_no_flush events l0 Hno) in *. simpl in *.
    split; [done|]. rewrite app_nil_r in Hcons. by apply app_inv_head in Hcons.
  - apply (run_wellformed events l0). split; simpl.
    + destruct t as [t|]; simpl; [|constructor].
      constructor; [|constructor]. destruct Hsusp as [-> _]. set_solver.
    + by rewrite Hp.
Qed.

(** A flush always runs to its end within the three resumptions. *)
Lemma flush_to_end_total (fails : Effect → bool) (answer : Sampling)
    (s : HooksService) :
  is_Some (flush_to_end fails answer s).
Proof.
  unfold flush_to_end, flushBatch. case_bool_decide; [by eexists|].
  cbn [finish resume].
  destruct (bool_decide _ && samplingSupported _); [|by eexists].
  unfold triageBatch. case_bool_decide; [by eexists|].
  cbn [lowLevelServer]. destruct (lowLevelServer s); [|by eexists].
  cbn [finish resume]. destruct answer; by eexists.
Qed.

(** C8.  A flush in triage mode with sampling negotiated, while the
    counter of AI calls is at its maximum or above, runs to its end and:
    the only Info lines are the plain notifications, one for every
    message of the batch in order; no label is added, no flag is set, no
    sampling request is made, and the counter stays as it is; for a
    batch that is not empty the warning of the fallback is logged. *)
Theorem rate_limited_flush_falls_back (fails : Effect → bool)
    (answer : Sampling) (s : HooksService) :
  onNewEmail_mode (config s) = mode_triage →
  samplingSupported s = true →
  MAX_SAMPLING_PER_MIN ≤ rateCounter s →
  ∃ s' effects,
    flush_to_end fails answer s = Some (s', pendingEmails s, effects)
    ∧ filter is_info effects
      = (λ e, LogLine (Log.mkEntry Log.Info (js "hooks") (notification e)))
          <$> pendingEmails s
    ∧ count is_info effects = length (pendingEmails s)
    ∧ count is_label_mutation effects = 0
    ∧ count is_flag_mutation effects = 0
    ∧ count is_ai_call effects = 0
    ∧ rateCounter s' = rateCounter s
    ∧ (pendingEmails s ≠ [] →
       LogLine (Log.mkEntry Log.Warning (js "hooks")
                  (js "Sampling rate limit reached " ++ Glyph.em_dash ++
                   js " falling back to notify")) ∈ effects).
Proof.
  intros Hmode Hsampling Hrate.
  unfold flush_to_end, flushBatch.
  case_bool_decide as Hlen.
  { simpl. destruct (pendingEmails s); [|done].
    eexists _, []. repeat split; done. }
  set (s1 := mkHooks _ _ _ _ _ _ _).
  cbn [finish resume].
  replace (bool_decide (onNewEmail_mode (config s1) = mode_triage)
           && samplingSupported s1) with true
    by (symmetry; simpl; rewrite Hsampling, bool_decide_eq_true_2; done).
  unfold triageBatch.
  rewrite (bool_decide_eq_true_2 (MAX_SAMPLING_PER_MIN ≤ rateCounter s1))
    by done.
  cbn [finish resume fst snd]. rewrite !app_nil_r.
  set (warning := fallback _).
  assert (∀ p, (∀ entry, p (LogLine entry) = false) →
               (∀ uri, p (ResourceUpdated uri) = false) →
               count p (sendResourceUpdates (pendingEmails s) s1
                        ++ warning ++ notifyBatch (pendingEmails s)) = 0)
    as Hzero.
  { intros p Hlog Hres. unfold count.
    rewrite !filter_app, sendResourceUpdates_no, notifyBatch_no by done.
    unfold warning, fallback, log. simpl.
    rewrite filter_cons, Hlog. done. }
  assert (filter is_info (sendResourceUpdates (pendingEmails s) s1
                          ++ warning ++ notifyBatch (pendingEmails s))
          = notifyBatch (pendingEmails s)) as Hinfo.
  { rewrite !filter_app, sendResourceUpdates_no, notifyBatch_info by done.
    done. }
  eexists _, _. split; [done|].
  split; [by rewrite Hinfo, notifyBatch_lines|].
  split; [unfold count; by rewrite Hinfo, notifyBatch_lines, length_fmap|].
  split; [by apply Hzero|]. split; [by apply Hzero|].
  split; [by apply Hzero|]. split; [done|].
  intros _. unfold warning, fallback, log. simpl. set_solver.
Qed.

End HooksFacts.

(** C8 at work: four messages pending, the ten calls of the window
    used. *)
Lemma rate_limited_flush_falls_back_witness :
  Hooks.onNewEmail_mode (Hooks.config Sample.exhausted) = Hooks.mode_triage ∧
  Hooks.samplingSupported Sample.exhausted = true ∧
  (Hooks.MAX_SAMPLING_PER_MIN ≤ Hooks.rateCounter Sample.exhausted)%nat ∧
  ∃ s' effects,
    Hooks.flush_to_end Sample.never_fails (Hooks.Rejected []) Sample.exhausted
      = Some (s', Sample.four_pending, effects)
    ∧ Hooks.count Hooks.is_info effects = 4%nat.
Proof.
  split; [reflexivity|]. split; [reflexivity|].
  split; [by vm_compute|].
  destruct (rate_limited_flush_falls_back Sample.never_fails
              (Hooks.Rejected []) Sample.exhausted
              eq_refl eq_refl (le_n 10))
    as (s' & effects & Hflush & _ & Hcount & _).
  exists s', effects. split; [exact Hflush | exact Hcount].
Defined.

(** The scenario of the spec: four plain notifications, no mutation. *)
Example rate_limited_four_messages :
  ∃ s' batch effects,
    Hooks.flush_to_end Sample.never_fails (Hooks.Rejected []) Sample.exhausted
      = Some (s', batch, effects) ∧
    Hooks.count Hooks.is_info effects = 4%nat ∧
    Hooks.count Hooks.is_label_mutation effects = 0%nat ∧
    Hooks.count Hooks.is_flag_mutation effects = 0%nat ∧
    Hooks.count Hooks.is_ai_call effects = 0%nat.
Proof. eexists _, _, _. split; [by vm_compute|]. by vm_compute. Qed.

(** With calls left the same batch does reach the model, and an answer
    is applied: one request, the label and the flag of the first
    message. *)
Example triage_applies_answer :
  ∃ s' batch effects,
    Hooks.flush_to_end Sample.never_fails
      (Hooks.Resolved (js "fast")
         (Some (Sample.q "[{'priority':'urgent','flag':true,'labels':['Finance']}]")))
      Sample.ready
      = Some (s', batch, effects) ∧
    Hooks.rateCounter s' = 1%nat ∧
    Hooks.count Hooks.is_ai_call effects = 1%nat ∧
    Hooks.count Hooks.is_label_mutation effects = 1%nat ∧
    Hooks.count Hooks.is_flag_mutation effects = 1%nat ∧
    Hooks.count Hooks.is_info effects = 4%nat.
Proof. eexists _, _, _. split; [by vm_compute|]. by vm_compute. Qed.

(** Three arrivals before the timer fires make one flush of three. *)
Example three_arrivals_one_flush :
  let s := Hooks.mkHooks Sample.triage_config (Some 0%nat) false [] None 0 None in
  let l :=
    Hooks.run (Hooks.idle s)
      [Hooks.NewEmail Sample.one_email; Hooks.NewEmail Sample.one_email;
       Hooks.NewEmail Sample.one_email; Hooks.BatchTimerFires] in
  length <$> Hooks.flushed l = [3%nat] ∧
  Hooks.pendingEmails (Hooks.service l) = [].
Proof. by vm_compute. Qed.

(* ===================================================================== *)
(** * The notifier: the desktop channel *)
(* ===================================================================== *)

Section NotifierFacts.
Import Notifier.
Local Open Scope nat_scope.

Lemma sends_in_window_app (t1 t2 : list Mark) : ∀ k,
  sends_in_window (t1 ++ t2) k = sends_in_window t2 (sends_in_window t1 k).
Proof.
  induction t1 as [|mark t1 IH]; intros k; [done|].
  destruct mark as [[]|]; simpl; apply IH.
Qed.

Lemma no_desktop_existsb (l : list Effect) :
  Forall (λ e, is_desktop e = false) l → existsb is_desktop l = false.
Proof. induction 1 as [|e l He _ IH]; [done|]. simpl. by rewrite He, IH. Qed.

Lemma no_desktop_window (l : list Effect) (k : nat) :
  Forall (λ e, is_desktop e = false) l → sends_in_window (Did <$> l) k = k.
Proof.
  induction 1 as [|e l He _ IH]; [done|]. by destruct e.
Qed.

(** One call of [alert]: the configuration stays, and the desktop
    channel is invoked, once, exactly when the three conditions hold; the counter
    then goes up by one. *)
Lemma alert_desktop (platform : Platform) (payload : AlertPayload)
    (forceDesktop : bool) (s : NotifierService) :
  config (alert platform payload forceDesktop s).1 = config s
  ∧ desktop_invoked (alert platform payload forceDesktop s).2
    = desktop_allowed s payload forceDesktop
  ∧ sends_in_window (Did <$> (alert platform payload forceDesktop s).2)
      (desktopCount s)
    = desktopCount (alert platform payload forceDesktop s).1
  ∧ desktopCount (alert platform payload forceDesktop s).1
    = desktopCount s + (if desktop_allowed s payload forceDesktop then 1 else 0).
Proof.
  unfold alert, desktop_allowed, desktop_invoked.
  set (logged := LogLine <$> Log.mcpLog _ _ _).
  set (posted := if truthy _ && bool_decide _ then _ else []).
  assert (Forall (λ e, is_desktop e = false) logged) as Hlogged
    by (by repeat constructor).
  assert (Forall (λ e, is_desktop e = false) posted) as Hposted
    by (unfold posted; destruct (truthy _ && bool_decide _);
        by repeat constructor).
  assert (∀ shown : list Effect,
            existsb is_desktop (logged ++ shown ++ posted)
            = existsb is_desktop shown) as Hex.
  { intros shown. rewrite !existsb_app.
    rewrite (no_desktop_existsb logged), (no_desktop_existsb posted) by done.
    by rewrite orb_false_r. }
  assert (∀ (shown : list Effect) k,
            sends_in_window (Did <$> (logged ++ shown ++ posted)) k
            = sends_in_window (Did <$> shown) k) as Hwin.
  { intros shown k. rewrite !fmap_app, !sends_in_window_app.
    by rewrite (no_desktop_window logged), (no_desktop_window posted). }
  destruct (desktop (config s) && (meetsThreshold s payload || forceDesktop)).
  - unfold sendDesktopNotification.
    destruct (decide (MAX_DESKTOP_PER_MIN ≤ desktopCount s)) as [Hfull|Hfree].
    + rewrite (bool_decide_eq_true_2 (MAX_DESKTOP_PER_MIN ≤ desktopCount s))
        by done.
      rewrite (bool_decide_eq_false_2 (desktopCount s < MAX_DESKTOP_PER_MIN))
        by lia.
      cbn [fst snd]. rewrite Hex, Hwin. simpl. repeat split. lia.
    + rewrite (bool_decide_eq_false_2 (MAX_DESKTOP_PER_MIN ≤ desktopCount s))
        by done.
      rewrite (bool_decide_eq_true_2 (desktopCount s < MAX_DESKTOP_PER_MIN))
        by lia.
      cbn [fst snd]. rewrite Hex, Hwin. simpl. repeat split. lia.
  - cbn [fst snd]. rewrite Hex, Hwin. simpl. repeat split. lia.
Qed.

(** Over any history the configuration is the one given to the
    constructor, and the counter is the number of desktop sends since
    the interval last fired. *)
Lemma run_counts (platform : Platform) (cfg : AlertsConfig)
    (history : list Input) :
  config (run platform cfg history).1 = cfg
  ∧ desktopCount (run platform cfg history).1
    = sends_in_window (run platform cfg history).2 0.
Proof.
  unfold run.
  induction history as [|i history IH] using rev_ind; [done|].
  rewrite foldl_snoc.
  destruct (foldl (step platform) (new cfg, []) history) as [s trace].
  simpl in IH. destruct IH as [Hcfg Hcount].
  destruct i as [payload forceDesktop|]; simpl.
  - pose proof (alert_desktop platform payload forceDesktop s)
      as (Hc & _ & Hw & _).
    destruct (alert platform payload forceDesktop s) as [s' effects].
    simpl in *. split; [congruence|].
    by rewrite sends_in_window_app, <- Hcount.
  - split; [done|]. by rewrite sends_in_window_app.
Qed.

(** C6.  A call [alert(payload, forceDesktop)] invokes the desktop
    channel if and only if desktop notifications are enabled, the
    priority is at or above the configured threshold or [forceDesktop]
    is set, and the counter of desktop sends is below 5; after any
    history of alerts and firings of the 60-second reset interval that
    counter is the number of desktop sends in the current window; the
    order of the four levels is low < normal < high < urgent. *)
Theorem alert_desktop_iff (platform : Platform) (cfg : AlertsConfig)
    (history : list Input) (payload : AlertPayload) (forceDesktop : bool) :
  (desktop_invoked
     (alert platform payload forceDesktop (run platform cfg history).1).2
   = true
   ↔ desktop cfg = true
     ∧ ((URGENCY_ORDER (urgencyThreshold cfg)
         ≤ URGENCY_ORDER (priority payload))%Z
        ∨ forceDesktop = true)
     ∧ sends_in_window (run platform cfg history).2 0 < 5)
  ∧ (∀ s : NotifierService,
       desktop_invoked (alert platform payload forceDesktop s).2 = true
       ↔ desktop (config s) = true
         ∧ ((URGENCY_ORDER (urgencyThreshold (config s))
             ≤ URGENCY_ORDER (priority payload))%Z
            ∨ forceDesktop = true)
         ∧ desktopCount s < 5)
  ∧ (URGENCY_ORDER low < URGENCY_ORDER normal
     ∧ URGENCY_ORDER normal < URGENCY_ORDER high
     ∧ URGENCY_ORDER high < URGENCY_ORDER urgent)%Z.
Proof.
  assert (∀ s : NotifierService,
       desktop_invoked (alert platform payload forceDesktop s).2 = true
       ↔ desktop (config s) = true
         ∧ ((URGENCY_ORDER (urgencyThreshold (config s))
             ≤ URGENCY_ORDER (priority payload))%Z
            ∨ forceDesktop = true)
         ∧ desktopCount s < 5) as Hstate.
  { intros s.
    pose proof (alert_desktop platform payload forceDesktop s) as (_ & -> & _).
    unfold desktop_allowed, meetsThreshold.
    rewrite !andb_true_iff, orb_true_iff, bool_decide_eq_true, Z.geb_le.
    unfold MAX_DESKTOP_PER_MIN. tauto. }
  split; [|by split].
  pose proof (run_counts platform cfg history) as [Hcfg Hcount].
  rewrite Hstate, Hcfg, Hcount. done.
Qed.

(** On the three platforms the service knows, an invocation runs a
    command; elsewhere it counts but runs nothing. *)
Lemma desktop_command (platform : Platform) (payload : AlertPayload)
    (s : NotifierService) (command : option jsstring) :
  Desktop command ∈ (sendDesktopNotification platform payload s).2 →
  is_Some command ↔ platform ≠ other_platform.
Proof.
  unfold sendDesktopNotification. case_bool_decide; simpl; [set_solver|].
  intros [= ->]%list_elem_of_singleton.
  destruct platform; split; try done; intros; by eexists.
Qed.

End NotifierFacts.

(** The scenarios of the spec: with threshold high, a high alert is
    shown on the desktop and a normal one is not, unless forced; the
    sixth send of a window is dropped and the first one after the reset
    goes through. *)
Example threshold_high :
  let s := Notifier.new Sample.alerts_high in
  Notifier.desktop_invoked
    (Notifier.alert Notifier.linux (Sample.payload_of Notifier.high) false s).2
    = true
  ∧ Notifier.desktop_invoked
      (Notifier.alert Notifier.linux (Sample.payload_of Notifier.normal) false s).2
    = false
  ∧ Notifier.desktop_invoked
      (Notifier.alert Notifier.linux (Sample.payload_of Notifier.normal) true s).2
    = true.
Proof. by vm_compute. Qed.

Example sixth_send_dropped :
  let five := replicate 5 (Notifier.Alerted (Sample.payload_of Notifier.urgent) false) in
  Notifier.desktop_invoked
    (Notifier.alert Notifier.linux (Sample.payload_of Notifier.urgent) false
       (Notifier.run Notifier.linux Sample.alerts_high five).1).2 = false
  ∧ Notifier.desktop_invoked
      (Notifier.alert Notifier.linux (Sample.payload_of Notifier.urgent) false
         (Notifier.run Notifier.linux Sample.alerts_high
            (five ++ [Notifier.ResetFired])).1).2 = true.
Proof. by vm_compute. Qed.

(* ===================================================================== *)
(** * The notifier: texts, commands and channels *)
(* ===================================================================== *)

Section NotifierTextFacts.
Import Notifier Observe.
Local Open Scope nat_scope.

Lemma filter_id_Forall {A} (P : A → Prop) `{∀ x, Decision (P x)}
    (l : list A) :
  Forall P l → filter P l = l.
Proof.
  induction 1 as [|x l Hx _ IH]; [done|].
  rewrite filter_cons, IH. by destruct (decide (P x)).
Qed.

Lemma Forall_filter_keeps {A} (P : A → Prop) `{∀ x, Decision (P x)}
    (l : list A) :
  Forall P (filter P l).
Proof.
  induction l as [|x l IH]; [constructor|].
  rewrite filter_cons. destruct (decide (P x)); [by constructor | done].
Qed.

Lemma sanitizeForShell_shell_safe (text : jsstring) :
  Forall shell_safe (sanitizeForShell text).
Proof.
  unfold sanitizeForShell, slice0. apply Forall_take.
  apply Forall_forall. intros c Hc.
  apply list_elem_of_filter in Hc as [Hprint Hc].
  apply list_elem_of_fmap in Hc as (c0 & -> & Hc0).
  apply list_elem_of_filter in Hc0 as [Hspecial _].
  split; [|exact Hprint].
  case_bool_decide as Hnl; [|exact Hspecial].
  unfold shell_specials, backslash, quote. intros Hin.
  repeat (apply elem_of_cons in Hin as [Heq|Hin]; [done|]).
  by apply elem_of_nil in Hin.
Qed.

(** X1.  [sanitizeForShell] returns at most 200 code units, none of them
    a backslash, a quote of any kind or a dollar, all of them printable
    (so no line feed, carriage return, tab or other control character);
    and it leaves its own output as it is. *)
Theorem sanitizeForShell_safe_idempotent (text : jsstring) :
  length (sanitizeForShell text) ≤ 200
  ∧ Forall shell_safe (sanitizeForShell text)
  ∧ sanitizeForShell (sanitizeForShell text) = sanitizeForShell text.
Proof.
  pose proof (sanitizeForShell_shell_safe text) as Hsafe.
  assert (length (sanitizeForShell text) ≤ 200) as Hlen.
  { unfold sanitizeForShell, slice0. rewrite length_take. lia. }
  split; [done|]. split; [done|].
  generalize dependent (sanitizeForShell text). intros out Hsafe Hlen.
  unfold sanitizeForShell, slice0.
  rewrite (filter_id_Forall (λ c, c ∉ [backslash; quote; 39; 96; 36])%N out).
  2:{ eapply Forall_impl; [exact Hsafe|]. by intros c [Hc _]. }
  assert ((λ c : N, if bool_decide (c ∈ [10; 13; 9]%N) then 32%N else c)
            <$> out = out) as ->.
  { induction Hsafe as [|c l [_ Hc] _ IH]; [done|].
    simpl in Hlen. rewrite fmap_cons, IH by lia. f_equal.
    rewrite bool_decide_eq_false_2; [done|]. intros Hin.
    repeat (apply elem_of_cons in Hin as [->|Hin]; [lia|]).
    by apply elem_of_nil in Hin. }
  rewrite filter_id_Forall.
  2:{ eapply Forall_impl; [exact Hsafe|]. by intros c [_ Hc]. }
  by apply take_ge.
Qed.

Lemma occurrences_app (c : N) (a b : jsstring) :
  occurrences c (a ++ b) = occurrences c a + occurrences c b.
Proof. unfold occurrences. by rewrite filter_app, length_app. Qed.

Lemma occurrences_cons (c x : N) (s : jsstring) :
  occurrences c (x :: s)
  = (if bool_decide (x = c) then 1 else 0) + occurrences c s.
Proof.
  unfold occurrences. rewrite filter_cons.
  destruct (decide (x = c)).
  - by rewrite bool_decide_eq_true_2.
  - by rewrite bool_decide_eq_false_2.
Qed.

Lemma occurrences_sanitized (c : N) (text : jsstring) :
  c ∈ shell_specials → occurrences c (sanitizeForShell text) = 0.
Proof.
  intros Hc. unfold occurrences.
  pose proof (sanitizeForShell_shell_safe text) as Hsafe.
  induction Hsafe as [|x l [Hx _] _ IH]; [done|].
  rewrite filter_cons. destruct (decide (x = c)) as [->|]; [done | exact IH].
Qed.

End NotifierTextFacts.

Section NotifierChannelFacts.
Import Notifier Observe.
Local Open Scope nat_scope.

(** The text parts of a desktop notification, as
    [sendDesktopNotification] cleans them. *)
Lemma specials_in_specials :
  backslash ∈ shell_specials ∧ quote ∈ shell_specials ∧
  39%N ∈ shell_specials ∧ 96%N ∈ shell_specials ∧ 36%N ∈ shell_specials.
Proof. unfold shell_specials. set_solver. Qed.

Lemma command_counts (c : N) (k_darwin k_darwin_sound k_linux k_win : nat) :
  c ∈ shell_specials →
  (∀ t b : jsstring,
     occurrences c t = 0 → occurrences c b = 0 →
     occurrences c (execDarwin t b false) = k_darwin ∧
     occurrences c (execDarwin t b true) = k_darwin_sound ∧
     occurrences c (execLinux t b false) = k_linux ∧
     occurrences c (execLinux t b true) = k_linux ∧
     occurrences c (execWindows t b) = k_win) →
  ∀ platform payload s command,
    Desktop (Some command) ∈ (sendDesktopNotification platform payload s).2 →
    occurrences c command =
      match platform with
      | darwin =>
          if sound (config s) && bool_decide (priority payload = urgent)
          then k_darwin_sound else k_darwin
      | linux => k_linux
      | win32 => k_win
      | other_platform => 0
      end.
Proof.
  intros Hc Hexec platform payload s command.
  unfold sendDesktopNotification.
  destruct (bool_decide (MAX_DESKTOP_PER_MIN ≤ desktopCount s));
    cbn [snd]; [by intros ?%elem_of_nil|].
  set (title := sanitizeForShell _).
  set (body := _ ++ sanitizeForShell _ ++ _ ++ sanitizeForShell _).
  assert (occurrences c title = 0) as Ht by by apply occurrences_sanitized.
  assert (occurrences c body = 0) as Hb.
  { unfold body. rewrite !occurrences_app, !occurrences_sanitized by done.
    unfold shell_specials, backslash, quote in Hc.
    repeat (apply elem_of_cons in Hc as [->|Hc]; [reflexivity|]).
    by apply elem_of_nil in Hc. }
  destruct (Hexec title body Ht Hb) as (Hd & Hds & Hl & Hls & Hw).
  intros Hin%list_elem_of_singleton.
  destruct platform; try done; injection Hin as ->; try done.
  - by destruct (sound (config s) && bool_decide (priority payload = urgent)).
  - by destruct (sound (config s) && bool_decide (priority payload = urgent)).
Qed.

Ltac count_command :=
  intros t b Ht Hb;
  unfold execDarwin, execLinux, execWindows, dq, join;
  cbn [app fmap list_fmap concat];
  repeat (rewrite occurrences_app || rewrite occurrences_cons);
  rewrite ?Ht, ?Hb; repeat split; reflexivity.

(** X2.  Whatever the sender and the subject, the command handed to the
    shell has a fixed number of quoting characters: the text of the
    message adds no backslash, no backquote, no dollar and no quote.  On
    Linux the command has 4 double quotes and no single quote; on macOS 2
    single quotes around the script; on Windows 2 double quotes around
    the script, 8 single quotes and the script's own 5 dollars. *)
Theorem desktop_command_quoting (platform : Platform)
    (payload : AlertPayload) (s : NotifierService) (command : jsstring) :
  Desktop (Some command) ∈ (sendDesktopNotification platform payload s).2 →
  occurrences backslash command = 0
  ∧ occurrences 96 command = 0
  ∧ match platform with
    | darwin =>
        occurrences 39 command = 2 ∧ occurrences 36 command = 0
        ∧ occurrences quote command =
            if sound (config s) && bool_decide (priority payload = urgent)
            then 6 else 4
    | linux =>
        occurrences quote command = 4 ∧ occurrences 39 command = 0
        ∧ occurrences 36 command = 0
    | win32 =>
        occurrences quote command = 2 ∧ occurrences 39 command = 8
        ∧ occurrences 36 command = 5
    | other_platform => False
    end.
Proof.
  intros Hin.
  destruct specials_in_specials as (Hbs & Hq & Hsq & Hbq & Hdollar).
  pose proof (command_counts backslash 0 0 0 0 Hbs ltac:(count_command)
                platform payload s command Hin) as H1.
  pose proof (command_counts 96 0 0 0 0 Hbq ltac:(count_command)
                platform payload s command Hin) as H2.
  pose proof (command_counts quote 4 6 4 2 Hq ltac:(count_command)
                platform payload s command Hin) as H3.
  pose proof (command_counts 39 2 2 0 8 Hsq ltac:(count_command)
                platform payload s command Hin) as H4.
  pose proof (command_counts 36 0 0 0 5 Hdollar ltac:(count_command)
                platform payload s command Hin) as H5.
  destruct platform.
  - split; [by destruct (sound _ && _)|]. split; [by destruct (sound _ && _)|].
    split; [by destruct (sound _ && _)|]. split; [by destruct (sound _ && _)|].
    done.
  - done.
  - done.
  - unfold sendDesktopNotification in Hin.
    destruct (bool_decide (MAX_DESKTOP_PER_MIN ≤ desktopCount s));
      cbn [snd] in Hin.
    + by apply elem_of_nil in Hin.
    + by apply list_elem_of_singleton in Hin.
Qed.



(** X4.  Over any history of alerts and resets, the counter of desktop
    sends never exceeds 5, and no window between two firings of the
    reset interval has more than 5 desktop notifications. *)
Theorem desktop_sends_bounded (platform : Platform) (cfg : AlertsConfig)
    (history : list Input) :
  desktopCount (run platform cfg history).1 ≤ 5
  ∧ sends_in_window (run platform cfg history).2 0 ≤ 5.
Proof.
  pose proof (run_counts platform cfg history) as [_ Hcount].
  rewrite <- Hcount.
  enough (desktopCount (run platform cfg history).1 ≤ 5) by done.
  clear Hcount. unfold run.
  induction history as [|i history IH] using rev_ind; [simpl; lia|].
  rewrite foldl_snoc.
  destruct (foldl (step platform) (new cfg, []) history) as [s trace].
  simpl in IH. destruct i as [payload forceDesktop|]; simpl; [|lia].
  pose proof (alert_desktop platform payload forceDesktop s)
    as (_ & _ & _ & Hnext).
  destruct (alert platform payload forceDesktop s) as [s' effects].
  simpl in *. rewrite Hnext. unfold desktop_allowed.
  destruct (desktop (config s) && _); simpl; [|lia].
  case_bool_decide; unfold MAX_DESKTOP_PER_MIN in *; lia.
Qed.

End NotifierChannelFacts.

(** X2 at work: a subject that tries to break out of the quotes. *)
Lemma desktop_command_quoting_witness :
  Notifier.Desktop (Some Probe.injected_command)
    ∈ (Notifier.sendDesktopNotification Notifier.linux
         Probe.injected_payload (Notifier.new Sample.alerts_high)).2
  ∧ Observe.occurrences quote Probe.injected_command = 4%nat
  ∧ Observe.occurrences 36 Probe.injected_command = 0%nat.
Proof.
  assert (Notifier.Desktop (Some Probe.injected_command)
            ∈ (Notifier.sendDesktopNotification Notifier.linux
                 Probe.injected_payload (Notifier.new Sample.alerts_high)).2)
    as Hin by (vm_compute; apply list_elem_of_here).
  split; [exact Hin|].
  destruct (desktop_command_quoting Notifier.linux _ _ _ Hin)
    as (_ & _ & Hq & _ & Hd).
  split; [exact Hq | exact Hd].
Defined.


(* ===================================================================== *)
(** * The hooks service: the other ways a flush can go *)
(* ===================================================================== *)

Section HooksFlushFacts.
Import Hooks Observe.
Local Open Scope nat_scope.

Lemma fallback_is_warning (reason : jsstring) :
  fallback reason
  = [LogLine (Log.mkEntry Log.Warning (js "hooks") reason)].
Proof. done. Qed.

(** The effects of a fallback to plain notification, counted. *)
Lemma notify_counts (before : list Effect) (emails : list BatchEmail) :
  Forall (λ e, is_info e = false) before →
  Forall (λ e, is_label_mutation e = false) before →
  Forall (λ e, is_flag_mutation e = false) before →
  filter is_info (before ++ notifyBatch emails)
  = (λ e, LogLine (Log.mkEntry Log.Info (js "hooks") (notification e)))
      <$> emails
  ∧ count is_label_mutation (before ++ notifyBatch emails) = 0
  ∧ count is_flag_mutation (before ++ notifyBatch emails) = 0.
Proof.
  intros Hi Hl Hf. unfold count.
  rewrite !filter_app.
  rewrite (notifyBatch_no is_label_mutation), (notifyBatch_no is_flag_mutation)
    by done.
  rewrite notifyBatch_info, !filter_none by done.
  by rewrite notifyBatch_lines.
Qed.

Lemma sendResourceUpdates_only (emails : list BatchEmail) (s : HooksService) :
  Forall (λ e, is_resource_update e = true) (sendResourceUpdates emails s).
Proof.
  unfold sendResourceUpdates. destruct (lowLevelServer s); [|constructor].
  induction (distinct [] (account <$> emails)) as [|a l IH]; [constructor|].
  rewrite bind_cons. by repeat constructor.
Qed.

Lemma resource_updates_are_not (p : Effect → bool) (l : list Effect) :
  (∀ uri, p (ResourceUpdated uri) = false) →
  Forall (λ e, is_resource_update e = true) l →
  Forall (λ e, p e = false) l.
Proof.
  intros Hp Hl. eapply Forall_impl; [exact Hl|].
  intros [] He; try done; apply Hp.
Qed.

(** X5.  A flush when the mode is not ['triage'] or sampling was not
    negotiated: it runs to its end with one plain notification for every
    message of the batch, in order, and nothing else but the resource
    updates: no warning, no sampling request, no label, no flag, and the
    counter of AI calls untouched. *)
Theorem plain_flush_notifies (fails : Effect → bool) (answer : Sampling)
    (s : HooksService) :
  onNewEmail_mode (config s) ≠ mode_triage ∨ samplingSupported s = false →
  ∃ s' effects,
    flush_to_end fails answer s = Some (s', pendingEmails s, effects)
    ∧ effects
      = sendResourceUpdates (pendingEmails s) s'
        ++ ((λ e, LogLine (Log.mkEntry Log.Info (js "hooks") (notification e)))
              <$> pendingEmails s)
    ∧ count is_ai_call effects = 0
    ∧ count is_label_mutation effects = 0
    ∧ count is_flag_mutation effects = 0
    ∧ count is_warning effects = 0
    ∧ rateCounter s' = rateCounter s.
Proof.
  intros Hplain.
  unfold flush_to_end, flushBatch.
  case_bool_decide as Hlen.
  { destruct (pendingEmails s) eqn:Hp; [|done]. cbn [finish].
    eexists _, _. split; [done|]. unfold sendResourceUpdates. simpl.
    by destruct (lowLevelServer s). }
  set (s1 := mkHooks _ _ _ _ _ _ _).
  cbn [finish resume].
  replace (bool_decide (onNewEmail_mode (config s1) = mode_triage)
           && samplingSupported s1) with false.
  2:{ symmetry. apply andb_false_iff. destruct Hplain as [Hm | Hs].
      - left. by apply bool_decide_eq_false_2.
      - by right. }
  cbn [finish]. rewrite app_nil_r.
  eexists _, _. split; [done|].
  rewrite <- (notifyBatch_lines (pendingEmails s)).
  pose proof (sendResourceUpdates_only (pendingEmails s) s1) as Hres.
  split; [done|]. unfold count.
  rewrite !filter_app, !notifyBatch_no by done.
  rewrite !filter_none; try done;
    first [ by apply resource_updates_are_not
          | rewrite notifyBatch_lines; by apply Forall_fmap, Forall_true ].
Qed.

(** X6.  A flush in triage mode with calls left in the window whose
    sampling request is rejected (or cannot be made because there is no
    server): the counter goes up by one, the failure is logged as a
    warning that carries the error message, and the batch falls back to
    plain notification, one line for every message, with no label and
    no flag touched. *)
Theorem rejected_sampling_falls_back (fails : Effect → bool)
    (errMsg : jsstring) (s : HooksService) :
  onNewEmail_mode (config s) = mode_triage →
  samplingSupported s = true →
  rateCounter s < MAX_SAMPLING_PER_MIN →
  pendingEmails s ≠ [] →
  ∃ s' effects,
    flush_to_end fails (Rejected errMsg) s
      = Some (s', pendingEmails s, effects)
    ∧ rateCounter s' = rateCounter s + 1
    ∧ filter is_info effects
      = (λ e, LogLine (Log.mkEntry Log.Info (js "hooks") (notification e)))
          <$> pendingEmails s
    ∧ count is_label_mutation effects = 0
    ∧ count is_flag_mutation effects = 0
    ∧ count is_ai_call effects
      = match lowLevelServer s with Some _ => 1 | None => 0 end
    ∧ LogLine (Log.mkEntry Log.Warning (js "hooks")
                 (js "Sampling failed: " ++
                  match lowLevelServer s with
                  | Some _ => errMsg
                  | None => js "Server not available"
                  end ++
                  js " " ++ Glyph.em_dash ++ js " falling back to notify"))
        ∈ effects.
Proof.
  intros Hmode Hsampling Hrate Hpending.
  unfold flush_to_end, flushBatch.
  rewrite bool_decide_eq_false_2
    by (by destruct (pendingEmails s)).
  set (s1 := mkHooks _ _ _ _ _ _ _).
  cbn [finish resume].
  replace (bool_decide (onNewEmail_mode (config s1) = mode_triage)
           && samplingSupported s1) with true
    by (symmetry; simpl; rewrite Hsampling, bool_decide_eq_true_2; done).
  unfold triageBatch.
  rewrite (bool_decide_eq_false_2 (MAX_SAMPLING_PER_MIN ≤ rateCounter s1))
    by (simpl; lia).
  pose proof (sendResourceUpdates_only (pendingEmails s) s1) as Hres.
  change (lowLevelServer s1) with (lowLevelServer s).
  destruct (lowLevelServer s) as [srv|] eqn:Hsrv.
  - cbn [finish resume]. rewrite !app_nil_r.
    set (request := [CreateMessage _]). set (warning := fallback _).
    edestruct (notify_counts
                 (sendResourceUpdates (pendingEmails s) s1 ++ request ++ warning)
                 (pendingEmails s)) as (Hinfo & Hlabel & Hflag).
    { apply Forall_app. split; [by apply resource_updates_are_not|].
      by repeat constructor. }
    { apply Forall_app. split; [by apply resource_updates_are_not|].
      by repeat constructor. }
    { apply Forall_app. split; [by apply resource_updates_are_not|].
      by repeat constructor. }
    rewrite <- !app_assoc in Hinfo, Hlabel, Hflag.
    eexists _, _. split; [done|]. split; [done|].
    split; [exact Hinfo|]. split; [exact Hlabel|]. split; [exact Hflag|].
    split.
    + unfold count. rewrite !filter_app, notifyBatch_no by done.
      rewrite (filter_none is_ai_call (sendResourceUpdates _ _))
        by by apply resource_updates_are_not.
      done.
    + unfold warning. rewrite fallback_is_warning.
      rewrite !elem_of_app. right. right. left. apply list_elem_of_here.
  - cbn [finish resume]. rewrite !app_nil_r.
    set (warning := fallback _).
    edestruct (notify_counts
                 (sendResourceUpdates (pendingEmails s) s1 ++ warning)
                 (pendingEmails s)) as (Hinfo & Hlabel & Hflag).
    { apply Forall_app. split; [by apply resource_updates_are_not|].
      by repeat constructor. }
    { apply Forall_app. split; [by apply resource_updates_are_not|].
      by repeat constructor. }
    { apply Forall_app. split; [by apply resource_updates_are_not|].
      by repeat constructor. }
    rewrite <- !app_assoc in Hinfo, Hlabel, Hflag.
    eexists _, _. split; [done|]. split; [done|].
    split; [exact Hinfo|]. split; [exact Hlabel|]. split; [exact Hflag|].
    split.
    + unfold count. rewrite !filter_app, notifyBatch_no by done.
      rewrite (filter_none is_ai_call (sendResourceUpdates _ _))
        by by apply resource_updates_are_not.
      done.
    + unfold warning. rewrite fallback_is_warning.
      rewrite !elem_of_app. right. left. apply list_elem_of_here.
Qed.

End HooksFlushFacts.

(** X5 at work: four messages pending, sampling not negotiated. *)
Lemma plain_flush_notifies_witness :
  Hooks.samplingSupported Scene.unsupported = false ∧
  ∃ s' effects,
    Hooks.flush_to_end Sample.never_fails (Hooks.Rejected [])
      Scene.unsupported
      = Some (s', Sample.four_pending, effects)
    ∧ Hooks.count Hooks.is_ai_call effects = 0%nat
    ∧ Hooks.count Observe.is_warning effects = 0%nat.
Proof.
  split; [reflexivity|].
  destruct (plain_flush_notifies Sample.never_fails (Hooks.Rejected [])
              Scene.unsupported (or_intror eq_refl))
    as (s' & effects & Hflush & _ & Hcalls & _ & _ & Hwarn & _).
  exists s', effects. split; [exact Hflush|].
  split; [exact Hcalls | exact Hwarn].
Defined.

(** X6 at work: the sampling request of a batch of four times out. *)
Lemma rejected_sampling_falls_back_witness :
  Hooks.onNewEmail_mode (Hooks.config Sample.ready) = Hooks.mode_triage ∧
  Hooks.samplingSupported Sample.ready = true ∧
  (Hooks.rateCounter Sample.ready < Hooks.MAX_SAMPLING_PER_MIN)%nat ∧
  Hooks.pendingEmails Sample.ready ≠ [] ∧
  ∃ s' effects,
    Hooks.flush_to_end Sample.never_fails (Hooks.Rejected (js "timeout"))
      Sample.ready
      = Some (s', Sample.four_pending, effects)
    ∧ Hooks.rateCounter s' = 1%nat
    ∧ Hooks.count Hooks.is_label_mutation effects = 0%nat.
Proof.
  assert (Hooks.rateCounter Sample.ready < Hooks.MAX_SAMPLING_PER_MIN)%nat
    as Hrate by (vm_compute; lia).
  assert (Hooks.pendingEmails Sample.ready ≠ []) as Hpending
    by discriminate.
  split; [reflexivity|]. split; [reflexivity|].
  split; [exact Hrate|]. split; [exact Hpending|].
  destruct (rejected_sampling_falls_back Sample.never_fails (js "timeout")
              Sample.ready eq_refl eq_refl Hrate Hpending)
    as (s' & effects & Hflush & Hcounter & _ & Hlabels & _).
  exists s', effects. split; [exact Hflush|].
  split; [exact Hcounter | exact Hlabels].
Defined.


(* ===================================================================== *)
(** * The hooks service: applying an answer *)
(* ===================================================================== *)

Section HooksApplyFacts.
Import Hooks Observe.
Local Open Scope nat_scope.

Lemma filter_concat_imap {A} (P : Effect → Prop) `{∀ e, Decision (P e)}
    (l : list A) : ∀ (f g : nat → A → list Effect),
  (∀ i x, filter P (f i x) = g i x) →
  filter P (concat (imap f l)) = concat (imap g l).
Proof.
  induction l as [|x l IH]; intros f g Hfg; [done|].
  rewrite !imap_cons. cbn [concat]. rewrite filter_app, Hfg.
  f_equal. apply IH. intros i y. apply Hfg.
Qed.

Lemma length_concat_imap_le {A} (l : list A) (k : nat) :
  ∀ (g : nat → A → list Effect),
  (∀ i x, length (g i x) ≤ k) →
  length (concat (imap g l)) ≤ k * length l.
Proof.
  induction l as [|x l IH]; intros g Hg; [simpl; lia|].
  rewrite imap_cons. cbn [concat length]. rewrite length_app.
  specialize (IH (g ∘ S) (λ i y, Hg (S i) y)). specialize (Hg 0 x). lia.
Qed.

Lemma length_concat_imap_ge {A} (l : list A) (k : nat) :
  ∀ (g : nat → A → list Effect),
  (∀ i x, k ≤ length (g i x)) →
  k * length l ≤ length (concat (imap g l)).
Proof.
  induction l as [|x l IH]; intros g Hg; [simpl; lia|].
  rewrite imap_cons. cbn [concat length]. rewrite length_app.
  specialize (IH (g ∘ S) (λ i y, Hg (S i) y)). specialize (Hg 0 x). lia.
Qed.

Lemma label_strings_bounded (r : Triage.TriageResult) :
  Triage.valid_result r → length (label_strings (Triage.labels r)) ≤ 5.
Proof.
  intros (_ & [-> | (ls & -> & Hlen & _)] & _); [simpl; lia|].
  simpl. etrans; [|exact Hlen]. clear Hlen.
  induction ls as [|v ls IH]; [done|].
  rewrite bind_cons, length_app. destruct v; simpl in *; lia.
Qed.

Lemma filter_fmap_all {A} (p : Effect → bool) (f : A → Effect) (l : list A) :
  (∀ x, p (f x) = true) → filter p (f <$> l) = f <$> l.
Proof. intros Hp. apply filter_all, Forall_fmap, Forall_true, Hp. Qed.

Lemma filter_fmap_none {A} (p : Effect → bool) (f : A → Effect) (l : list A) :
  (∀ x, p (f x) = false) → filter p (f <$> l) = [].
Proof. intros Hp. apply filter_none, Forall_fmap, Forall_true, Hp. Qed.

Lemma filter_bind_none {A} (p : Effect → bool) (g : A → list Effect)
    (l : list A) :
  (∀ x, filter p (g x) = []) → filter p (l ≫= g) = [].
Proof.
  intros Hg. induction l as [|x l IH]; [done|].
  by rewrite bind_cons, filter_app, Hg, IH.
Qed.

Lemma filter_log (p : Effect → bool) (level : Log.Level) (data : jsstring) :
  filter p (log level data)
  = if p (LogLine (Log.mkEntry level (js "hooks") data))
    then log level data else [].
Proof.
  unfold log, Log.mcpLog. simpl. rewrite filter_cons, filter_nil.
  by destruct (p _).
Qed.

Ltac triage_parts :=
  unfold applySingleTriage; cbv zeta;
  match goal with
  | |- context [filter _ (?a ++ ?b ++ ?c ++ ?d)] =>
      let labelOps := fresh "labelOps" in
      let flagOps := fresh "flagOps" in
      let summary := fresh "summary" in
      let action := fresh "action" in
      set (labelOps := a); set (flagOps := b);
      set (summary := c); set (action := d);
      rewrite !(filter_app _ labelOps), !(filter_app _ flagOps),
        !(filter_app _ summary)
  end.

(** The label calls of [applySingleTriage], the flag call, and the rest. *)
Lemma applySingleTriage_label_calls (fails : Effect → bool) (s : HooksService)
    (email : BatchEmail) (triage : Triage.TriageResult) :
  filter is_label_mutation (applySingleTriage fails s email triage)
  = if autoLabel (config s)
    then AddLabel (account email) (mailbox email) (Types.id (meta email))
           <$> label_strings (Triage.labels triage)
    else [].
Proof.
  triage_parts.
  assert (filter is_label_mutation action = []) as ->.
  { unfold action.
    by destruct (Triage.action triage) as [| | | |[|c a]| |]. }
  assert (filter is_label_mutation summary = []) as ->
    by (unfold summary; by rewrite filter_log).
  assert (filter is_label_mutation flagOps = []) as ->.
  { unfold flagOps.
    destruct (autoFlag (config s) && flag_set (Triage.flag triage)); [|done].
    rewrite filter_cons. cbn [is_label_mutation].
    destruct (decide False) as [[]|_].
    by destruct (fails (SetFlags _ _ _)). }
  rewrite !app_nil_r. unfold labelOps.
  destruct (autoLabel (config s)); [|done]. rewrite andb_true_l.
  case_bool_decide as Hls.
  - rewrite filter_app, filter_fmap_all by done.
    rewrite filter_bind_none; [by rewrite app_nil_r|].
    intros l. by destruct (fails (AddLabel _ _ _ _)).
  - by rewrite Hls.
Qed.

Lemma applySingleTriage_flag_calls (fails : Effect → bool) (s : HooksService)
    (email : BatchEmail) (triage : Triage.TriageResult) :
  filter is_flag_mutation (applySingleTriage fails s email triage)
  = if autoFlag (config s) && flag_set (Triage.flag triage)
    then [SetFlags (account email) (mailbox email) (Types.id (meta email))]
    else [].
Proof.
  triage_parts.
  assert (filter is_flag_mutation action = []) as ->.
  { unfold action.
    by destruct (Triage.action triage) as [| | | |[|c a]| |]. }
  assert (filter is_flag_mutation summary = []) as ->
    by (unfold summary; by rewrite filter_log).
  assert (filter is_flag_mutation labelOps = []) as ->.
  { unfold labelOps.
    destruct (autoLabel (config s) && bool_decide _); [|done].
    rewrite filter_app, filter_fmap_none by done.
    rewrite filter_bind_none; [done|].
    intros l. by destruct (fails (AddLabel _ _ _ _)). }
  rewrite !app_nil_r. unfold flagOps.
  destruct (autoFlag (config s) && flag_set (Triage.flag triage)); [|done].
  rewrite filter_cons. cbn [is_flag_mutation].
  destruct (decide True) as [_|[]]; [|done].
  by destruct (fails (SetFlags _ _ _)).
Qed.

Lemma applySingleTriage_no_ai_call (fails : Effect → bool) (s : HooksService)
    (email : BatchEmail) (triage : Triage.TriageResult) :
  filter is_ai_call (applySingleTriage fails s email triage) = [].
Proof.
  triage_parts.
  assert (filter is_ai_call action = []) as ->.
  { unfold action.
    by destruct (Triage.action triage) as [| | | |[|c a]| |]. }
  assert (filter is_ai_call summary = []) as ->
    by (unfold summary; by rewrite filter_log).
  assert (filter is_ai_call labelOps = []) as ->.
  { unfold labelOps.
    destruct (autoLabel (config s) && bool_decide _); [|done].
    rewrite filter_app, filter_fmap_none by done.
    rewrite filter_bind_none; [done|].
    intros l. by destruct (fails (AddLabel _ _ _ _)). }
  unfold flagOps.
  destruct (autoFlag (config s) && flag_set (Triage.flag triage)); [|done].
  rewrite filter_cons. cbn [is_ai_call].
  destruct (decide False) as [[]|_].
  by destruct (fails (SetFlags _ _ _)).
Qed.

Lemma quiet_warning (data : jsstring) :
  filter (λ e, is_warning e = false) (log Log.Warning data) = [].
Proof.
  change (log Log.Warning data)
    with [LogLine (Log.mkEntry Log.Warning (js "hooks") data)].
  by rewrite filter_cons_False.
Qed.

Lemma quiet_info (data : jsstring) :
  filter (λ e, is_warning e = false) (log Log.Info data) = log Log.Info data.
Proof.
  change (log Log.Info data)
    with [LogLine (Log.mkEntry Log.Info (js "hooks") data)].
  by rewrite filter_cons_True.
Qed.

(** A call that rejects adds a warning line and changes nothing else. *)
Lemma applySingleTriage_failures (fails : Effect → bool) (s : HooksService)
    (email : BatchEmail) (triage : Triage.TriageResult) :
  filter (λ e, is_warning e = false) (applySingleTriage fails s email triage)
  = applySingleTriage (λ _, false) s email triage.
Proof.
  unfold applySingleTriage; cbv zeta. rewrite !filter_app.
  apply (f_equal2 app); [|apply (f_equal2 app); [|apply (f_equal2 app)]].
  - destruct (autoLabel (config s) && bool_decide _); [|done].
    rewrite filter_app. apply (f_equal2 app).
    + apply filter_id_Forall, Forall_fmap, Forall_true. done.
    + induction (label_strings (Triage.labels triage)) as [|l ls IH]; [done|].
      rewrite !bind_cons, filter_app, IH.
      destruct (fails (AddLabel _ _ _ _)); [|done].
      by rewrite quiet_warning.
  - destruct (autoFlag (config s) && flag_set (Triage.flag triage)); [|done].
    rewrite filter_cons_True by done. f_equal.
    destruct (fails (SetFlags _ _ _)); [|done].
    by rewrite quiet_warning.
  - by rewrite quiet_info.
  - by destruct (Triage.action triage) as [| | | |[|c a]| |];
      rewrite ?quiet_info.
Qed.

Lemma elem_of_concat_imap {A} (e : Effect) (l : list A) :
  ∀ g : nat → A → list Effect,
  e ∈ concat (imap g l) → ∃ i x, l !! i = Some x ∧ e ∈ g i x.
Proof.
  induction l as [|x l IH]; intros g He; [by apply elem_of_nil in He|].
  rewrite imap_cons in He. cbn [concat] in He.
  apply elem_of_app in He as [He|He]; [by exists 0, x|].
  apply IH in He as (i & y & Hi & He). by exists (S i), y.
Qed.

Lemma applyTriageResults_no_ai_call (fails : Effect → bool) (s : HooksService)
    (emails : list BatchEmail) (results : list Triage.TriageResult) :
  filter is_ai_call (applyTriageResults fails s emails results) = [].
Proof.
  unfold applyTriageResults.
  erewrite filter_concat_imap
    by (intros i x; apply applySingleTriage_no_ai_call).
  induction emails as [|x l IH] using rev_ind; [done|].
  by rewrite imap_app, concat_app, IH.
Qed.

(** What [applyTriageResults] asks of the mail store. *)
Lemma applyTriageResults_mutations (fails : Effect → bool) (s : HooksService)
    (emails : list BatchEmail) (results : list Triage.TriageResult) :
  Forall Triage.valid_result results →
  (∀ e t, e ∈ applyTriageResults fails s emails results →
          Target.aimed_at e = Some t → t ∈ Target.of_email <$> emails)
  ∧ count is_label_mutation (applyTriageResults fails s emails results)
    ≤ (if autoLabel (config s) then 5 else 0) * length emails
  ∧ count is_flag_mutation (applyTriageResults fails s emails results)
    ≤ (if autoFlag (config s) then 1 else 0) * length emails
  ∧ count is_ai_call (applyTriageResults fails s emails results) = 0.
Proof.
  intros Hvalid. unfold applyTriageResults, count. repeat split.
  - intros e t (i & email & Hi & He)%elem_of_concat_imap Ht.
    apply list_elem_of_fmap. exists email.
    split; [|by eapply list_elem_of_lookup_2].
    assert (e ∈ filter is_label_mutation
                  (applySingleTriage fails s email (Triage.result_at results i))
            ∨ e ∈ filter is_flag_mutation
                    (applySingleTriage fails s email
                       (Triage.result_at results i))) as [Hin|Hin].
    { destruct e; try done.
      - left. by apply list_elem_of_filter.
      - right. by apply list_elem_of_filter. }
    + rewrite applySingleTriage_label_calls in Hin.
      destruct (autoLabel (config s)); [|by apply elem_of_nil in Hin].
      apply list_elem_of_fmap in Hin as (l & -> & _).
      simpl in Ht. by injection Ht as <-.
    + rewrite applySingleTriage_flag_calls in Hin.
      destruct (autoFlag (config s) && flag_set _);
        [|by apply elem_of_nil in Hin].
      apply list_elem_of_singleton in Hin as ->.
      simpl in Ht. by injection Ht as <-.
  - erewrite filter_concat_imap
      by (intros i x; apply applySingleTriage_label_calls).
    apply length_concat_imap_le. intros i email.
    destruct (autoLabel (config s)); [|done].
    rewrite length_fmap. apply label_strings_bounded.
    by apply result_at_valid.
  - erewrite filter_concat_imap
      by (intros i x; apply applySingleTriage_flag_calls).
    apply length_concat_imap_le. intros i email.
    destruct (autoFlag (config s)); [|done].
    simpl. destruct (flag_set _); simpl; lia.
  - exact (f_equal length
             (applyTriageResults_no_ai_call fails s emails results)).
Qed.

Lemma applyTriageResults_failures (fails : Effect → bool) (s : HooksService)
    (emails : list BatchEmail) (results : list Triage.TriageResult) :
  filter (λ e, is_warning e = false) (applyTriageResults fails s emails results)
  = applyTriageResults (λ _, false) s emails results.
Proof.
  unfold applyTriageResults. apply filter_concat_imap.
  intros i email. apply applySingleTriage_failures.
Qed.

Lemma not_aimed (l : list Effect) :
  Forall (λ e, is_log e || is_resource_update e || is_ai_call e = true) l →
  Forall (λ e, Target.aimed_at e = None) l.
Proof. intros Hl. eapply Forall_impl; [exact Hl|]. by intros []. Qed.

Lemma notifyBatch_logs (emails : list BatchEmail) :
  Forall (λ e, is_log e || is_resource_update e || is_ai_call e = true)
    (notifyBatch emails).
Proof. rewrite notifyBatch_lines. by apply Forall_fmap, Forall_true. Qed.

Lemma sendResourceUpdates_logs (emails : list BatchEmail) (s : HooksService) :
  Forall (λ e, is_log e || is_resource_update e || is_ai_call e = true)
    (sendResourceUpdates emails s).
Proof.
  eapply Forall_impl; [apply sendResourceUpdates_only|]. by intros [].
Qed.

(** A flush from end to end: what it does before an answer is applied,
    which no failing call to the mail store can change, and the
    application of the answer, if it comes to that. *)
Lemma flush_to_end_shape (answer : Sampling) (s : HooksService) :
  ∃ (s' : HooksService) (pre : list Effect)
    (post : (Effect → bool) → list Effect),
    (∀ fails, flush_to_end fails answer s
              = Some (s', pendingEmails s, pre ++ post fails))
    ∧ config s' = config s
    ∧ Forall (λ e, is_log e || is_resource_update e || is_ai_call e = true) pre
    ∧ count is_ai_call pre ≤ 1
    ∧ (((∀ fails, post fails = [])
        ∧ (Target.results_applied s answer = [] ∨ pendingEmails s = []))
       ∨ ∀ fails,
           post fails
           = applyTriageResults fails s' (pendingEmails s)
               (Target.results_applied s answer)).
Proof.
  unfold flush_to_end, flushBatch.
  case_bool_decide as Hlen.
  { eexists _, [], (λ _, []). cbn [finish].
    split; [done|]. split; [done|]. split; [constructor|].
    split; [unfold count; simpl; lia|].
    left. split; [done|]. right. by destruct (pendingEmails s). }
  set (s1 := mkHooks _ _ _ _ _ _ _).
  pose proof (sendResourceUpdates_logs (pendingEmails s) s1) as Hres.
  pose proof (notifyBatch_logs (pendingEmails s)) as Hnote.
  assert (count is_ai_call (sendResourceUpdates (pendingEmails s) s1) = 0)
    as Hres0.
  { unfold count. rewrite filter_none; [done|].
    by apply resource_updates_are_not, sendResourceUpdates_only. }
  assert (count is_ai_call (notifyBatch (pendingEmails s)) = 0) as Hnote0
    by (unfold count; by rewrite notifyBatch_no).
  cbn [finish resume]. unfold Target.results_applied.
  change (config s1) with (config s).
  change (samplingSupported s1) with (samplingSupported s).
  destruct (bool_decide (onNewEmail_mode (config s) = mode_triage)
            && samplingSupported s).
  2:{ cbn [finish]. rewrite app_nil_r.
      eexists s1, _, (λ _, []). split; [intros; by rewrite app_nil_r|].
      split; [done|]. split; [by apply Forall_app|].
      split; [|left; split; [done | by left]].
      unfold count in *. rewrite filter_app, length_app. lia. }
  unfold triageBatch.
  change (rateCounter s1) with (rateCounter s).
  destruct (bool_decide (MAX_SAMPLING_PER_MIN ≤ rateCounter s)).
  { cbn [finish resume]. rewrite !app_nil_r.
    eexists s1, _, (λ _, []). split; [intros; by rewrite app_nil_r|].
    split; [done|].
    split; [repeat (apply Forall_app; split); by repeat constructor|].
    split; [|left; split; [done | by left]]. unfold count in *.
    rewrite !filter_app, !length_app. simpl. lia. }
  change (lowLevelServer s1) with (lowLevelServer s).
  destruct (lowLevelServer s) as [srv|] eqn:Hsrv.
  2:{ cbn [finish resume]. rewrite !app_nil_r.
      eexists _, _, (λ _, []). split; [intros; by rewrite app_nil_r|].
      split; [done|].
      split; [repeat (apply Forall_app; split); by repeat constructor|].
      split; [|left; split; [done | by left]]. unfold count in *.
      rewrite !filter_app, !length_app. simpl. lia. }
  destruct answer as [errMsg|model text_content]; cbn [finish resume].
  - rewrite !app_nil_r.
    eexists _, _, (λ _, []). split; [intros; by rewrite app_nil_r|].
    split; [done|].
    split; [repeat (apply Forall_app; split); by repeat constructor|].
    split; [|left; split; [done | by left]]. unfold count in *.
    rewrite !filter_app, !length_app. simpl. lia.
  - set (s2 := mkHooks _ _ _ _ _ _ _).
    eexists s2, (sendResourceUpdates (pendingEmails s) s1 ++ [CreateMessage _]),
      (λ fails, applyTriageResults fails s2 (pendingEmails s) _).
    split; [intros; by rewrite app_nil_r, <- app_assoc|]. split; [done|].
    split; [apply Forall_app; split; by repeat constructor|].
    split; [|by right]. unfold count in *.
    rewrite !filter_app, !length_app. simpl. lia.
Qed.

Lemma no_calls_without_results (emails : list BatchEmail)
    (g : Triage.TriageResult → BatchEmail → list Effect) :
  (∀ email, g Triage.empty_result email = []) →
  concat (imap (λ i email, g (Triage.result_at [] i) email) emails) = [].
Proof.
  intros Hg. induction emails as [|email emails IH] using rev_ind; [done|].
  rewrite imap_app, concat_app, IH. simpl. by rewrite Hg.
Qed.

(** X7.  Whatever the model answers and whichever calls fail, a flush
    runs to its end and touches the mail store only as the results say,
    message by message.  The results are those [parseTriageResponse]
    reads from the model's answer when the flush gets to apply one, and
    none otherwise ([Target.results_applied]); they are valid.  The
    labels added are, for the message at each position of the batch,
    the labels of the result at that position, at most five, added to
    that message; the flags set are one for each message whose result
    asks for it; none when [autoLabel] (resp. [autoFlag]) is off.  So
    every change is to a message of the batch, there are at most five
    labels and one flag for each, and there is at most one sampling
    request.  The runs for the messages interleave: the calls are given
    up to their order. *)
Theorem flush_mutations_confined (fails : Effect → bool) (answer : Sampling)
    (s : HooksService) :
  let results := Target.results_applied s answer in
  ∃ s' effects,
    flush_to_end fails answer s = Some (s', pendingEmails s, effects)
    ∧ Forall Triage.valid_result results
    ∧ filter is_label_mutation effects
      ≡ₚ concat (imap (λ i email,
                    Target.label_calls (config s)
                      (Triage.result_at results i) email)
                 (pendingEmails s))
    ∧ filter is_flag_mutation effects
      ≡ₚ concat (imap (λ i email,
                    Target.flag_calls (config s)
                      (Triage.result_at results i) email)
                 (pendingEmails s))
    ∧ (∀ i email,
         length (Target.label_calls (config s)
                   (Triage.result_at results i) email) ≤ 5
         ∧ length (Target.flag_calls (config s)
                     (Triage.result_at results i) email) ≤ 1
         ∧ Forall (λ e, Target.aimed_at e = Some (Target.of_email email))
             (Target.label_calls (config s)
                (Triage.result_at results i) email
              ++ Target.flag_calls (config s)
                   (Triage.result_at results i) email))
    ∧ (∀ e t, e ∈ effects → Target.aimed_at e = Some t →
              t ∈ Target.of_email <$> pendingEmails s)
    ∧ count is_label_mutation effects
      ≤ (if autoLabel (config s) then 5 else 0) * length (pendingEmails s)
    ∧ count is_flag_mutation effects
      ≤ (if autoFlag (config s) then 1 else 0) * length (pendingEmails s)
    ∧ count is_ai_call effects ≤ 1.
Proof.
  intros results.
  destruct (flush_to_end_shape answer s)
    as (s' & pre & post & Hrun & Hconfig & Hpre & Hcalls & Hpost).
  pose proof (not_aimed _ Hpre) as Hquiet.
  assert (filter is_label_mutation pre = [] ∧ filter is_flag_mutation pre = [])
    as [Hl Hf].
  { split; apply filter_none; (eapply Forall_impl; [exact Hpre|]);
      by intros []. }
  assert (∀ p, count p (pre ++ post fails)
               = count p pre + count p (post fails)) as Hcount
    by (intros p; unfold count; by rewrite filter_app, length_app).
  assert (Forall Triage.valid_result results) as Hvalid.
  { unfold results, Target.results_applied.
    repeat case_match; try constructor. apply parseTriageResponse_valid. }
  assert (∀ i email,
            length (Target.label_calls (config s)
                      (Triage.result_at results i) email) ≤ 5
            ∧ length (Target.flag_calls (config s)
                        (Triage.result_at results i) email) ≤ 1
            ∧ Forall (λ e, Target.aimed_at e = Some (Target.of_email email))
                (Target.label_calls (config s)
                   (Triage.result_at results i) email
                 ++ Target.flag_calls (config s)
                      (Triage.result_at results i) email)) as Hper.
  { intros i email.
    unfold Target.label_calls, Target.flag_calls. split_and!.
    - destruct (autoLabel (config s)); [|simpl; lia].
      rewrite length_fmap. apply label_strings_bounded.
      by apply result_at_valid.
    - destruct (autoFlag (config s) && flag_set _); simpl; lia.
    - apply Forall_app. split.
      + destruct (autoLabel (config s)); [|constructor].
        by apply Forall_fmap, Forall_true.
      + destruct (autoFlag (config s) && flag_set _); by repeat constructor. }
  fold results in Hpost.
  destruct Hpost as [[Hnone Hwhy] | Happly].
  { exists s', pre. split; [by rewrite Hrun, Hnone, app_nil_r|].
    split; [done|]. unfold count in *. rewrite Hl, Hf.
    assert (concat (imap (λ i email,
                      Target.label_calls (config s)
                        (Triage.result_at results i) email)
                   (pendingEmails s)) = []
            ∧ concat (imap (λ i email,
                        Target.flag_calls (config s)
                          (Triage.result_at results i) email)
                     (pendingEmails s)) = []) as [-> ->].
    { destruct Hwhy as [-> | ->]; [|done]. split.
      - apply (no_calls_without_results _ (Target.label_calls (config s))).
        intros; unfold Target.label_calls; by destruct (autoLabel _).
      - apply (no_calls_without_results _ (Target.flag_calls (config s))).
        intros; unfold Target.flag_calls; by destruct (autoFlag _). }
    split; [done|]. split; [done|]. split; [done|].
    split; [|simpl; lia].
    intros e t He Ht. eapply Forall_forall in Hquiet; [|exact He].
    by rewrite Hquiet in Ht. }
  exists s', (pre ++ post fails). split; [apply Hrun|].
  split; [done|].
  destruct (applyTriageResults_mutations fails s' (pendingEmails s) results
              Hvalid) as (Haim & Hlabels & Hflags & Hai).
  rewrite !Hcount, !filter_app, Hl, Hf, Happly, <- Hconfig. cbn [app].
  unfold count in *. rewrite Hl, Hf.
  split_and!; try (simpl; lia).
  - unfold applyTriageResults.
    erewrite filter_concat_imap; [done|].
    intros i email. apply applySingleTriage_label_calls.
  - unfold applyTriageResults.
    erewrite filter_concat_imap; [done|].
    intros i email. apply applySingleTriage_flag_calls.
  - intros i email. rewrite Hconfig. by apply Hper.
  - intros e t [He|He]%elem_of_app Ht; [|by eapply Haim].
    eapply Forall_forall in Hquiet; [|exact He]. by rewrite Hquiet in Ht.
Qed.

(** X8.  A call to the mail store that rejects while labels and flags
    are applied costs a warning line and nothing else.  The run for one
    message does, apart from the warnings, what it does when no call
    fails, in the same order; and a flush, apart from the warnings,
    has the effects it has when no call fails, up to the order in which
    the runs for its messages interleave, and leaves the service in the
    same state. *)
Theorem mail_store_failures_only_warn (fails : Effect → bool)
    (answer : Sampling) (s : HooksService) :
  (∀ email result,
     filter (λ e, is_warning e = false) (applySingleTriage fails s email result)
     = applySingleTriage (λ _, false) s email result)
  ∧ ∃ s' effects unfailing,
      flush_to_end fails answer s = Some (s', pendingEmails s, effects)
      ∧ flush_to_end (λ _, false) answer s
        = Some (s', pendingEmails s, unfailing)
      ∧ filter (λ e, is_warning e = false) effects
        ≡ₚ filter (λ e, is_warning e = false) unfailing
      ∧ length unfailing ≤ length effects.
Proof.
  split; [intros email result; apply applySingleTriage_failures|].
  destruct (flush_to_end_shape answer s)
    as (s' & pre & post & Hrun & _ & _ & _ & Hpost).
  exists s', (pre ++ post fails), (pre ++ post (λ _, false)).
  split; [apply Hrun|]. split; [apply Hrun|].
  destruct Hpost as [[Hnone _] | Happly]; [by rewrite !Hnone|].
  rewrite !filter_app, !length_app, !Happly.
  rewrite !applyTriageResults_failures.
  split; [done|].
  rewrite <- (applyTriageResults_failures fails) at 1.
  pose proof (length_filter (λ e, is_warning e = false)
                (applyTriageResults fails s' (pendingEmails s)
                   (Target.results_applied s answer))). lia.
Qed.

End HooksApplyFacts.

(* ===================================================================== *)
(** * The hooks service: the loop over time *)
(* ===================================================================== *)

Section HooksLoopFacts.
Import Hooks Observe Wiring.
Local Open Scope nat_scope.

(** One resumption: a sampling request uses up one call of the window. *)
Lemma resume_rate (fails : Effect → bool) (answer : Sampling)
    (t : Suspended) (s : HooksService) :
  count is_ai_call (resume fails answer t s).1.2
  + Clock.calls_left (resume fails answer t s).1.1
  ≤ Clock.calls_left s.
Proof.
  assert (∀ emails, count is_ai_call (notifyBatch emails) = 0) as Hnote
    by (intros; unfold count; by rewrite notifyBatch_no).
  unfold Clock.calls_left.
  destruct t as [batch|emails|emails]; cbn [resume].
  - destruct (bool_decide (onNewEmail_mode (config s) = mode_triage)
              && samplingSupported s); [|simpl; by rewrite Hnote].
    unfold triageBatch.
    case_bool_decide as Hrate; [simpl; unfold count; simpl; lia|].
    destruct (lowLevelServer s); simpl; unfold count; simpl; lia.
  - simpl. by rewrite Hnote.
  - destruct answer as [errMsg|model text_content]; simpl.
    + unfold count. simpl. lia.
    + unfold count. by rewrite applyTriageResults_no_ai_call.
Qed.

Lemma events_of_cons (kind : Event → bool) (e : Event) (events : list Event) :
  events_of kind (e :: events)
  = (if kind e then 1 else 0) + events_of kind events.
Proof.
  unfold events_of. rewrite filter_cons.
  destruct (kind e) eqn:He.
  - by rewrite decide_True by done.
  - rewrite decide_False; [done | exact id].
Qed.

Lemma count_app (p : Effect → bool) (l k : list Effect) :
  count p (l ++ k) = count p l + count p k.
Proof. unfold count. by rewrite filter_app, length_app. Qed.

(** X9.  The sampling requests of any run of the loop: each one uses up
    one of the calls left in the window, and only the reset of the
    window gives calls back, ten at a time.  So a run makes at most the
    calls left at its start plus ten for every reset, whatever arrives
    and however the flushes interleave. *)
Theorem sampling_requests_bounded (events : list Event) : ∀ l : Loop,
  count is_ai_call (output (run l events))
  + Clock.calls_left (service (run l events))
  ≤ count is_ai_call (output l) + Clock.calls_left (service l)
    + MAX_SAMPLING_PER_MIN * events_of is_rate_reset events.
Proof.
  induction events as [|e events IH]; intros l.
  { unfold events_of. simpl. lia. }
  change (run l (e :: events)) with (run (turn l e) events).
  etrans; [apply IH|]. rewrite events_of_cons.
  enough (count is_ai_call (output (turn l e))
          + Clock.calls_left (service (turn l e))
          ≤ count is_ai_call (output l) + Clock.calls_left (service l)
            + MAX_SAMPLING_PER_MIN * (if is_rate_reset e then 1 else 0))
    by lia.
  destruct e as [event| |i fails answer|]; cbn [turn is_rate_reset].
  - unfold Clock.calls_left. simpl. lia.
  - destruct (batchTimer (service l)); [|lia].
    unfold flushBatch. case_bool_decide; cbn [output service].
    + rewrite app_nil_r. unfold Clock.calls_left. simpl. lia.
    + rewrite count_app. unfold Clock.calls_left. cbn [rateCounter].
      assert (count is_ai_call
                (sendResourceUpdates (pendingEmails (service l))
                   (mkHooks (config (service l)) (lowLevelServer (service l))
                      (samplingSupported (service l)) [] None
                      (rateCounter (service l))
                      (rateResetTimer (service l)))) = 0) as ->; [|lia].
      unfold count. by rewrite sendResourceUpdates_no.
  - destruct (inflight l !! i) as [t|]; [|lia].
    pose proof (resume_rate fails answer t (service l)) as Hrate.
    destruct (resume fails answer t (service l)) as [[s' effects] t'].
    cbn [output service]. rewrite count_app. simpl in Hrate. lia.
  - unfold Clock.calls_left, MAX_SAMPLING_PER_MIN. simpl. lia.
Qed.

(** X10.  Debouncing: a flush needs an armed timer, only an arrival
    arms one, and only while none is armed.  A run starts at most one
    flush for every arrival, plus one if a timer was armed at the start;
    any number of arrivals before the timer fires shares one flush. *)
Theorem flushes_bounded_by_arrivals (events : list Event) : ∀ l : Loop,
  length (flushed (run l events)) + Clock.armed (service (run l events))
  ≤ length (flushed l) + Clock.armed (service l)
    + events_of is_new_email events.
Proof.
  induction events as [|e events IH]; intros l.
  { unfold events_of. simpl. lia. }
  change (run l (e :: events)) with (run (turn l e) events).
  etrans; [apply IH|]. rewrite events_of_cons.
  enough (length (flushed (turn l e)) + Clock.armed (service (turn l e))
          ≤ length (flushed l) + Clock.armed (service l)
            + (if is_new_email e then 1 else 0)) by lia.
  unfold Clock.armed.
  destruct e as [event| |i fails answer|]; cbn [turn is_new_email].
  - simpl. destruct (batchTimer (service l)); lia.
  - destruct (batchTimer (service l)) eqn:Harmed; [|rewrite Harmed; lia].
    unfold flushBatch. case_bool_decide; cbn [flushed service batchTimer];
      rewrite length_app; simpl; lia.
  - destruct (inflight l !! i) as [t|]; [|lia].
    destruct (resume_frame fails answer t (service l)) as (_ & Htimer & _).
    destruct (resume fails answer t (service l)) as [[s' effects] t'].
    cbn [flushed service]. simpl in Htimer. rewrite Htimer. lia.
  - simpl. lia.
Qed.

Lemma run_snoc (l : Loop) (events : list Event) (e : Event) :
  run l (events ++ [e]) = turn (run l events) e.
Proof. unfold run. by rewrite foldl_app. Qed.

(** X11.  [stop] drops what is pending: once it has been called, and as
    long as nothing new arrives, no timer that fires and no flush that
    settles starts another flush; the messages that were waiting are in
    no batch and the batch timer stays disarmed. *)
Theorem stop_discards_pending {L : Type} (bus : EventBus.EventEmitter L)
    (l : Loop) (events : list Event) :
  existsb is_new_email events = false →
  flushed (run (Relay.stopped bus l) events) = flushed l
  ∧ pendingEmails (service (run (Relay.stopped bus l) events)) = []
  ∧ batchTimer (service (run (Relay.stopped bus l) events)) = None.
Proof.
  induction events as [|e events IH] using rev_ind; intros Hno; [done|].
  rewrite existsb_app in Hno. apply orb_false_iff in Hno as [Hno He].
  cbn [existsb] in He. rewrite orb_false_r in He.
  destruct (IH Hno) as (Hf & Hp & Ht).
  rewrite run_snoc. set (l' := run (Relay.stopped bus l) events) in *.
  split_and!;
    destruct e as [event| |i fails answer|]; try done; cbn [turn];
    rewrite ?Ht; try done;
    (destruct (inflight l' !! i) as [t|]; [|done]);
    destruct (resume_frame fails answer t (service l')) as (Hp' & Ht' & _);
    destruct (resume fails answer t (service l')) as [[s' effects] t'];
    simpl in *; congruence.
Qed.

End HooksLoopFacts.

(** X11 at work: four messages pending when [stop] is called; then the
    batch timer's moment comes and the rate window is reset. *)
Lemma stop_discards_pending_witness :
  existsb Wiring.is_new_email [Hooks.BatchTimerFires; Hooks.RateResetFires]
    = false ∧
  Hooks.flushed
    (Hooks.run (Relay.stopped Sample.two_listeners (Hooks.idle Sample.ready))
       [Hooks.BatchTimerFires; Hooks.RateResetFires]) = [].
Proof.
  split; [reflexivity|].
  apply (stop_discards_pending Sample.two_listeners (Hooks.idle Sample.ready)
           [Hooks.BatchTimerFires; Hooks.RateResetFires]).
  reflexivity.
Defined.


(* ===================================================================== *)
(** * The hooks service: resource updates *)
(* ===================================================================== *)

Section HooksResourceFacts.
Import Hooks Observe.
Local Open Scope nat_scope.

(** [[...new Set(xs)]] keeps every element once. *)
Lemma distinct_spec (xs : list jsstring) : ∀ seen : list jsstring,
  NoDup (distinct seen xs)
  ∧ ∀ x, x ∈ distinct seen xs ↔ x ∈ xs ∧ x ∉ seen.
Proof.
  induction xs as [|x xs IH]; intros seen.
  { split; [constructor|]. intros x. split; [by intros ?%elem_of_nil|].
    by intros [?%elem_of_nil _]. }
  cbn [distinct]. case_bool_decide as Hseen.
  - destruct (IH seen) as [Hnd Hin]. split; [done|].
    intros y. rewrite Hin, elem_of_cons. split.
    + intros [Hy Hn]. split; [by right | done].
    + intros [[->|Hy] Hn]; done.
  - destruct (IH (x :: seen)) as [Hnd Hin]. split.
    + apply NoDup_cons. split; [|done]. rewrite Hin.
      intros [_ Hn]. apply Hn. by left.
    + intros y. rewrite !elem_of_cons, Hin. split.
      * intros [->|[Hy Hn]]; [by split; [left|]|].
        split; [by right|]. intros Hs. apply Hn. by right.
      * intros [[->|Hy] Hn]; [by left|].
        destruct (decide (y = x)) as [->|Hne]; [by left|].
        right. split; [done|]. by intros [?|?]%elem_of_cons.
Qed.

Lemma uri_kinds_differ (a b : jsstring) :
  a ++ js "/unread" ≠ b ++ js "/mailboxes".
Proof.
  intros H. apply (f_equal last) in H.
  rewrite !last_app in H. by vm_compute in H.
Qed.

(** X12.  The resource updates of a flush: without a server none; with
    one, for every account that has a message in the batch one update of
    its unread list and one of its mailboxes, each sent once however many
    messages the account has, and no update for any other account. *)
Theorem resource_updates_once_per_account (emails : list BatchEmail)
    (s : HooksService) :
  match lowLevelServer s with
  | None => sendResourceUpdates emails s = []
  | Some _ =>
      NoDup (sendResourceUpdates emails s)
      ∧ ∀ e, e ∈ sendResourceUpdates emails s ↔
             ∃ email, email ∈ emails ∧
               (e = ResourceUpdated
                      (js "email://" ++ account email ++ js "/unread")
                ∨ e = ResourceUpdated
                        (js "email://" ++ account email ++ js "/mailboxes"))
  end.
Proof.
  unfold sendResourceUpdates. destruct (lowLevelServer s) as [srv|]; [|done].
  destruct (distinct_spec (account <$> emails) []) as [Hnd Hin].
  split.
  - apply NoDup_bind; [|intros a _|done].
    + intros a b e _ _ Ha Hb.
      apply elem_of_cons in Ha as [->|Ha%list_elem_of_singleton];
        apply elem_of_cons in Hb as [Hb|Hb%list_elem_of_singleton];
        subst; injection Hb as Hb.
      * by apply app_inv_tail in Hb.
      * by apply uri_kinds_differ in Hb.
      * symmetry in Hb. by apply uri_kinds_differ in Hb.
      * by apply app_inv_tail in Hb.
    + apply NoDup_cons. split; [|apply NoDup_singleton].
      intros Hx%list_elem_of_singleton. injection Hx as Hx.
      by apply uri_kinds_differ in Hx.
  - intros e. rewrite list_elem_of_bind. split.
    + intros (a & He & Ha). apply Hin in Ha as [Ha _].
      apply list_elem_of_fmap in Ha as (email & -> & Hemail).
      exists email. split; [done|].
      apply elem_of_cons in He as [->|He%list_elem_of_singleton]; auto.
    + intros (email & Hemail & He). exists (account email). split.
      * destruct He as [-> | ->]; [left | right; left].
      * apply Hin. split; [|by intros ?%elem_of_nil].
        apply list_elem_of_fmap. by exists email.
Qed.

End HooksResourceFacts.

(* ===================================================================== *)
(** * The triage answer inside a code fence *)
(* ===================================================================== *)

Section FenceFacts.
Import Triage Wiring.
Local Open Scope nat_scope.

Lemma fence_match_no_backquote (c : N) (s : jsstring) :
  c ≠ 96%N → fence_match (c :: s) = None.
Proof.
  intros Hc. unfold fence_match, fence. cbn [starts_with].
  by rewrite (proj2 (N.eqb_neq 96 c)) by done.
Qed.

(** Text without a backquote has no fence to lose. *)
Lemma replace_fences_none (t rest : jsstring) :
  96%N ∉ t →
  replace_fences 0 (t ++ rest) = t ++ replace_fences 0 rest.
Proof.
  induction t as [|c t IH]; intros Ht; [done|].
  apply not_elem_of_cons in Ht as [Hc Ht].
  cbn [app replace_fences].
  rewrite fence_match_no_backquote by done. by rewrite IH.
Qed.

Lemma replace_fences_closing : replace_fences 0 ([10%N] ++ fence) = [10%N].
Proof. by vm_compute. Qed.

Lemma replace_fences_opening_json (t : jsstring) :
  replace_fences 0 (fence ++ js "json" ++ [10%N] ++ t) = replace_fences 0 t.
Proof. done. Qed.

Lemma replace_fences_opening_plain (t : jsstring) :
  replace_fences 0 (fence ++ [10%N] ++ t) = replace_fences 0 t.
Proof. done. Qed.

Lemma trim_start_line_feed (t : jsstring) :
  trim_start (t ++ [10%N])
  = match trim_start t with [] => [] | c :: r => (c :: r) ++ [10%N] end.
Proof.
  induction t as [|c t IH]; [done|].
  cbn [app trim_start]. by destruct (is_js_space c).
Qed.

Lemma trim_line_feed (t : jsstring) : trim (t ++ [10%N]) = trim t.
Proof.
  unfold trim. rewrite trim_start_line_feed.
  destruct (trim_start t) as [|c r]; [done|].
  by rewrite reverse_app.
Qed.

(** X13.  An answer wrapped in a Markdown code fence, with or without
    the [json] tag, is read exactly as the bare answer, provided the
    answer itself holds no backquote. *)
Theorem fenced_answer_read_as_bare (t : jsstring) (expectedCount : nat) :
  96%N ∉ t →
  parseTriageResponse (fenced_json t) expectedCount
    = parseTriageResponse t expectedCount
  ∧ parseTriageResponse (fenced_plain t) expectedCount
    = parseTriageResponse t expectedCount.
Proof.
  intros Ht.
  assert (cleaned t = trim t) as Hbare.
  { unfold cleaned. rewrite <- (app_nil_r t) at 1.
    by rewrite replace_fences_none, app_nil_r. }
  assert (cleaned (fenced_json t) = trim t) as Hjson.
  { unfold cleaned, fenced_json.
    rewrite replace_fences_opening_json, replace_fences_none by done.
    by rewrite replace_fences_closing, trim_line_feed. }
  assert (cleaned (fenced_plain t) = trim t) as Hplain.
  { unfold cleaned, fenced_plain.
    rewrite replace_fences_opening_plain, replace_fences_none by done.
    by rewrite replace_fences_closing, trim_line_feed. }
  unfold parseTriageResponse. by rewrite Hbare, Hjson, Hplain.
Qed.

End FenceFacts.

(** X13 at work: one empty result inside a fence. *)
Lemma fenced_answer_read_as_bare_witness :
  (96%N ∉ js "[{}]") ∧
  Triage.parseTriageResponse (Wiring.fenced_json (js "[{}]")) 1
  = Triage.parseTriageResponse (js "[{}]") 1.
Proof.
  assert (96%N ∉ js "[{}]") as Hnone
    by (apply (bool_decide_unpack _); vm_compute; exact I).
  split; [exact Hnone|].
  apply (fenced_answer_read_as_bare (js "[{}]") 1 Hnone).
Defined.


(* ===================================================================== *)
(** * From the watcher to the next batch *)
(* ===================================================================== *)

Section RelayFacts.
Import Watcher.
Local Open Scope Z_scope.

(** Without an exception the summaries are those of the messages, one
    for one and in order. *)
Lemma summaries_built (now : jsstring) (msgs : list FetchedMessage) :
  first_throw now msgs = None →
  Forall2 (λ msg meta, buildEmailMeta now msg = Summary meta)
    msgs (summaries now msgs).
Proof.
  unfold summaries.
  induction msgs as [|msg msgs IH]; intros Hnone; [constructor|].
  cbn [first_throw] in Hnone. cbn [omap list_omap].
  destruct (buildEmailMeta now msg) as [meta|] eqn:Hmeta; [|done].
  simpl. constructor; [done | by apply IH].
Qed.

(** X14.  What [handleNewEmails] tells the bus, for a connected target.
    When the run meets an exception, because building the summary of a
    message above the last UID seen throws or because the fetch fails,
    it tells nothing: the state map and the world are as before and one
    warning with the message of the exception is logged.  Otherwise it
    emits one event that carries the summaries of the fetched messages
    above the last UID seen, one for one and in the order fetched,
    under the target's account and folder, and no event when there is
    no such message. *)
Theorem handleNewEmails_emits_fresh {W E : Type}
    (emit : EventBus.NewEmailEvent → W → EventBus.completion W E)
    (errMsg : E → jsstring) (key now : jsstring) (fetched : FetchResult)
    (m : IdleStates) (w : W) (state : IdleState) (c : nat) :
  m !! key = Some state → client state = Some c →
  match Relay.failing now state fetched with
  | Some message =>
      handleNewEmails emit errMsg key now fetched m w
      = (m, w, Log.mcpLog Log.Warning (js "watcher")
                 (js "Failed to fetch new emails: " ++ message))
  | None =>
      (handleNewEmails emit errMsg key now fetched m w).1.2
      = match Relay.fresh state fetched with
        | [] => w
        | _ :: _ => Relay.world_of (emit (Relay.event_of now state fetched) w)
        end
      ∧ Forall2 (λ msg meta, buildEmailMeta now msg = Summary meta)
          (Relay.fresh state fetched)
          (EventBus.emails (Relay.event_of now state fetched))
  end.
Proof.
  intros Hm Hc. unfold handleNewEmails. rewrite Hm, Hc, scan_spec.
  unfold Relay.failing, Relay.event_of, Relay.fresh.
  destruct (first_throw now (above state (yielded fetched)))
    as [message|] eqn:Hthrow; [done|].
  destruct (failure fetched) as [err|]; [done|].
  split; [|by apply summaries_built].
  cbn [app]. rewrite (summaries_length now _ Hthrow).
  destruct (above state (yielded fetched)) as [|msg msgs]; [done|].
  rewrite bool_decide_eq_true_2 by (simpl; lia).
  by destruct (emit _ w).
Qed.

(** The listeners of other components come first on the bus; when they
    return normally the listeners after them are called, and the hooks
    service is as it was. *)
Lemma deliver_foreign {X E : Type}
    (foreign : nat → EventBus.NewEmailEvent → X → EventBus.completion X E)
    (event : EventBus.NewEmailEvent) (rest : list Relay.Subscriber)
    (s : Hooks.HooksService) (ns : list nat) :
  (∀ n x0, n ∈ ns → ∃ x1, foreign n event x0 = EventBus.Normal x1) →
  ∀ x, ∃ x',
    EventBus.deliver (Relay.call foreign) ((Relay.Foreign <$> ns) ++ rest)
      event (s, x)
    = (((Relay.Foreign <$> ns)
        ++ (EventBus.deliver (Relay.call foreign) rest event (s, x')).1),
       (EventBus.deliver (Relay.call foreign) rest event (s, x')).2).
Proof.
  induction ns as [|n ns IH]; intros Hok x.
  { exists x. simpl. by destruct (EventBus.deliver _ rest event (s, x)). }
  destruct (Hok n x) as [x1 Hn]; [by left|].
  destruct (IH (λ n' x0 Hin, Hok n' x0 (list_elem_of_further _ _ _ Hin)) x1)
    as [x' Hrest].
  exists x'. rewrite fmap_cons. cbn [app EventBus.deliver Relay.call].
  cbn [fst snd]. rewrite Hn, Hrest. done.
Qed.

(** X15.  From the watcher to the hooks service.  Take a bus on which
    only listeners of other components are registered and let the hooks
    service be started once, in a mode other than ['none'].  When a run
    of [handleNewEmails] on a connected target meets no exception and
    the other listeners return normally on the event, the summaries of
    the fetched messages above the last UID seen are appended to the
    service's pending messages, under the target's account and folder
    and in the order fetched; the batch timer is armed if there is one
    of them, and the next flush takes them all. *)
Theorem new_mail_reaches_next_batch {X E : Type}
    (foreign : nat → EventBus.NewEmailEvent → X → EventBus.completion X E)
    (errMsg : E → jsstring) (ns : list nat)
    (server : nat) (sampling : bool) (s : Hooks.HooksService) (x : X)
    (key now : jsstring) (fetched : FetchResult) (m : IdleStates)
    (state : IdleState) (c : nat) :
  Hooks.onNewEmail_mode (Hooks.config s) ≠ Hooks.mode_none →
  m !! key = Some state → client state = Some c →
  Relay.failing now state fetched = None →
  (∀ n x0, n ∈ ns →
     ∃ x1, foreign n (Relay.event_of now state fetched) x0
           = EventBus.Normal x1) →
  let started :=
    Hooks.start Relay.OfHooks server sampling s (Relay.foreign_bus ns) in
  let s' :=
    (handleNewEmails (Relay.emit foreign started.1.2) errMsg key now fetched
       m (started.1.1, x)).1.2.1 in
  Hooks.pendingEmails s'
  = Hooks.pendingEmails s
    ++ (Hooks.mkBatchEmail (name (account state)) (folder state)
          <$> summaries now (Relay.fresh state fetched))
  ∧ Forall2 (λ msg meta, buildEmailMeta now msg = Summary meta)
      (Relay.fresh state fetched) (summaries now (Relay.fresh state fetched))
  ∧ (Relay.fresh state fetched ≠ [] → is_Some (Hooks.batchTimer s'))
  ∧ (Hooks.flushBatch s').1.1.2 = Hooks.pendingEmails s'.
Proof.
  intros Hmode Hm Hc Hok Hquiet started s'.
  assert (first_throw now (above state (yielded fetched)) = None
          ∧ failure fetched = None) as [Hthrow Hfetch].
  { unfold Relay.failing, Relay.fresh in Hok.
    by destruct (first_throw now (above state (yielded fetched))). }
  assert (Hooks.pendingEmails s'
          = Hooks.pendingEmails s
            ++ (Hooks.mkBatchEmail (name (account state)) (folder state)
                  <$> summaries now (Relay.fresh state fetched))
          ∧ (Relay.fresh state fetched ≠ [] → is_Some (Hooks.batchTimer s')))
    as [Hpending Harmed].
  { subst s' started. unfold Hooks.start.
    rewrite (bool_decide_eq_false_2 _ Hmode). cbn [fst snd].
    unfold handleNewEmails. rewrite Hm, Hc, scan_spec, Hthrow, Hfetch.
    cbn [app]. rewrite (summaries_length now _ Hthrow).
    fold (Relay.fresh state fetched).
    destruct (Relay.fresh state fetched) as [|msg msgs] eqn:Hfresh.
    { simpl. by rewrite app_nil_r. }
    rewrite bool_decide_eq_true_2 by (simpl; lia).
    rewrite <- Hfresh. fold (Relay.event_of now state fetched) in *.
    unfold Relay.emit, EventBus.emit, Relay.foreign_bus.
    cbn [EventBus.on EventBus.listeners EventBus.new_listeners].
    edestruct (deliver_foreign foreign (Relay.event_of now state fetched)
                 [Relay.OfHooks]) as [x' ->]; [exact Hquiet|].
    simpl. split; [done|]. intros _. by destruct (Hooks.batchTimer s). }
  split; [done|]. split; [by apply summaries_built|]. split; [done|].
  apply flushBatch_sync.
Qed.


End RelayFacts.

(** X14 at work: UIDs 41, 42 and 45 fetched while 41 is the last seen. *)
Lemma handleNewEmails_emits_fresh_witness :
  Sample.watching !! Sample.work_key = Some Sample.work_inbox ∧
  Watcher.client Sample.work_inbox = Some 1%nat ∧
  (Watcher.handleNewEmails Sample.recording_emit id Sample.work_key
     Sample.now Sample.three_fetched Sample.watching []).1.2
  = [Relay.event_of Sample.now Sample.work_inbox Sample.three_fetched].
Proof.
  split; [reflexivity|]. split; [reflexivity|].
  apply (handleNewEmails_emits_fresh Sample.recording_emit id Sample.work_key
           Sample.now Sample.three_fetched Sample.watching []
           Sample.work_inbox 1 eq_refl eq_refl).
Defined.

(** A message whose date cannot be printed: the run tells the bus
    nothing, also of the message fetched with it. *)
Example handleNewEmails_unprintable_date :
  Watcher.handleNewEmails Sample.recording_emit id Sample.work_key
    Sample.now
    (Watcher.mkFetch [Sample.message 42; Scene.undated 43] None)
    Sample.watching []
  = (Sample.watching, [],
     Log.mcpLog Log.Warning (js "watcher")
       (js "Failed to fetch new emails: Invalid time value")).
Proof. by vm_compute. Qed.

(** X15 at work: the same fetch with two other listeners and the hooks
    service on the bus. *)
Lemma new_mail_reaches_next_batch_witness :
  Hooks.onNewEmail_mode (Hooks.config Sample.ready) ≠ Hooks.mode_none ∧
  Sample.watching !! Sample.work_key = Some Sample.work_inbox ∧
  Watcher.client Sample.work_inbox = Some 1%nat ∧
  Relay.failing Sample.now Sample.work_inbox Sample.three_fetched = None ∧
  length
    (Hooks.pendingEmails
       (Watcher.handleNewEmails
          (Relay.emit Scene.recorders
             (Hooks.start Relay.OfHooks 0%nat true Sample.ready
                (Relay.foreign_bus [1%nat; 2%nat])).1.2)
          id Sample.work_key Sample.now Sample.three_fetched Sample.watching
          ((Hooks.start Relay.OfHooks 0%nat true Sample.ready
              (Relay.foreign_bus [1%nat; 2%nat])).1.1, [])).1.2.1)
  = 6%nat.
Proof.
  assert (Hooks.onNewEmail_mode (Hooks.config Sample.ready) ≠ Hooks.mode_none)
    as Hmode by discriminate.
  split; [exact Hmode|]. split; [reflexivity|]. split; [reflexivity|].
  split; [reflexivity|].
  destruct (new_mail_reaches_next_batch Scene.recorders id [1%nat; 2%nat]
              0%nat true Sample.ready [] Sample.work_key Sample.now
              Sample.three_fetched Sample.watching Sample.work_inbox 1
              Hmode eq_refl eq_refl eq_refl)
    as (Hpending & _).
  { intros n x0 _. by eexists. }
  rewrite Hpending. reflexivity.
Defined.

(** A listener registered before the service that throws keeps the
    event from it: nothing becomes pending. *)
Example earlier_listener_throws :
  let raises (n : nat) (event : EventBus.NewEmailEvent) (x : list nat)
      : EventBus.completion (list nat) jsstring :=
    EventBus.Throw (js "boom") (x ++ [n]) in
  let started :=
    Hooks.start Relay.OfHooks 0%nat true Sample.ready
      (Relay.foreign_bus [1%nat]) in
  Hooks.pendingEmails
    (Watcher.handleNewEmails (Relay.emit raises started.1.2) id
       Sample.work_key Sample.now Sample.three_fetched Sample.watching
       (started.1.1, [])).1.2.1
  = Sample.four_pending.
Proof. by vm_compute. Qed.


(* ===================================================================== *)
(** * The watcher: targets, keys and timers *)
(* ===================================================================== *)

Section WatcherTargetFacts.
Import Watcher.
Local Open Scope Z_scope.

(** X17.  The key of a watch target tells targets apart: two targets
    whose account names hold no colon have the same key only if they
    are the same account and folder. *)
Theorem stateKey_distinguishes (state state' : IdleState) :
  58%N ∉ name (account state) → 58%N ∉ name (account state') →
  stateKey state = stateKey state' →
  name (account state) = name (account state')
  ∧ folder state = folder state'.
Proof.
  unfold stateKey, key_of.
  generalize (folder state) (folder state'). intros f f'.
  generalize (name (account state')).
  induction (name (account state)) as [|c a IH]; intros [|c' a'] Ha Ha' Heq.
  - by injection Heq as ->.
  - injection Heq as <- _. by apply not_elem_of_cons in Ha' as [? _].
  - injection Heq as -> _. by apply not_elem_of_cons in Ha as [? _].
  - injection Heq as -> Heq.
    apply not_elem_of_cons in Ha as [_ Ha].
    apply not_elem_of_cons in Ha' as [_ Ha'].
    by destruct (IH a' Ha Ha' Heq) as [-> ->].
Qed.

(** X18.  Watch targets are independent: no routine run for one key
    changes what the map holds under another. *)
Theorem other_targets_untouched {W E : Type}
    (emit : EventBus.NewEmailEvent → W → EventBus.completion W E)
    (errMsg : E → jsstring) (key key' : jsstring) (m : IdleStates) :
  key ≠ key' →
  states (scheduleReconnect key m) !! key' = m !! key'
  ∧ (∀ outcome, states (connectIdle key outcome m) !! key' = m !! key')
  ∧ (∀ timer outcome,
       states (reconnect_timer_fires key timer outcome m) !! key' = m !! key')
  ∧ states (on_close key m) !! key' = m !! key'
  ∧ (∀ now fetched w,
       (handleNewEmails emit errMsg key now fetched m w).1.1 !! key'
       = m !! key')
  ∧ (∀ acc fld outcome,
       key_of (name acc) fld = key →
       states (startIdle acc fld outcome m) !! key' = m !! key').
Proof.
  intros Hne.
  assert (∀ m0, states (scheduleReconnect key m0) !! key' = m0 !! key')
    as Hschedule.
  { intros m0. unfold scheduleReconnect.
    destruct (m0 !! key) as [state|]; [|done].
    destruct (stopped state); [done|]. simpl.
    by apply lookup_updateState_ne. }
  assert (∀ outcome m0,
            states (connectIdle key outcome m0) !! key' = m0 !! key')
    as Hconnect.
  { intros outcome m0. unfold connectIdle.
    destruct (m0 !! key) as [state|]; [|done].
    destruct (stopped state); [done|].
    destruct outcome as [client lock mailbox|err]; simpl.
    - by apply lookup_updateState_ne.
    - apply Hschedule. }
  split_and!.
  - apply Hschedule.
  - intros outcome. apply Hconnect.
  - intros timer outcome. unfold reconnect_timer_fires.
    rewrite Hconnect. by apply lookup_updateState_ne.
  - unfold on_close.
    destruct (updateState key set_disconnected m !! key) as [current|];
      [destruct (stopped current)|]; simpl;
      rewrite ?Hschedule; by apply lookup_updateState_ne.
  - intros now fetched w. unfold handleNewEmails.
    destruct (m !! key) as [state|]; [|done].
    destruct (client state); [|done].
    destruct (foldl (scan now state) (Scanning (lastSeenUid state) [])
                (yielded fetched)) as [maxUid emails|message]; [|done].
    destruct (failure fetched); [done|].
    assert (commit key state maxUid m !! key' = m !! key') as Hcommit.
    { unfold commit. case_bool_decide; [|done].
      by apply lookup_updateState_ne. }
    destruct (bool_decide (0 < length emails)%nat); [|done].
    by destruct (emit _ w).
  - intros acc fld outcome Hkey. unfold startIdle. rewrite Hkey, Hconnect.
    by apply lookup_insert_ne.
Qed.

(** X19.  A target marked as stopped stays down: for it no routine
    arms a reconnect timer, logs a line or records a connection,
    whatever the outcome of an attempt would have been. *)
Theorem stopped_target_stays_down (key : jsstring) (m : IdleStates)
    (state : IdleState) :
  m !! key = Some state → stopped state = true →
  scheduleReconnect key m = mkOutcome m [] None
  ∧ (∀ outcome, connectIdle key outcome m = mkOutcome m [] None)
  ∧ (∀ timer outcome,
       armed (reconnect_timer_fires key timer outcome m) = None
       ∧ logs (reconnect_timer_fires key timer outcome m) = []
       ∧ client <$> states (reconnect_timer_fires key timer outcome m) !! key
         = Some (client state))
  ∧ armed (on_close key m) = None
  ∧ logs (on_close key m) = []
  ∧ stopped <$> states (on_close key m) !! key = Some true.
Proof.
  intros Hm Hstopped.
  assert (∀ (f : IdleState → IdleState) outcome,
            stopped (f state) = true →
            connectIdle key outcome (updateState key f m)
            = mkOutcome (updateState key f m) [] None) as Hconnect.
  { intros f outcome Hf. unfold connectIdle.
    by rewrite lookup_updateState, Hm; simpl; rewrite Hf. }
  split_and!.
  - unfold scheduleReconnect. by rewrite Hm, Hstopped.
  - intros outcome. unfold connectIdle. by rewrite Hm, Hstopped.
  - intros timer outcome. unfold reconnect_timer_fires.
    rewrite Hconnect by done. simpl.
    by rewrite lookup_updateState, Hm.
  - unfold on_close. by rewrite lookup_updateState, Hm; simpl; rewrite Hstopped.
  - unfold on_close. by rewrite lookup_updateState, Hm; simpl; rewrite Hstopped.
  - unfold on_close. rewrite lookup_updateState, Hm; simpl; rewrite Hstopped.
    simpl. by rewrite lookup_updateState, Hm; simpl; rewrite Hstopped.
Qed.

End WatcherTargetFacts.

(** X17 at work. *)
Lemma stateKey_distinguishes_witness :
  (58%N ∉ Watcher.name (Watcher.account Sample.work_inbox)) ∧
  Watcher.stateKey Sample.work_inbox = Watcher.stateKey Sample.work_inbox ∧
  Watcher.folder Sample.work_inbox = Watcher.folder Sample.work_inbox.
Proof.
  assert (58%N ∉ Watcher.name (Watcher.account Sample.work_inbox)) as Hname
    by (apply (bool_decide_unpack _); vm_compute; exact I).
  split; [exact Hname|]. split; [reflexivity|].
  apply (stateKey_distinguishes Sample.work_inbox Sample.work_inbox
           Hname Hname eq_refl).
Defined.

(** A colon in an account name: two targets, one key. *)
Example stateKey_collision :
  Watcher.key_of (js "a:b") (js "c") = Watcher.key_of (js "a") (js "b:c").
Proof. reflexivity. Qed.

(** X18 at work: the connection of work/INBOX closes; home/INBOX is
    not concerned. *)
Lemma other_targets_untouched_witness :
  Sample.work_key ≠ Scene.home_key ∧
  Watcher.states (Watcher.on_close Sample.work_key Sample.watching)
    !! Scene.home_key
  = Sample.watching !! Scene.home_key.
Proof.
  assert (Sample.work_key ≠ Scene.home_key) as Hne by discriminate.
  split; [exact Hne|].
  destruct (other_targets_untouched Sample.recording_emit id Sample.work_key
              Scene.home_key Sample.watching Hne)
    as (_ & _ & _ & Hclose & _).
  exact Hclose.
Defined.

(** X19 at work: a connection attempt that would have succeeded. *)
Lemma stopped_target_stays_down_witness :
  Scene.halted !! Sample.work_key
    = Some (Watcher.set_stopped Sample.work_inbox) ∧
  Watcher.stopped (Watcher.set_stopped Sample.work_inbox) = true ∧
  Watcher.connectIdle Sample.work_key
    (Watcher.Connected 2 2 (Watcher.MailboxObject (Some 100%Z))) Scene.halted
  = Watcher.mkOutcome Scene.halted [] None.
Proof.
  split; [reflexivity|]. split; [reflexivity|].
  apply (stopped_target_stays_down Sample.work_key Scene.halted
           (Watcher.set_stopped Sample.work_inbox) eq_refl eq_refl).
Defined.


(* ===================================================================== *)
(** * The watcher under the event loop *)
(* ===================================================================== *)

Section SupervisorFacts.
Import Watcher Supervisor.
Local Open Scope Z_scope.

Lemma supervisor_run_snoc (sys : System) (signals : list Signal)
    (signal : Signal) :
  run sys (signals ++ [signal]) = step (run sys signals) signal.
Proof. unfold run. by rewrite foldl_app. Qed.

Lemma absorb_bounded (key : jsstring)
    (armed : list (jsstring * ReconnectTimer)) (logged : list Log.Entry)
    (r : Outcome) :
  Forall (λ kt, timer_bounded (Some kt.2)) armed →
  backoff_bounded (states r) ∧ timer_bounded (Watcher.armed r) →
  backoff_bounded (targets (absorb key armed logged r))
  ∧ Forall (λ kt, timer_bounded (Some kt.2)) (timers (absorb key armed logged r)).
Proof.
  intros Harmed [Hstates Htimer]. split; [done|]. cbn [absorb timers].
  apply Forall_app. split; [done|].
  destruct (Watcher.armed r); [by apply Forall_singleton | constructor].
Qed.

(** X20.  Reconnect delays stay in range.  In every run of the watcher
    from its construction, whatever targets are started, whichever
    attempts fail and whenever connections close, the backoff of every
    target lies between one second and one minute, and every armed
    timer waits for exactly the backoff it captured, within the same
    range. *)
Theorem reconnect_delays_in_range (signals : list Signal) :
  backoff_bounded (targets (run initial signals))
  ∧ Forall (λ kt,
      INITIAL_BACKOFF_MS ≤ delay kt.2 ≤ MAX_BACKOFF_MS
      ∧ captured_backoffMs kt.2 = delay kt.2)
      (timers (run initial signals)).
Proof.
  enough (backoff_bounded (targets (run initial signals))
          ∧ Forall (λ kt, timer_bounded (Some kt.2))
              (timers (run initial signals))) as [Hb Ht].
  { split; [done|]. eapply Forall_impl; [exact Ht|].
    intros [key timer] [Hrange Hdelay]. simpl in *. rewrite Hdelay. done. }
  induction signals as [|signal signals IH] using rev_ind.
  { split; [apply map_Forall_empty | constructor]. }
  rewrite supervisor_run_snoc. destruct IH as [Hb Ht].
  set (sys := run initial signals) in *.
  destruct signal as [acc fld outcome|i outcome|key]; cbn [step].
  - apply absorb_bounded; [done|]. by apply startIdle_bounded.
  - destruct (timers sys !! i) as [[key timer]|] eqn:Hi; [|done].
    apply absorb_bounded.
    + by apply Forall_delete.
    + apply reconnect_timer_fires_bounded; [done|].
      eapply Forall_lookup_1 in Ht; [|exact Hi]. done.
  - apply absorb_bounded; [done|]. by apply on_close_bounded.
Qed.

End SupervisorFacts.

(* ===================================================================== *)
(** * Attachments *)
(* ===================================================================== *)

Section BodyFacts.
Import Watcher.

Lemma existsb_flat_map {A B} (p : B → bool) (f : A → list B) (l : list A) :
  existsb p (flat_map f l) = existsb (λ x, existsb p (f x)) l.
Proof.
  induction l as [|x l IH]; [done|].
  cbn [flat_map existsb]. by rewrite existsb_app, IH.
Qed.

(** X21.  [hasAttachments] finds an attachment at any depth: it is true
    exactly when some node of the body structure, the root or any
    descendant, has the disposition ['attachment']. *)
Theorem hasAttachments_any_depth (bs : BodyStructure) :
  hasAttachments_node bs = existsb Body.is_attachment (Body.nodes bs).
Proof.
  revert bs. fix IH 1. intros [disposition [children|]].
  - cbn [hasAttachments_node Body.nodes existsb Body.is_attachment].
    destruct (bool_decide (disposition = Some (js "attachment"))); [done|].
    rewrite orb_false_l, existsb_flat_map.
    induction children as [|child children IHc]; [done|].
    cbn [existsb]. by rewrite IH, IHc.
  - cbn [hasAttachments_node Body.nodes existsb Body.is_attachment].
    by destruct (bool_decide (disposition = Some (js "attachment"))).
Qed.

End BodyFacts.
